(** * Model-based test generation (testgen.py): a shallow embedding

    The development follows [src/testgen.py]: the state-graph loader
    [parse_json_state_graph], the greedy path coverer
    [compute_path_coverings], the trace construction of the main script,
    the action translator [make_wt_action] and the test emitter
    [gen_wt_test_from_traces].

    Conventions of the embedding.
    - Python exceptions are values of [exn]; code that can raise returns
      [result].
    - JSON values as [json.load] produces them are values of [pyval];
      numbers are integers (the model checker emits no floats), strings are
      byte strings and the text operations agree with Python on ASCII text.
    - State fingerprints (graph nodes) are integers: line 125 of the source
      computes [p % 1000] on them.
    - The calls into [networkx] and the builtin [hash] are parameters.
    - A Python float is a binary64 number.  A finite float is given by its
      exact value, a rational; an operation on floats rounds its exact
      result to the nearest float, ties to even ([round_b64]).  The
      coverage threshold is a finite float ([inf] and [nan] are left out),
      and [len] stays below 2^1024, so that no conversion of a count to a
      float overflows (the lengths of CPython are below 2^63). *)

From Stdlib Require Import QArith Qcanon Ascii String.
From stdpp Require Import gmap strings list pretty sorting.

Local Open Scope string_scope.
Local Open Scope list_scope.
Local Open Scope Z_scope.

Set Warnings "-register-all,-clear-no-such-hyp".

(** ** Exceptions and the error monad *)

Inductive nx_exn :=
  | NetworkXException | NetworkXPointlessConcept | NetworkXUnfeasible | NodeNotFound.

Inductive exn :=
  | ZeroDivisionError | IndexError | KeyError | TypeError | AttributeError
  | NetworkX (e : nx_exn).

(** The Python class name of an exception. *)
Definition exn_name (e : exn) : string :=
  match e with
  | ZeroDivisionError => "ZeroDivisionError"
  | IndexError => "IndexError"
  | KeyError => "KeyError"
  | TypeError => "TypeError"
  | AttributeError => "AttributeError"
  | NetworkX NetworkXException => "NetworkXException"
  | NetworkX NetworkXPointlessConcept => "NetworkXPointlessConcept"
  | NetworkX NetworkXUnfeasible => "NetworkXUnfeasible"
  | NetworkX NodeNotFound => "NodeNotFound"
  end.

Inductive result (A : Type) : Type :=
  | Ok (a : A)
  | Raise (e : exn).
Arguments Ok {A} a.
Arguments Raise {A} e.

#[global] Instance result_ret : MRet result := λ A a, Ok a.
#[global] Instance result_bind : MBind result := λ A B f m,
  match m with Ok a => f a | Raise e => Raise e end.

(** [raises r name]: the computation fails with the exception class [name]. *)
Definition raises {A} (r : result A) (name : string) : Prop :=
  ∃ e, r = Raise e ∧ exn_name e = name.

Definition returns {A} (r : result A) : Prop := ∃ a, r = Ok a.

(** Monadic map, left to right (a list comprehension whose body can raise). *)
Fixpoint traverse {A B} (f : A → result B) (l : list A) : result (list B) :=
  match l with
  | [] => Ok []
  | x :: l' => y ← f x; ys ← traverse f l'; Ok (y :: ys)
  end.

(** ** Python text *)

Definition dquote : ascii := Eval cbv in ascii_of_nat 34.
Definition q : string := String dquote "".
Definition squote : ascii := Eval cbv in ascii_of_nat 39.
Definition backslash : ascii := Eval cbv in ascii_of_nat 92.
Definition nl : string := Eval cbv in String (ascii_of_nat 10) "".

Definition lower_ascii (c : ascii) : ascii :=
  let n := N_of_ascii c in
  if ((65 <=? n) && (n <=? 90))%N then ascii_of_N (n + 32) else c.

(** [str.lower()] *)
Fixpoint lower (s : string) : string :=
  match s with
  | EmptyString => EmptyString
  | String c s' => String (lower_ascii c) (lower s')
  end.

(** [str.replace(old, new)] for a non-empty [old]: left to right, matches do
    not overlap; [skip] counts the characters of a match still to drop. *)
Fixpoint replace_from (old new : string) (skip : nat) (s : string) : string :=
  match s with
  | EmptyString => EmptyString
  | String c s' =>
      match skip with
      | S k => replace_from old new k s'
      | O =>
          if String.prefix old s
          then new +:+ replace_from old new (String.length old - 1) s'
          else String c (replace_from old new 0 s')
      end
  end.

Fixpoint intersperse_new (new s : string) : string :=
  match s with
  | EmptyString => EmptyString
  | String c s' => String c (new +:+ intersperse_new new s')
  end.

Definition replace (old new s : string) : string :=
  match old with
  | EmptyString => new +:+ intersperse_new new s
  | _ => replace_from old new 0 s
  end.

(** [sub in s] on strings *)
Fixpoint contains (sub s : string) : bool :=
  String.prefix sub s ||
  match s with
  | EmptyString => false
  | String _ s' => contains sub s'
  end.

(** [sep.join(l)] *)
Definition join (sep : string) (l : list string) : string := String.concat sep l.

(** [repr] of a string: single quotes unless the text has a single quote and
    no double quote; backslash, the quote and control characters escaped. *)
Definition hex_digit (n : N) : ascii :=
  match String.get (N.to_nat n) "0123456789abcdef" with
  | Some c => c
  | None => "0"%char
  end.

Definition repr_char (quote c : ascii) : string :=
  let n := N_of_ascii c in
  if bool_decide (c = quote) || bool_decide (c = backslash)
  then String backslash (String c "")
  else if (n =? 9)%N then String backslash "t"
  else if (n =? 10)%N then String backslash "n"
  else if (n =? 13)%N then String backslash "r"
  else if ((n <? 32) || (n =? 127))%N
  then String backslash (String "x" (String (hex_digit (n / 16)) (String (hex_digit (n mod 16)) "")))
  else String c "".

Fixpoint repr_chars (quote : ascii) (s : string) : string :=
  match s with
  | EmptyString => EmptyString
  | String c s' => repr_char quote c +:+ repr_chars quote s'
  end.

Definition repr_str (s : string) : string :=
  let quote := if contains (String squote "") s && negb (contains q s)
               then dquote else squote in
  String quote (repr_chars quote s +:+ String quote "").

(** ** JSON values *)

Inductive pyval :=
  | PNone
  | PBool (b : bool)
  | PInt (z : Z)
  | PStr (s : string)
  | PList (l : list pyval)
  | PDict (d : list (string * pyval)).

(** [repr(v)] and [str(v)] (what an f-string field [{v}] renders). *)
Fixpoint py_repr (v : pyval) : string :=
  match v with
  | PNone => "None"
  | PBool true => "True"
  | PBool false => "False"
  | PInt z => pretty z
  | PStr s => repr_str s
  | PList l => "[" +:+ join ", " (List.map py_repr l) +:+ "]"
  | PDict d =>
      "{" +:+ join ", " (List.map (λ kv, repr_str (fst kv) +:+ ": " +:+ py_repr (snd kv)) d) +:+ "}"
  end.

Definition py_str (v : pyval) : string :=
  match v with
  | PStr s => s
  | _ => py_repr v
  end.

(** Lookup in a JSON object (first binding of the key). *)
Fixpoint assoc {V} (k : string) (d : list (string * V)) : option V :=
  match d with
  | [] => None
  | (k', v) :: d' => if String.eqb k k' then Some v else assoc k d'
  end.

(** [k in v] for a string [k]. *)
Definition py_in (k : string) (v : pyval) : result bool :=
  match v with
  | PDict d => Ok (bool_decide (is_Some (assoc k d)))
  | PList l => Ok (existsb (λ x, match x with PStr s => String.eqb s k | _ => false end) l)
  | PStr s => Ok (contains k s)
  | _ => Raise TypeError
  end.

(** [l[i]] on a list of length [n], with Python's negative indices. *)
Definition py_index {A} (l : list A) (i : Z) : result A :=
  let n := Z.of_nat (length l) in
  let j := if i <? 0 then i + n else i in
  if (j <? 0) || (n <=? j) then Raise IndexError
  else match l !! Z.to_nat j with Some x => Ok x | None => Raise IndexError end.

Definition string_chars (s : string) : list pyval :=
  (λ c, PStr (String c "")) <$> list_ascii_of_string s.

(** [v[k]] *)
Definition py_getitem (v k : pyval) : result pyval :=
  match v, k with
  | PDict d, PStr s => match assoc s d with Some x => Ok x | None => Raise KeyError end
  | PDict d, (PList _ | PDict _) => Raise TypeError
  | PDict d, _ => Raise KeyError
  | PList l, PInt i => py_index l i
  | PList l, PBool b => py_index l (if b then 1 else 0)
  | PStr s, PInt i => py_index (string_chars s) i
  | PStr s, PBool b => py_index (string_chars s) (if b then 1 else 0)
  | _, _ => Raise TypeError
  end.

Definition py_getkey (v : pyval) (k : string) : result pyval := py_getitem v (PStr k).

(** [v == "s"] and [v == z] against constants. *)
Definition py_eq_str (v : pyval) (s : string) : bool :=
  match v with PStr s' => String.eqb s' s | _ => false end.

Definition py_eq_int (v : pyval) (z : Z) : bool :=
  match v with
  | PInt z' => z' =? z
  | PBool b => (if b then 1 else 0) =? z
  | _ => false
  end.

(** [v < 0] *)
Definition py_lt0 (v : pyval) : result bool :=
  match v with
  | PInt z => Ok (z <? 0)
  | PBool _ => Ok false
  | _ => Raise TypeError
  end.

(** [a / b] (true division): only the exception matters downstream. *)
Definition py_truediv (a b : Z) : result Q :=
  if b =? 0 then Raise ZeroDivisionError else Ok (inject_Z a / inject_Z b)%Q.

Definition len {A} (l : list A) : Z := Z.of_nat (length l).

(** ** Graphs and the networkx interface *)

(** [networkx.DiGraph]: nodes and edges, both in insertion order. *)
Record DiGraph := { nodes : list Z; edges : list (Z * Z) }.

Definition empty_graph : DiGraph := {| nodes := []; edges := [] |}.

Definition add_node (n : Z) (G : DiGraph) : DiGraph :=
  if bool_decide (n ∈ nodes G) then G
  else {| nodes := nodes G ++ [n]; edges := edges G |}.

(** [G.add_edge(u, v)] *)
Definition add_edge (u v : Z) (G : DiGraph) : DiGraph :=
  let G' := add_node v (add_node u G) in
  if bool_decide ((u, v) ∈ edges G') then G'
  else {| nodes := nodes G'; edges := edges G' ++ [(u, v)] |}.

(** A dict keyed by nodes whose iteration order is observed (the result of
    [single_source_shortest_path]): bindings in insertion order. *)
Definition path := list Z.
Definition path_dict := list (Z * path).

Fixpoint dict_lookup (x : Z) (d : path_dict) : option path :=
  match d with
  | [] => None
  | (k, v) :: d' => if bool_decide (x = k) then Some v else dict_lookup x d'
  end.

(** [d[x]] *)
Definition dict_get (d : path_dict) (x : Z) : result path :=
  match dict_lookup x d with
  | Some v => Ok v
  | None => Raise KeyError
  end.

(** [d.keys()] *)
Definition keys (d : path_dict) : list Z := d.*1.

(** The three networkx calls of [compute_path_coverings]. *)
Class Networkx := {
  minimum_spanning_arborescence : DiGraph → result DiGraph;
  topological_sort : DiGraph → result (list Z);
  single_source_shortest_path : DiGraph → Z → result path_dict;
}.

(** ** Python floats *)

(** [a / b] rounded to the nearest integer, ties to even, for [b > 0]. *)
Definition rne_div (a b : Z) : Z :=
  let q := a / b in
  let r := a mod b in
  match 2 * r ?= b with
  | Lt => q
  | Gt => q + 1
  | Eq => if Z.even q then q else q + 1
  end.

(** The integer part of the binary logarithm of [n / d], for [n, d > 0]. *)
Definition ilog2 (n d : Z) : Z :=
  let k := Z.log2 n - Z.log2 d in
  if (if 0 <=? k then d * 2 ^ k <=? n else d <=? n * 2 ^ (- k)) then k else k - 1.

(** The binary64 float nearest to [x], ties to even: 53 significant bits,
    least exponent -1074 (subnormal numbers included). *)
Definition round_b64_raw (x : Q) : Q :=
  let n := Qnum x in
  let d := Z.pos (Qden x) in
  if n =? 0 then 0%Q
  else
    let e := Z.max (ilog2 (Z.abs n) d - 52) (-1074) in
    if 0 <=? e then inject_Z (rne_div n (d * 2 ^ e) * 2 ^ e)
    else Qmake (rne_div (n * 2 ^ (- e)) d) (Z.to_pos (2 ^ (- e))).

Definition round_b64 (x : Q) : Q := Qred (round_b64_raw (Qred x)).

(** [float(n)], [x * y] and [x / y] on floats, and [float(s)] for the
    decimal [n / d]. *)
Definition float_of_int (n : Z) : Q := round_b64 (inject_Z n).
Definition float_mul (x y : Q) : Q := round_b64 (x * y).
Definition float_div (x y : Q) : Q := round_b64 (x / y).
Definition float_of_decimal (n : Z) (d : positive) : Q := round_b64 (n # d).

(** [n >= x] for an integer [n] and a float [x]: Python compares the two
    values exactly. *)
Definition int_ge_float (n : Z) (x : Q) : bool := Qle_bool x (inject_Z n).

(** ** The path coverer *)

(** The sort key of line 100: [(len(spaths[x]), hash(tuple(spaths[x])))],
    compared as Python compares tuples. *)
Definition sort_key : Type := nat * Z.

Definition key_lt (a b : sort_key) : bool :=
  (a.1 <? b.1)%nat || ((a.1 =? b.1)%nat && (a.2 <? b.2)).

(** [sorted(..., reverse=True)] on decorated items: descending and stable
    (items with equal keys keep their original order). *)
Fixpoint insert_desc {A} (x : A * sort_key) (s : list (A * sort_key)) : list (A * sort_key) :=
  match s with
  | [] => [x]
  | y :: s' => if key_lt x.2 y.2 then y :: insert_desc x s' else x :: s
  end.

Definition sorted_desc {A} (l : list (A * sort_key)) : list (A * sort_key) :=
  foldr insert_desc [] l.

Record cover_state := {
  all_covered_nodes : gset Z;
  covering_paths : list path;
  uncovered_target_nodes : gset Z;
}.

Section PathCoverer.
Context `{nx : Networkx}.
(** The builtin [hash] on a tuple of integers. *)
Variable hash : list Z → Z.

(** Line 100. *)
Definition spath_keys_sorted (spaths : path_dict) : result (list Z) :=
  decorated ← traverse (λ x, p ← dict_get spaths x; Ok (x, (length p, hash p))) (keys spaths);
  Ok (sorted_desc decorated).*1.

(** Lines 109-129: the loop over [spath_keys_sorted]; [Ok] on [break] and at
    the end of the list.  The two [print] calls write to stdout only; the
    division of line 121 is kept for its exception.  The test of line 128,
    [num_target_nodes_covered >= (cvg_pct * len(target_nodes_to_cover))],
    multiplies two floats and compares an integer with the rounded
    product. *)
Fixpoint cover_loop (spaths : path_dict) (ntargets : Z) (cvg_pct : Q)
    (ps : list Z) (st : cover_state) : result cover_state :=
  match ps with
  | [] => Ok st
  | p :: ps' =>
      sp ← dict_get spaths p;
      let new_covered_target_nodes := uncovered_target_nodes st ∩ list_to_set sp in
      if bool_decide (size new_covered_target_nodes = 0%nat)
      then cover_loop spaths ntargets cvg_pct ps' st
      else
        let uncovered := uncovered_target_nodes st ∖ new_covered_target_nodes in
        let num_target_nodes_covered := ntargets - Z.of_nat (size uncovered) in
        _ ← py_truediv num_target_nodes_covered ntargets;
        let st' := {| all_covered_nodes := all_covered_nodes st ∪ new_covered_target_nodes;
                      covering_paths := covering_paths st ++ [sp];
                      uncovered_target_nodes := uncovered |} in
        if int_ge_float num_target_nodes_covered (float_mul cvg_pct (float_of_int ntargets))
        then Ok st'
        else cover_loop spaths ntargets cvg_pct ps' st'
  end.

Definition initial_cover_state (target_nodes_to_cover : list Z) : cover_state :=
  {| all_covered_nodes := ∅;
     covering_paths := [];
     uncovered_target_nodes := list_to_set target_nodes_to_cover |}.

(** Lines 87-94: the arborescence and its root.  The [print] of line 90
    evaluates [100 * len(mst.edges()) / len(G.edges())]. *)
Definition arborescence_root (G : DiGraph) : result (DiGraph * Z) :=
  mst ← minimum_spanning_arborescence G;
  _ ← py_truediv (100 * len (edges mst)) (len (edges G));
  ordered_nodes ← topological_sort mst;
  root_node ← py_index ordered_nodes 0;
  Ok (mst, root_node).

(** [compute_path_coverings(G, target_nodes_to_cover, cvg_pct)].  The
    coverage threshold [cvg_pct] is a finite float, given by its value. *)
Definition compute_path_coverings (G : DiGraph) (target_nodes_to_cover : list Z)
    (cvg_pct : Q) : result (list path) :=
  '(mst, root_node) ← arborescence_root G;
  spaths ← single_source_shortest_path mst root_node;
  spath_keys ← spath_keys_sorted spaths;
  st ← cover_loop spaths (len target_nodes_to_cover) cvg_pct spath_keys
         (initial_cover_state target_nodes_to_cover);
  Ok (covering_paths st).

(** The arborescence stage succeeds on [G] and yields the root paths
    [spaths]. *)
Definition root_paths (G : DiGraph) (spaths : path_dict) : Prop :=
  ∃ mst root_node,
    arborescence_root G = Ok (mst, root_node) ∧
    single_source_shortest_path mst root_node = Ok spaths.
End PathCoverer.

(** A networkx that answers from a fixed table: the arborescence, its
    topological order and the root paths of one graph. *)
Definition nx_table (mst : result DiGraph) (order : list Z) (spaths : path_dict) : Networkx :=
  {| minimum_spanning_arborescence := λ _, mst;
     topological_sort := λ _, Ok order;
     single_source_shortest_path := λ _ _, Ok spaths |}.

(** ** The state-graph loader *)

(** One element of the ["edges"] document and one of the ["states"]
    document, as the schema of the model checker's dump has them. *)
Record json_edge := {
  e_from : Z;
  e_to : Z;
  e_act : string;
  e_params : list (string * pyval);
}.

Record json_state := { s_fp : Z; s_val : pyval }.

(** [parse_json_state_graph]: the two documents are the arguments (opening
    and decoding the files comes before this function's logic).  The two
    dicts are only looked up, so they are finite maps; a later binding of a
    key replaces the earlier one. *)
Definition parse_json_state_graph (json_edges : list json_edge) (json_states : list json_state)
    : result (DiGraph * gmap Z pyval * gmap (Z * Z) json_edge) :=
  let G := foldl (λ G edge, add_edge (e_from edge) (e_to edge) G) empty_graph json_edges in
  let edge_actions :=
    foldl (λ m edge, <[(e_from edge, e_to edge) := edge]> m) (∅ : gmap (Z * Z) json_edge) json_edges in
  let node_map :=
    foldl (λ m node, <[s_fp node := s_val node]> m) (∅ : gmap Z pyval) json_states in
  Ok (G, node_map, edge_actions).

(** ** Traces *)

(** A transition [{"name": ..., "context": ..., "parameters": ...}] (the last
    two keys optional) and a step [[pre_state, transition, post_state]]. *)
Record transition := {
  t_name : string;
  t_context : option (list (string * pyval));
  t_parameters : option pyval;
}.

Record step := { pre_state : pyval; trans : transition; post_state : pyval }.

Record trace := { action : list step }.

(** Lines 516-519: the consecutive pairs of a covering path. *)
Fixpoint path_edges (cpath : path) : list (Z * Z) :=
  match cpath with
  | efrom :: (eto :: _) as rest => (efrom, eto) :: path_edges rest
  | _ => []
  end.

Definition map_get `{Countable K} {V} (m : gmap K V) (k : K) : result V :=
  match m !! k with
  | Some v => Ok v
  | None => Raise KeyError
  end.

(** Lines 522-538: the trace of one covering path. *)
Definition build_trace (node_map : gmap Z pyval) (edge_actions : gmap (Z * Z) json_edge)
    (cpath : path) : result trace :=
  acts ← traverse (map_get edge_actions) (path_edges cpath);
  steps ← traverse (λ act,
      pre ← map_get node_map (e_from act);
      post ← map_get node_map (e_to act);
      Ok {| pre_state := PList [PInt 1; pre];
            trans := {| t_name := e_act act;
                        t_context := Some (e_params act);
                        t_parameters := None |};
            post_state := PList [PInt 2; post] |}) acts;
  Ok {| action := steps |}.

(** Lines 512-539. *)
Definition build_traces (node_map : gmap Z pyval) (edge_actions : gmap (Z * Z) json_edge)
    (covering_paths : list path) : result (list trace) :=
  traverse (build_trace node_map edge_actions) covering_paths.

(** ** The action translator *)

Definition is_none (v : pyval) : bool :=
  match v with PNone => true | _ => false end.

(** [v.replace(old, new)] on a JSON value. *)
Definition py_str_replace (v : pyval) (old new : string) : result string :=
  match v with
  | PStr s => Ok (replace old new s)
  | _ => Raise AttributeError
  end.

(** Lines 156-163: the transaction id and the status of the transaction in
    the post-state. *)
Definition txn_status (action_args post_state : pyval) : result (pyval * pyval) :=
  has_tid ← py_in "tid" action_args;
  if has_tid : bool then
    tid ← py_getkey action_args "tid";
    if is_none post_state then Ok (tid, PInt 0)
    else
      s ← py_getitem post_state (PInt 1);
      t ← py_getkey s "txnStatus";
      n ← py_getkey t "n";
      err_code ← py_getitem n tid;
      Ok (tid, err_code)
  else Ok (PStr "", PNone).

(** Lines 169-171. *)
Definition ignore_prepare_of (action_args : pyval) : result string :=
  has_ip ← py_in "ignorePrepare" action_args;
  if has_ip : bool then
    v ← py_getkey action_args "ignorePrepare";
    py_str_replace v q ""
  else Ok "false".

(** Lines 164-201: the call text [wt_action_name].  The source is a row of
    [if action_name == ...] statements on pairwise different constants, so
    at most one of them runs. *)
Definition wt_call_text (action_name : string) (action_args : pyval)
    (tid : pyval) (ignore_prepare : string) : result string :=
  let arg k := py_getkey action_args k in
  let txn_cursor := "self.cursors[" +:+ q +:+ py_str tid +:+ q +:+ "]" in
  let txn_session := "sess_" +:+ py_str tid in
  if String.eqb action_name "StartTransaction" then
    readTs ← arg "readTs";
    Ok ("self.begin_transaction(txn_session, " +:+ ignore_prepare +:+ "," +:+ py_str readTs
        +:+ "));" +:+ txn_cursor +:+ " = " +:+ txn_session +:+ ".open_cursor(self.uri, None)")
  else if String.eqb action_name "TransactionWrite" then
    k ← arg "k";
    v ← arg "v";
    Ok (txn_cursor +:+ ".set_key(" +:+ q +:+ py_str k +:+ q +:+ ");" +:+ txn_cursor
        +:+ ".set_value(" +:+ q +:+ py_str v +:+ q +:+ ");" +:+ txn_cursor +:+ ".insert()")
  else if String.eqb action_name "TransactionRead" then
    k ← arg "k";
    let search := txn_cursor +:+ ".set_key(" +:+ q +:+ py_str k +:+ q +:+ ");sret = "
                  +:+ txn_cursor +:+ ".search()" in
    v ← arg "v";
    if py_eq_str v "NoValue"
    then Ok (search +:+ ";self.assertEquals(sret, wiredtiger.WT_NOTFOUND)")
    else
      v' ← arg "v";
      Ok (search +:+ ";self.assertEquals(" +:+ txn_cursor +:+ ".get_value(), "
          +:+ q +:+ py_str v' +:+ q +:+ ")")
  else if String.eqb action_name "TransactionRemove" then
    k ← arg "k";
    Ok (txn_cursor +:+ ".set_key(" +:+ q +:+ py_str k +:+ q +:+ ");sret = "
        +:+ txn_cursor +:+ ".remove()")
  else if String.eqb action_name "PrepareTransaction" then
    prepareTs ← arg "prepareTs";
    Ok (txn_session +:+ ".prepare_transaction('prepare_timestamp=' + self.timestamp_str("
        +:+ py_str prepareTs +:+ "))")
  else if String.eqb action_name "CommitTransaction" then
    commitTs ← arg "commitTs";
    let args := "'commit_timestamp=' + self.timestamp_str(" +:+ py_str commitTs +:+ ")" in
    Ok (txn_session +:+ ".commit_transaction(" +:+ args +:+ ")")
  else if String.eqb action_name "CommitPreparedTransaction" then
    commitTs ← arg "commitTs";
    durableTs ← arg "durableTs";
    let args := "'commit_timestamp=' + self.timestamp_str(" +:+ py_str commitTs
                +:+ ") + ',durable_timestamp=' + self.timestamp_str(" +:+ py_str durableTs +:+ ")" in
    Ok (txn_session +:+ ".commit_transaction(" +:+ args +:+ ")")
  else if String.eqb action_name "AbortTransaction" then
    Ok (txn_session +:+ ".rollback_transaction()")
  else if String.eqb action_name "SetStableTimestamp" then
    ts ← arg "ts";
    Ok ("self.conn.set_timestamp('stable_timestamp='+self.timestamp_str(" +:+ py_str ts +:+ "))")
  else if String.eqb action_name "SetOldestTimestamp" then
    ts ← arg "ts";
    Ok ("self.conn.set_timestamp('oldest_timestamp='+self.timestamp_str(" +:+ py_str ts +:+ "))")
  else if String.eqb action_name "RollbackToStable" then
    Ok "self.conn.rollback_to_stable()"
  else Ok (replace "mdbtxn" "transaction_" (lower action_name)).

(** Lines 204-210. *)
Definition try_block (wt_action_name : string) : list string :=
  [ "res,sret = None,None";
    "try:";
    "    " +:+ wt_action_name;
    "except wiredtiger.WiredTigerError as e:";
    "    res = e" ].

(** Lines 211-226: the assertions on the outcome, and [res_expected]. *)
Definition result_assertions (action_name : string) (err_code : pyval) : list string * pyval :=
  if py_eq_str err_code "WT_ROLLBACK" then
    ([ "self.assertNotEqual(res, None)";
       "self.assertTrue(wiredtiger.wiredtiger_strerror(wiredtiger.WT_ROLLBACK) in str(res))" ],
     PInt 1)
  else if py_eq_str err_code "WT_NOTFOUND" then
    ([ "self.assertEqual(sret, wiredtiger.WT_NOTFOUND)" ], PNone)
  else if py_eq_str err_code "WT_PREPARE_CONFLICT" then
    ([ "self.assertTrue(wiredtiger.wiredtiger_strerror(wiredtiger.WT_PREPARE_CONFLICT) in str(res))" ],
     PNone)
  else
    ([ "self.assertEquals(res, None)" ]
       ++ (if String.eqb action_name "TransactionRemove" then [ "self.assertEquals(sret, 0)" ] else []),
     PNone).

(** A field of an f-string between double quotes. *)
Definition qtd (s : string) : string := q +:+ s +:+ q.

(** Lines 231-246: the compact form, which replaces [lines] for eight of the
    action names; [None] leaves [lines] as they are. *)
Definition compact_lines (action_name : string) (action_args : pyval) (tid : pyval)
    (ignore_prepare : string) (res_expected err_code : pyval) : result (option (list string)) :=
  let arg k := py_getkey action_args k in
  let txn_session := "sess_" +:+ py_str tid in
  let tail := py_str res_expected +:+ ", " +:+ qtd (py_str err_code) +:+ ")" in
  if String.eqb action_name "StartTransaction" then
    readTs ← arg "readTs";
    Ok (Some [ "self.begin_transaction(" +:+ qtd (py_str tid) +:+ ", " +:+ txn_session +:+ ", "
               +:+ py_str readTs +:+ ", " +:+ qtd ignore_prepare +:+ ", " +:+ tail ])
  else if String.eqb action_name "TransactionWrite" then
    k ← arg "k";
    Ok (Some [ "self.transaction_write(" +:+ qtd (py_str tid) +:+ ", " +:+ qtd (py_str k)
               +:+ ", " +:+ tail ])
  else if String.eqb action_name "TransactionRead" then
    k ← arg "k";
    v ← arg "v";
    Ok (Some [ "self.transaction_read(" +:+ qtd (py_str tid) +:+ ", " +:+ qtd (py_str k)
               +:+ ", " +:+ qtd (py_str v) +:+ ", " +:+ tail ])
  else if String.eqb action_name "TransactionRemove" then
    k ← arg "k";
    Ok (Some [ "self.transaction_remove(" +:+ qtd (py_str tid) +:+ ", " +:+ qtd (py_str k)
               +:+ ", " +:+ tail ])
  else if String.eqb action_name "CommitTransaction" then
    commitTs ← arg "commitTs";
    Ok (Some [ "self.commit_transaction(" +:+ txn_session +:+ ", " +:+ qtd (py_str tid) +:+ ", "
               +:+ py_str commitTs +:+ ", " +:+ tail ])
  else if String.eqb action_name "CommitPreparedTransaction" then
    commitTs ← arg "commitTs";
    durableTs ← arg "durableTs";
    Ok (Some [ "self.commit_prepared_transaction(" +:+ txn_session +:+ ", " +:+ py_str commitTs
               +:+ ", " +:+ py_str durableTs +:+ ", " +:+ tail ])
  else if String.eqb action_name "PrepareTransaction" then
    prepareTs ← arg "prepareTs";
    Ok (Some [ "self.prepare_transaction(" +:+ txn_session +:+ ", " +:+ py_str prepareTs
               +:+ ", " +:+ tail ])
  else if String.eqb action_name "AbortTransaction" then
    Ok (Some [ "self.abort_transaction(" +:+ txn_session +:+ ", " +:+ qtd (py_str tid)
               +:+ ", " +:+ tail ])
  else Ok None.

(** Lines 249-260: the timestamp check appended to [lines]. *)
Definition timestamp_lines (post_state : pyval) : result (list string) :=
  s ← py_getitem post_state (PInt 1);
  ad ← py_getkey s "allDurableTs";
  all_durable_ts ← py_getkey ad "n";
  s ← py_getitem post_state (PInt 1);
  sd ← py_getkey s "stableTs";
  stable_ts ← py_getkey sd "n";
  s ← py_getitem post_state (PInt 1);
  od ← py_getkey s "oldestTs";
  oldest_ts ← py_getkey od "n";
  stable_neg ← py_lt0 stable_ts;
  let stable_ts := if stable_neg : bool then PNone else stable_ts in
  oldest_neg ← py_lt0 oldest_ts;
  let oldest_ts := if oldest_neg : bool then PNone else oldest_ts in
  if negb (is_none stable_ts) || negb (py_eq_int all_durable_ts 0) || negb (is_none oldest_ts)
  then Ok [ "self.check_timestamps(all_durable=" +:+ py_str all_durable_ts +:+ ", stable_ts="
            +:+ py_str stable_ts +:+ ", oldest_ts=" +:+ py_str oldest_ts +:+ ")" ]
  else Ok [].

(** [make_wt_action(pre_state, action_name, action_args, post_state)] *)
Definition make_wt_action (pre_state : pyval) (action_name : string) (action_args : pyval)
    (post_state : pyval) : result (list string) :=
  '(tid, err_code) ← txn_status action_args post_state;
  ignore_prepare ← ignore_prepare_of action_args;
  wt_action_name ← wt_call_text action_name action_args tid ignore_prepare;
  let lines := try_block wt_action_name in
  let '(asserts, res_expected) := result_assertions action_name err_code in
  let lines := lines ++ asserts in
  compact ← compact_lines action_name action_args tid ignore_prepare res_expected err_code;
  let lines := match compact with Some l => l | None => lines end in
  ts ← timestamp_lines post_state;
  Ok (lines ++ ts).

(** ** The test emitter *)

(** [l[:n]] with Python's negative bound. *)
Definition py_slice_to {A} (l : list A) (n : Z) : list A :=
  if n <? 0 then take (Z.to_nat (len l + n)) l else take (Z.to_nat n) l.

Fixpoint repeat_str (s : string) (n : nat) : string :=
  match n with
  | O => ""
  | S n' => s +:+ repeat_str s n'
  end.

(** [tab = lambda n : "    " * n] *)
Definition tab (n : nat) : string := repeat_str "    " n.

Definition WT_TEST_FN_TEMPLATE : string :=
  nl +:+ "    def test_trace_1(self):" +:+ nl +:+ "        self.test_setup()" +:+ nl.

Definition default_max_len : Z := 1000.

(** The arguments [make_wt_action] gets for a step (lines 287-300). *)
Definition step_args (a : step) : pyval :=
  match t_context (trans a) with
  | Some ctx => PDict ctx
  | None => PList []
  end.

(** Line 300: the statements of one step. *)
Definition translate_step (a : step) : result (list string) :=
  make_wt_action (pre_state a) (t_name (trans a)) (step_args a) (post_state a).

(** Lines 282-300: the statements of the steps up to [max_len]. *)
Definition translate_actions (t : trace) (max_len : Z) : result (list (list string)) :=
  traverse translate_step (py_slice_to (action t) max_len).

(** Lines 314-335: the two comment labels of step [i] (0-based). *)
Definition action_labels_of (t : trace) (i : nat) : result (string * string) :=
  a ← py_index (action t) (Z.of_nat i);
  let action_name := t_name (trans a) in
  let action_ctx := match t_context (trans a) with Some ctx => ctx | None => [] end in
  post ← py_getitem (post_state a) (PInt 1);
  params ← traverse (λ p, v ← py_getkey (PDict action_ctx) p; Ok (p +:+ "=" +:+ py_str v))
                    (action_ctx.*1);
  let action_params_str := join ", " params in
  has_tid ← py_in "tid" (PDict action_ctx);
  txn_post_state ← (if has_tid : bool then
                      tid ← py_getkey (PDict action_ctx) "tid";
                      ts ← py_getkey post "txnStatus";
                      n ← py_getkey ts "n";
                      py_getitem n tid
                    else Ok PNone);
  let action_label := "# [Action " +:+ pretty (Z.of_nat i + 1) +:+ "]: " +:+ action_name
                      +:+ "(" +:+ action_params_str +:+ ") res:" +:+ py_str txn_post_state in
  post_keys ← match post with PDict d => Ok (d.*1) | _ => Raise AttributeError end;
  fields ← traverse (λ k, v ← py_getkey post k; Ok (tab 3 +:+ "# " +:+ k +:+ " = " +:+ py_str v))
                    post_keys;
  let post_state_label := nl +:+ join nl fields in
  Ok (tab 2 +:+ action_label,
      tab 2 +:+ action_label +:+ nl +:+ tab 2 +:+ post_state_label +:+ nl).

(** Lines 313-343: the second loop, over [enumerate(wt_actions)] from [i]. *)
Fixpoint label_loop (t : trace) (compact : bool) (i : nat) (wt_actions : list (list string))
    : result (list string * list string * list string) :=
  match wt_actions with
  | [] => Ok ([], [], [])
  | a :: rest =>
      '(label_only, label) ← action_labels_of t i;
      '(labels_only, labels, test_lines) ← label_loop t compact (S i) rest;
      let mine := (λ l, tab 2 +:+ l +:+ nl) <$> a in
      if compact
      then Ok (labels_only, labels, mine ++ test_lines)
      else Ok (label_only :: labels_only, label :: labels, mine ++ test_lines)
  end.

Definition concat_str (l : list string) : string := join "" l.

(** Lines 280-353: the text written for trace number [i]. *)
Definition gen_test_fn (i : nat) (t : trace) (max_len : Z) (compact : bool) : result string :=
  wt_actions ← translate_actions t max_len;
  let txns := [ "t1"; "t2"; "t3" ] in
  let head := replace "test_trace_1" ("test_trace_" +:+ pretty (Z.of_nat i)) WT_TEST_FN_TEMPLATE
              +:+ tab 2
              +:+ join ";" ((λ t, "sess_" +:+ t +:+ " = self.conn.open_session()") <$> txns)
              +:+ nl in
  '(action_labels_only, action_labels, test_lines) ← label_loop t compact 0 wt_actions;
  let labels := if compact then ""
                else join nl action_labels_only +:+ nl +:+ nl
                     +:+ join nl action_labels +:+ nl +:+ nl +:+ nl in
  Ok (head +:+ nl +:+ labels +:+ concat_str test_lines +:+ nl
      +:+ tab 2 +:+ "self.debug_info()" +:+ nl
      +:+ tab 2 +:+ "[self.cursors[c].close() for c in self.cursors]" +:+ nl).

Section Emitter.
(** The contents of [test_txn_model_template.py], read at import. *)
Variable WT_TEST_TEMPLATE : string.
(** [str] of the float [cvg_pct]. *)
Variable str_float : Q → string.

Fixpoint gen_test_fns (i : nat) (traces : list trace) (max_len : Z) (compact : bool)
    : result string :=
  match traces with
  | [] => Ok ""
  | t :: rest =>
      s ← gen_test_fn i t max_len compact;
      ss ← gen_test_fns (S i) rest max_len compact;
      Ok (s +:+ ss)
  end.

(** [gen_wt_test_from_traces(traces, fname, max_len, compact, cvg_pct)]:
    the text written to [fname] when no statement raises. *)
Definition gen_wt_test_from_traces (traces : list trace) (max_len : Z) (compact : bool)
    (cvg_pct : Q) : result string :=
  let header := "#" +:+ nl
                +:+ "# coverage_pct = " +:+ str_float cvg_pct +:+ nl
                +:+ "# " +:+ pretty (len traces) +:+ " traces" +:+ nl
                +:+ "#" +:+ nl
                +:+ nl
                +:+ WT_TEST_TEMPLATE in
  body ← gen_test_fns 0 traces max_len compact;
  Ok (header +:+ body).
End Emitter.

(** ** Notions used in the statements *)

(** The union of the nodes of a list of paths. *)
Definition nodes_of (paths : list path) : gset Z := ⋃ (list_to_set <$> paths).

(** The count of line 120 after the paths [paths] have been accepted:
    [len(target_nodes_to_cover) - len(uncovered_target_nodes)]. *)
Definition num_covered (targets : list Z) (paths : list path) : Z :=
  len targets - Z.of_nat (size (list_to_set targets ∖ nodes_of paths : gset Z)).

(** The covered fraction of the target set, as an exact number. *)
Definition covered_fraction (targets : list Z) (paths : list path) : Q :=
  (inject_Z (num_covered targets paths) / inject_Z (len targets))%Q.

(** The order of line 100 on two candidate paths: [p] comes no later than
    [q] when it is longer, or as long with a hash at least as large. *)
Definition considered_before (hash : list Z → Z) (p q : path) : Prop :=
  (length q < length p)%nat ∨ (length p = length q ∧ hash q ≤ hash p).

(** The candidate paths in the order of the keys [ks]. *)
Definition paths_of (spaths : path_dict) (ks : list Z) : list path :=
  omap (λ k, dict_lookup k spaths) ks.

(** Decorated items in descending key order. *)
Definition key_ge {A} (x y : A * sort_key) : Prop := key_lt x.2 y.2 = false.

(** The test of line 128 once the paths [paths] have been accepted. *)
Definition threshold_reached (targets : list Z) (cvg_pct : Q) (paths : list path) : bool :=
  int_ge_float (num_covered targets paths) (float_mul cvg_pct (float_of_int (len targets))).

(** The covered fraction as line 121 computes it: the float
    [num_target_nodes_covered / len(target_nodes_to_cover)]. *)
Definition pct_target_covered (targets : list Z) (paths : list path) : Q :=
  float_div (inject_Z (num_covered targets paths)) (inject_Z (len targets)).

(** The walk over the candidate paths as the specification words it, from
    the paths [acc] accepted so far: a candidate that holds no target node
    outside the accepted paths is skipped; any other candidate is accepted,
    and the walk stops there when the test of line 128 holds.
    [greedy_walk targets cvg_pct acc cands paths]: the walk over [cands]
    from [acc] ends with the accepted paths [paths]. *)
Inductive greedy_walk (targets : list Z) (cvg_pct : Q)
    : list path → list path → list path → Prop :=
  | walk_end acc : greedy_walk targets cvg_pct acc [] acc
  | walk_skip acc c cands paths :
      (∀ t, t ∈ targets → t ∈ c → t ∈ nodes_of acc) →
      greedy_walk targets cvg_pct acc cands paths →
      greedy_walk targets cvg_pct acc (c :: cands) paths
  | walk_stop acc c cands :
      (∃ t, t ∈ targets ∧ t ∈ c ∧ t ∉ nodes_of acc) →
      threshold_reached targets cvg_pct (acc ++ [c]) = true →
      greedy_walk targets cvg_pct acc (c :: cands) (acc ++ [c])
  | walk_accept acc c cands paths :
      (∃ t, t ∈ targets ∧ t ∈ c ∧ t ∉ nodes_of acc) →
      threshold_reached targets cvg_pct (acc ++ [c]) = false →
      greedy_walk targets cvg_pct (acc ++ [c]) cands paths →
      greedy_walk targets cvg_pct acc (c :: cands) paths.

(** The loop invariant of lines 109-129: the uncovered set is the target set
    minus the nodes of the accepted paths. *)
Definition cover_inv (targets : list Z) (st : cover_state) : Prop :=
  uncovered_target_nodes st = list_to_set targets ∖ nodes_of (covering_paths st).

(** A key of the dict with its sort key. *)
Definition decorate (hash : list Z → Z) (spaths : path_dict) (x : Z) : Z * sort_key :=
  (x, match dict_lookup x spaths with
      | Some p => (length p, hash p)
      | None => (0%nat, 0)
      end).

(** ** Example data *)

(** A hash for the examples (no example depends on its values). *)
Definition hash0 (p : list Z) : Z := foldr (λ x acc, x + 31 * acc) 7 p.

(** The graph with the single edge 1 -> 2, its arborescence (itself), the
    topological order and the paths from the root 1. *)
Definition G12 : DiGraph := add_edge 1 2 empty_graph.
Definition spaths12 : path_dict := [(1, [1]); (2, [1; 2])].
Definition nx12 : Networkx := nx_table (Ok G12) [1; 2] spaths12.

(** The scenario of the specification: A -> B, B -> C, B -> D with the nodes
    numbered 1 to 4; the graph is its own arborescence. *)
Definition G_abcd : DiGraph := add_edge 2 4 (add_edge 2 3 (add_edge 1 2 empty_graph)).
Definition spaths_abcd : path_dict :=
  [(1, [1]); (2, [1; 2]); (3, [1; 2; 3]); (4, [1; 2; 4])].
Definition nx_abcd : Networkx := nx_table (Ok G_abcd) [1; 2; 3; 4] spaths_abcd.

(** The star with the root 0 and the leaves 1 to [n]: it is its own
    arborescence, and the path from the root to the leaf [i] is [0; i]. *)
Definition star_leaves (n : nat) : list Z := Z.of_nat <$> seq 1 n.
Definition G_star (n : nat) : DiGraph :=
  foldl (λ G i, add_edge 0 i G) empty_graph (star_leaves n).
Definition spaths_star (n : nat) : path_dict :=
  (0, [0]) :: ((λ i, (i, [0; i])) <$> star_leaves n).
Definition nx_star (n : nat) : Networkx :=
  nx_table (Ok (G_star n)) (0 :: star_leaves n) (spaths_star n).

(** The graph of the single node 1 (no edge): it is its own arborescence. *)
Definition G_single : DiGraph := add_node 1 empty_graph.
Definition nx_single : Networkx := nx_table (Ok G_single) [1] [(1, [1])].

(** networkx on the graph without nodes: the arborescence test raises. *)
Definition nx_pointless : Networkx :=
  nx_table (Raise (NetworkX NetworkXPointlessConcept)) [] [].

(** ** Arborescences and topological orders (the contract of networkx) *)

Definition has_inbound (T : DiGraph) (n : Z) : Prop := ∃ u, (u, n) ∈ edges T.

(** [order] lists the nodes of [T], every edge going from an earlier to a
    later node. *)
Definition is_topological_order (T : DiGraph) (order : list Z) : Prop :=
  order ≡ₚ nodes T ∧
  ∀ i j u v, order !! i = Some u → order !! j = Some v → (u, v) ∈ edges T → (i < j)%nat.

(** What is used of an arborescence: a graph on its own nodes with at most
    one inbound edge per node and one edge fewer than nodes. *)
Definition is_arborescence (T : DiGraph) : Prop :=
  NoDup (nodes T) ∧ NoDup (edges T) ∧
  (∀ u v, (u, v) ∈ edges T → u ∈ nodes T ∧ v ∈ nodes T) ∧
  (∀ u u' v, (u, v) ∈ edges T → (u', v) ∈ edges T → u = u') ∧
  length (nodes T) = S (length (edges T)).

(** The graph 1 -> 3, 2 -> 3 has two nodes without inbound edge and no
    spanning arborescence: networkx raises. *)
Definition G_two_sources : DiGraph := add_edge 2 3 (add_edge 1 3 empty_graph).
Definition nx_no_arborescence : Networkx :=
  nx_table (Raise (NetworkX NetworkXException)) [] [].

(** ** Notions used in the statements about the translator *)

(** The eleven action names [make_wt_action] has a case for. *)
Definition action_kinds : list string :=
  [ "StartTransaction"; "TransactionWrite"; "TransactionRead"; "TransactionRemove";
    "PrepareTransaction"; "CommitTransaction"; "CommitPreparedTransaction";
    "AbortTransaction"; "SetStableTimestamp"; "SetOldestTimestamp"; "RollbackToStable" ].

(** What a statement asserts about the outcome of a read. *)
Inductive read_assertion :=
  | AssertNotFound
  | AssertValueEquals (v : string).

(** Modelled from the spec: the helper
    [transaction_read(tid, k, v, res_expected, err_code)] of
    test_txn_model_template.py, which is not under src/; the translator only
    emits calls of it (line 236).  The specification gives the translation
    of a read as "NoValue => not-found assertion, else value-equality
    assertion": called with the value [v], the helper asserts a not-found
    result when [v] is [NoValue], and that the value read equals [v]
    otherwise. *)
Definition transaction_read (tid k v : string) (res_expected : pyval) (err_code : string)
    : read_assertion :=
  if String.eqb v "NoValue" then AssertNotFound else AssertValueEquals v.

(** The cursor of a transaction and the search part of a read (line 178). *)
Definition txn_cursor_of (tid : pyval) : string :=
  "self.cursors[" +:+ q +:+ py_str tid +:+ q +:+ "]".

Definition read_search_text (tid k : pyval) : string :=
  txn_cursor_of tid +:+ ".set_key(" +:+ q +:+ py_str k +:+ q +:+ ");sret = "
  +:+ txn_cursor_of tid +:+ ".search()".

(** The compact statement of a read (line 236). *)
Definition read_compact_line (tid k v res_expected err_code : pyval) : string :=
  "self.transaction_read(" +:+ qtd (py_str tid) +:+ ", " +:+ qtd (py_str k)
  +:+ ", " +:+ qtd (py_str v) +:+ ", " +:+ py_str res_expected +:+ ", "
  +:+ qtd (py_str err_code) +:+ ")".

(** A state snapshot with the status of transaction [t1] and the three
    timestamps, and the post-state [[2, snapshot]] built from it. *)
Definition example_snapshot (status : pyval) (all_durable stable oldest : Z) : pyval :=
  PDict [ ("txnStatus", PDict [ ("n", PDict [ ("t1", status); ("t2", PInt 0) ]) ]);
          ("allDurableTs", PDict [ ("n", PInt all_durable) ]);
          ("stableTs", PDict [ ("n", PInt stable) ]);
          ("oldestTs", PDict [ ("n", PInt oldest) ]) ].

Definition example_post (status : pyval) : pyval :=
  PList [ PInt 2; example_snapshot status 0 (-1) (-1) ].

Definition read_args (v : string) : pyval :=
  PDict [ ("tid", PStr "t1"); ("k", PStr "k1"); ("v", PStr v) ].

(** ** Notions used in the statements about the loader, traces and the emitter *)

(** Every entry of the edge-label dict sits under its own endpoints. *)
Definition edge_actions_consistent (edge_actions : gmap (Z * Z) json_edge) : Prop :=
  ∀ f t e, edge_actions !! (f, t) = Some e → e_from e = f ∧ e_to e = t.

(** Structural equality of JSON values. *)
Fixpoint pyval_eqb (a b : pyval) : bool :=
  match a, b with
  | PNone, PNone => true
  | PBool x, PBool y => Bool.eqb x y
  | PInt x, PInt y => x =? y
  | PStr x, PStr y => String.eqb x y
  | PList l1, PList l2 =>
      (fix go (l1 l2 : list pyval) : bool :=
         match l1, l2 with
         | [], [] => true
         | x :: l1', y :: l2' => pyval_eqb x y && go l1' l2'
         | _, _ => false
         end) l1 l2
  | PDict d1, PDict d2 =>
      (fix go (d1 d2 : list (string * pyval)) : bool :=
         match d1, d2 with
         | [], [] => true
         | (k1, x) :: d1', (k2, y) :: d2' => String.eqb k1 k2 && pyval_eqb x y && go d1' d2'
         | _, _ => false
         end) d1 d2
  | _, _ => false
  end.

(** The induction principle of JSON values, through the lists. *)
Section pyval_nested_ind.
Variable P : pyval → Prop.
Hypothesis HNone : P PNone.
Hypothesis HBool : ∀ b, P (PBool b).
Hypothesis HInt : ∀ z, P (PInt z).
Hypothesis HStr : ∀ s, P (PStr s).
Hypothesis HList : ∀ l, Forall P l → P (PList l).
Hypothesis HDict : ∀ d, Forall (λ kv, P kv.2) d → P (PDict d).

Fixpoint pyval_nested_ind (v : pyval) : P v :=
  match v with
  | PNone => HNone
  | PBool b => HBool b
  | PInt z => HInt z
  | PStr s => HStr s
  | PList l =>
      HList l ((fix go (l : list pyval) : Forall P l :=
                  match l with
                  | [] => List.Forall_nil P
                  | x :: l' => @List.Forall_cons _ P x l' (pyval_nested_ind x) (go l')
                  end) l)
  | PDict d =>
      HDict d ((fix go (d : list (string * pyval)) : Forall (λ kv, P kv.2) d :=
                  match d with
                  | [] => List.Forall_nil _
                  | kv :: d' => @List.Forall_cons _ _ kv d' (pyval_nested_ind kv.2) (go d')
                  end) d)
  end.
End pyval_nested_ind.

(** Modelled from the spec: the source has no function that reads the nodes
    back from a trace.  A state [[i, snapshot]] of a trace is the state of the
    node whose snapshot it carries, and the node sequence of a trace is the
    node of the first pre-state followed by the nodes of the post-states. *)
Definition node_of_state (node_map : gmap Z pyval) (st : pyval) : option Z :=
  match st with
  | PList [_; snapshot] =>
      fst <$> List.find (λ kv, pyval_eqb kv.2 snapshot) (map_to_list node_map)
  | _ => None
  end.

Definition trace_nodes (node_map : gmap Z pyval) (t : trace) : option path :=
  match action t with
  | [] => None
  | a :: _ =>
      first ← node_of_state node_map (pre_state a);
      rest ← mapM (λ a, node_of_state node_map (post_state a)) (action t);
      Some (first :: rest)
  end.

(** A trace cut down to its first [n] steps. *)
Definition truncate_trace (n : nat) (t : trace) : trace := {| action := take n (action t) |}.

(** The edge 1 -> 2 labelled with an abort, and the two documents of the
    graph made of it. *)
Definition edge12 : json_edge :=
  {| e_from := 1; e_to := 2; e_act := "AbortTransaction"; e_params := [ ("tid", PStr "t1") ] |}.

Definition states12 : list json_state :=
  [ {| s_fp := 1; s_val := example_snapshot (PStr "OK") 0 (-1) (-1) |};
    {| s_fp := 2; s_val := example_snapshot (PStr "OK") 1 (-1) (-1) |} ].

Definition node_map12 : gmap Z pyval :=
  <[2 := example_snapshot (PStr "OK") 1 (-1) (-1)]>
    (<[1 := example_snapshot (PStr "OK") 0 (-1) (-1)]> ∅).

Definition edge_actions12 : gmap (Z * Z) json_edge := <[(1, 2) := edge12]> ∅.

(** A trace of two steps. *)
Definition example_step (name : string) (ctx : list (string * pyval)) : step :=
  {| pre_state := PList [ PInt 1; example_snapshot (PStr "OK") 0 (-1) (-1) ];
     trans := {| t_name := name; t_context := Some ctx; t_parameters := None |};
     post_state := example_post (PStr "OK") |}.

Definition example_trace : trace :=
  {| action := [ example_step "StartTransaction" [ ("tid", PStr "t1"); ("readTs", PInt 1) ];
                 example_step "AbortTransaction" [ ("tid", PStr "t1") ] ] |}.

(** ** Chunks, the mean and the main script *)

(** A slice bound as Python clamps it for a sequence of length [n]. *)
Definition py_norm_index (n x : Z) : Z :=
  if x <? 0 then Z.max 0 (x + n) else Z.min x n.

(** [l[s:e]] *)
Definition py_slice {A} (l : list A) (s e : Z) : list A :=
  let s' := py_norm_index (len l) s in
  let e' := py_norm_index (len l) e in
  take (Z.to_nat (e' - s')) (drop (Z.to_nat s') l).

(** The start of chunk [i] in [split]: [i*k + min(i, m)]. *)
Definition chunk_start (k m i : Z) : Z := i * k + Z.min i m.

(** [split(a, n)], the generator consumed: [divmod] runs at the call,
    the slices for [i] in [range(n)]. *)
Definition split {A} (a : list A) (n : Z) : result (list (list A)) :=
  if n =? 0 then Raise ZeroDivisionError
  else
    let k := len a / n in
    let m := len a mod n in
    Ok ((λ i, py_slice a (chunk_start k m i) (chunk_start k m (i + 1))) <$> seqZ 0 n).

(** [mean(l)]: [sum(l) / len(l)]. *)
Definition mean (l : list Z) : result Q :=
  py_truediv (foldr Z.add 0 l) (len l).

(** An insertion-ordered dict with string keys and values. *)
Definition sdict : Type := list (string * string).

(** [d[k] = v]: the value is replaced in place, a new key goes last. *)
Fixpoint sdict_set (k v : string) (d : sdict) : sdict :=
  match d with
  | [] => [(k, v)]
  | (k', v') :: d' => if String.eqb k k' then (k, v) :: d' else (k', v') :: sdict_set k v d'
  end.

(** Lines 446-450: the constant overrides of the command line, read two by
    two ([k = args.constants[i]], [v = args.constants[i+1]]). *)
Fixpoint parse_constants (args : list string) (constants : sdict) : result sdict :=
  match args with
  | [] => Ok constants
  | [k] => Raise IndexError
  | k :: v :: rest => parse_constants rest (sdict_set k v constants)
  end.

(** [enumerate] with a body that can raise. *)
Fixpoint traverse_i {A B} (f : nat → A → result B) (i : nat) (l : list A) : result (list B) :=
  match l with
  | [] => Ok []
  | x :: l' => y ← f i x; ys ← traverse_i f (S i) l'; Ok (y :: ys)
  end.

Section Main.
Context `{nx : Networkx}.
Variable hash : list Z → Z.
Variable WT_TEST_TEMPLATE : string.
Variable str_float : Q → string.

(** Lines 500-547 of the main script: from the parsed graphs to the test
    files, as pairs of a file name and its text.  [target_nodes] stands for
    [set(node_map_symm.keys())]. *)
Definition main_generate_tests (G : DiGraph) (node_map : gmap Z pyval)
    (edge_actions : gmap (Z * Z) json_edge) (target_nodes : list Z) (cvg_pct : Q)
    (compact : bool) (parallel_test_split : Z) : result (list (string * string)) :=
  covering_paths ← compute_path_coverings hash G target_nodes cvg_pct;
  _ ← mean (len <$> covering_paths);
  traces ← build_traces node_map edge_actions covering_paths;
  trace_chunks ← split traces parallel_test_split;
  traverse_i (λ i chunk,
      text ← gen_wt_test_from_traces WT_TEST_TEMPLATE str_float chunk default_max_len
               compact cvg_pct;
      Ok ("model_tests/model_tests_" +:+ pretty (Z.of_nat i + 1) +:+ ".py", text))
    0 trace_chunks.
End Main.

(** The files of a run of the main script on the graph 1 -> 2 with the
    target node 2, split in two. *)
Definition example_files : list (string * string) :=
  match main_generate_tests (nx:=nx12) hash0 "" (λ _, "1.0") G12 node_map12 edge_actions12
          [2] 1 true 2 with
  | Ok files => files
  | Raise _ => []
  end.

(** One edge of a covering path to its step: the label lookup of line 523
    followed by lines 529-538. *)
Definition step_of_label (node_map : gmap Z pyval) (act : json_edge) : result step :=
  pre ← map_get node_map (e_from act);
  post ← map_get node_map (e_to act);
  Ok {| pre_state := PList [PInt 1; pre];
        trans := {| t_name := e_act act;
                    t_context := Some (e_params act);
                    t_parameters := None |};
        post_state := PList [PInt 2; post] |}.

Definition edge_step (node_map : gmap Z pyval) (edge_actions : gmap (Z * Z) json_edge)
    (e : Z * Z) : result step :=
  act ← map_get edge_actions e;
  step_of_label node_map act.

(** The graph 1 -> 2 -> 3 as the loader returns it, and the trace of its
    path. *)
Definition edge23 : json_edge :=
  {| e_from := 2; e_to := 3; e_act := "RollbackToStable"; e_params := [] |}.

Definition states123 : list json_state :=
  states12 ++ [ {| s_fp := 3; s_val := example_snapshot (PStr "OK") 2 (-1) (-1) |} ].

Definition node_map123 : gmap Z pyval :=
  match parse_json_state_graph [edge12; edge23] states123 with
  | Ok (_, node_map, _) => node_map
  | Raise _ => ∅
  end.

Definition edge_actions123 : gmap (Z * Z) json_edge :=
  match parse_json_state_graph [edge12; edge23] states123 with
  | Ok (_, _, edge_actions) => edge_actions
  | Raise _ => ∅
  end.

Definition example_trace123 : trace :=
  match build_trace node_map123 edge_actions123 [1; 2; 3] with
  | Ok t => t
  | Raise _ => {| action := [] |}
  end.

(** ** The TLC configuration files and the schedules (permissiveness.py) *)

(** [for c in constants: d[c] = constants[c]]: a dict gives each key once,
    with its value. *)
Definition sdict_update (d constants : sdict) : sdict :=
  foldl (λ d '(c, v), sdict_set c v d) d constants.

(** Lines 366-370 and 373-394 of testgen.py. *)
Definition disabled_actions : list string :=
  [ "SetOldestTimestamp"; "SetStableTimestamp"; "RollbackToStable" ].

Definition default_constants : sdict :=
  [ ("RC", qtd "snapshot");
    ("WC", qtd "majority");
    ("Nil", "Nil");
    ("Keys", "{k1,k2}");
    ("MTxId", "{t1,t2}");
    ("Node", "{n}");
    ("NoValue", "NoValue");
    ("MaxOpsPerTxn", "2");
    ("Timestamps", "{1,2,3}");
    ("IgnorePrepareOptions", "{" +:+ qtd "false" +:+ "," +:+ qtd "true" +:+ "," +:+ qtd "force" +:+ "}") ].

Record tlc_config := {
  cfg_init : string;
  cfg_next : string;
  cfg_symmetry : option string;
  cfg_constants : sdict;
  cfg_overrides : sdict
}.

(** Lines 373-402: the config of [gen_tla_json_graph]; it has no
    ["constraint"] entry. *)
Definition gen_tla_json_graph_config (constants : sdict) (symmetry : bool) : tlc_config :=
  {| cfg_init := "Init";
     cfg_next := "Next";
     cfg_symmetry := if symmetry then Some "Symmetry" else None;
     cfg_constants := sdict_update default_constants constants;
     cfg_overrides :=
       foldl (λ d a, sdict_set a "FALSE" d)
             [ ("SetStableTimestamp", "FALSE"); ("RollbackToStable", "FALSE") ]
             disabled_actions |}.

(** Lines 406-418: the strings written to the [.cfg] file, one per [write]. *)
Definition config_writes (config : tlc_config) : list string :=
  [ "INIT " +:+ cfg_init config +:+ nl; "NEXT " +:+ cfg_next config +:+ nl ]
  ++ ((λ '(k, v), "CONSTANT " +:+ k +:+ " = " +:+ v +:+ nl) <$> cfg_constants config)
  ++ ((λ '(k, v), k +:+ " <- " +:+ v +:+ nl) <$> cfg_overrides config)
  ++ match cfg_symmetry config with
     | Some s => [ "SYMMETRY " +:+ s +:+ nl ]
     | None => []
     end.

Definition gen_tla_json_graph_writes (constants : sdict) (symmetry : bool) : list string :=
  config_writes (gen_tla_json_graph_config constants symmetry).

(** Lines 5-22 of permissiveness.py. *)
Definition base_constants : sdict :=
  [ ("RC", qtd "snapshot");
    ("IgnorePrepareBlocking", qtd "false");
    ("IgnoreWriteConflicts", qtd "false");
    ("Keys", "{k1,k2}");
    ("TxId", "{t1,t2}");
    ("NoValue", "NoValue");
    ("Shard", "{s1,s2}");
    ("Router", "{r1}");
    ("MaxOpsPerTxn", "2");
    ("Timestamps", "{1,2,3}") ].

(** Lines 31-42 of permissiveness.py: the strings [compute_permissiveness]
    writes to its [.cfg] file. *)
Definition compute_permissiveness_writes (constant_overrides : sdict) : list string :=
  [ "INIT " +:+ "InitCatalogConstraintKeysOnDifferentShards" +:+ nl;
    "NEXT " +:+ "Next" +:+ nl;
    "CONSTRAINT " +:+ "StateConstraint" +:+ nl;
    "SYMMETRY " +:+ "Symmetry" +:+ nl;
    "CONSTANTS" +:+ nl ]
  ++ ((λ '(c, v),
        match assoc c constant_overrides with
        | Some o => c +:+ " = " +:+ o +:+ nl
        | None => c +:+ " = " +:+ v +:+ nl
        end) <$> base_constants).

(** [s.split(sep)] for a separator of one character. *)
Fixpoint str_split (sep : ascii) (s : string) : list string :=
  match s with
  | EmptyString => [ EmptyString ]
  | String c s' =>
      if Ascii.eqb c sep then EmptyString :: str_split sep s'
      else match str_split sep s' with
           | f :: fs => String c f :: fs
           | [] => [ String c EmptyString ]
           end
  end.

Definition dollar : ascii := Eval cbv in ascii_of_nat 36.

(** Lines 52-59 of permissiveness.py: the fingerprints of the log lines. *)
Fixpoint read_fingerprints (lines : list string) (uniq_fps : sdict) : result sdict :=
  match lines with
  | [] => Ok uniq_fps
  | line :: rest =>
      let elems := str_split dollar line in
      fp ← py_index elems 1;
      v ← py_index elems 2;
      read_fingerprints rest (sdict_set fp v uniq_fps)
  end.

(** Lines 61-62 of permissiveness.py. *)
Definition dict_keys (d : sdict) : gset string := list_to_set d.*1.

Definition strict_subset_ordered (a b : sdict) : bool :=
  bool_decide (dict_keys a ⊆ dict_keys b) && negb (bool_decide (dict_keys b ⊆ dict_keys a)).

(** ** Notions used in the statements about the configuration files *)

(** The pairs of a command line read two by two. *)
Fixpoint pairs_of (args : list string) : list (string * string) :=
  match args with
  | k :: v :: rest => (k, v) :: pairs_of rest
  | _ => []
  end.

(** The value a constant gets: the one passed, else the default. *)
Definition constant_value (constants : sdict) (k : string) : string :=
  match assoc k constants with
  | Some v => v
  | None => default "" (assoc k default_constants)
  end.

(** The number of occurrences of a character. *)
Fixpoint count_char (c : ascii) (s : string) : nat :=
  match s with
  | EmptyString => 0
  | String c' s' => (if Ascii.eqb c' c then 1 else 0) + count_char c s'
  end.

(** The second and the third field of each line that has them. *)
Definition entries_of (lines : list string) : list (string * string) :=
  omap (λ line, match str_split dollar line with
                | _ :: fp :: v :: _ => Some (fp, v)
                | _ => None
                end) lines.

Definition fingerprints_of (lines : list string) : list string := (entries_of lines).*1.

(** ** Notions used in the further statements about the translator *)


(** The action names with a compact form (lines 231-246). *)
Definition compact_kinds : list string :=
  [ "StartTransaction"; "TransactionWrite"; "TransactionRead"; "TransactionRemove";
    "CommitTransaction"; "CommitPreparedTransaction"; "PrepareTransaction";
    "AbortTransaction" ].

(** [snapshot[field]["n"]] *)
Definition snapshot_field (snapshot : pyval) (field : string) : result pyval :=
  d ← py_getkey snapshot field;
  py_getkey d "n".

(** A timestamp as the check of line 260 prints it: [None] when negative. *)
Definition ts_or_none (z : Z) : pyval := if z <? 0 then PNone else PInt z.

(** ** Notions used in the further statements about the emitter *)

(** The opening of test function number [i] (lines 303-309), its closing
    (lines 351-353), and the statements of the translated steps as line 342
    writes them. *)
Definition test_fn_head (i : nat) : string :=
  replace "test_trace_1" ("test_trace_" +:+ pretty (Z.of_nat i)) WT_TEST_FN_TEMPLATE
  +:+ tab 2
  +:+ join ";" ((λ t, "sess_" +:+ t +:+ " = self.conn.open_session()") <$> [ "t1"; "t2"; "t3" ])
  +:+ nl.

Definition test_fn_foot : string :=
  nl +:+ tab 2 +:+ "self.debug_info()" +:+ nl
  +:+ tab 2 +:+ "[self.cursors[c].close() for c in self.cursors]" +:+ nl.

Definition indented_statements (wt_actions : list (list string)) : list string :=
  (λ l, tab 2 +:+ l +:+ nl) <$> concat wt_actions.

(** The text the emitter writes before the test functions (lines 270-275):
    the comment with the coverage and the number of traces, then the
    template. *)
Definition file_header (WT_TEST_TEMPLATE cvg : string) (ntraces : Z) : string :=
  "#" +:+ nl
  +:+ "# coverage_pct = " +:+ cvg +:+ nl
  +:+ "# " +:+ pretty ntraces +:+ " traces" +:+ nl
  +:+ "#" +:+ nl
  +:+ nl
  +:+ WT_TEST_TEMPLATE.

(** [fn] is the text of test function number [i] for the steps [steps] and
    for no other step: every step of [steps] is translated by
    [make_wt_action], and the statements it returns stand in [fn], in the
    order of the steps, each on a line of its own behind eight spaces,
    between the opening of the function with the comment labels (none when
    [compact] is set) and its closing. *)
Definition test_fn_of_steps (i : nat) (compact : bool) (steps : list step) (fn : string) : Prop :=
  ∃ wt_actions labels,
    Forall2 (λ a lines,
               make_wt_action (pre_state a) (t_name (trans a)) (step_args a) (post_state a)
               = Ok lines) steps wt_actions ∧
    (compact = true → labels = "") ∧
    fn = test_fn_head i +:+ nl +:+ labels +:+ concat_str (indented_statements wt_actions)
         +:+ test_fn_foot.

(** The file written for the example trace with [max_len = 1]. *)
Definition example_out : string :=
  match gen_wt_test_from_traces "" (λ _, "1.0") [example_trace] 1 true 1 with
  | Ok out => out
  | Raise _ => ""
  end.

(** * Proofs *)
(** ** Facts about the error monad *)

Lemma traverse_ok {A B} (f : A → result B) (g : A → B) (l : list A) :
  (∀ x, x ∈ l → f x = Ok (g x)) → traverse f l = Ok (g <$> l).
Proof.
  induction l as [|x l IH]; intros Hf; simpl; [done|].
  rewrite (Hf x) by left. simpl.
  rewrite IH; [done|]. intros y Hy. apply Hf. by right.
Qed.

Lemma traverse_length {A B} (f : A → result B) (l : list A) (r : list B) :
  traverse f l = Ok r → length r = length l.
Proof.
  revert r. induction l as [|x l IH]; intros r; simpl.
  - by intros [= <-].
  - destruct (f x) as [y|]; simpl; [|done].
    destruct (traverse f l) as [ys|]; simpl; [|done].
    intros [= <-]. simpl. f_equal. by apply IH.
Qed.

Lemma no_such_exception {A} (r : result A) (name : string) :
  (∀ e, exn_name e ≠ name) → ¬ raises r name.
Proof. intros Hname (e & _ & He). by apply (Hname e). Qed.

(** ** Facts about floats *)

Lemma rne_div_exact (k b : Z) : 0 < b → rne_div (k * b) b = k.
Proof.
  intros Hb. unfold rne_div. rewrite Z.div_mul, Z.mod_mul by lia. simpl.
  destruct b; lia || done.
Qed.

Lemma rne_div_le (a b K : Z) : 0 < b → a ≤ K * b → rne_div a b ≤ K.
Proof.
  intros Hb Ha. unfold rne_div.
  pose proof (Z.div_mod a b ltac:(lia)) as Hdm.
  pose proof (Z.mod_pos_bound a b Hb) as Hr.
  assert (Hq : a / b ≤ K) by (apply Z.div_le_upper_bound; lia).
  assert (Hq' : a / b = K → a mod b = 0) by nia.
  destruct (Z.compare_spec (2 * (a mod b)) b) as [Heq|Hlt|Hgt]; [|lia|].
  - destruct (Z.even (a / b)); [lia|]. destruct (Z.eq_dec (a / b) K); [|lia].
    specialize (Hq' ltac:(done)). lia.
  - destruct (Z.eq_dec (a / b) K); [|lia]. specialize (Hq' ltac:(done)). lia.
Qed.

Lemma ilog2_lower (n d : Z) :
  0 < n → 0 < d →
  if 0 <=? ilog2 n d then d * 2 ^ ilog2 n d ≤ n else d ≤ n * 2 ^ (- ilog2 n d).
Proof.
  intros Hn Hd. unfold ilog2.
  set (k := Z.log2 n - Z.log2 d).
  pose proof (Z.log2_spec n Hn) as [Hn1 Hn2].
  pose proof (Z.log2_spec d Hd) as [Hd1 Hd2].
  pose proof (Z.log2_nonneg n) as Hln. pose proof (Z.log2_nonneg d) as Hld.
  destruct (Z.leb_spec 0 k) as [Hk|Hk].
  - destruct (Z.leb_spec (d * 2 ^ k) n) as [Ht|Ht].
    + destruct (Z.leb_spec 0 k); [done|lia].
    + destruct (Z.leb_spec 0 (k - 1)) as [Hk1|Hk1].
      * (* d * 2^(k-1) < 2^(ld+1) * 2^(k-1) = 2^ln <= n *)
        assert (2 ^ Z.succ (Z.log2 d) * 2 ^ (k - 1) = 2 ^ Z.log2 n) as Heq.
        { rewrite <- Z.pow_add_r by lia. f_equal. lia. }
        assert (0 < 2 ^ (k - 1)) by (apply Z.pow_pos_nonneg; lia). nia.
      * assert (k = 0) as Hk0 by lia. replace (- (k - 1)) with 1 by lia.
        assert (Z.log2 n = Z.log2 d) as Hl by lia. rewrite Hl in *.
        rewrite Z.pow_succ_r in Hd2 by lia. lia.
  - destruct (Z.leb_spec d (n * 2 ^ (- k))) as [Ht|Ht].
    + destruct (Z.leb_spec 0 k); [lia|done].
    + destruct (Z.leb_spec 0 (k - 1)); [lia|].
      replace (- (k - 1)) with (Z.succ (- k)) by lia. rewrite Z.pow_succ_r by lia.
      (* d < 2^(ld+1) = 2^ln * 2^(-k) * 2 <= n * 2 * 2^(-k) *)
      assert (2 ^ Z.log2 n * 2 ^ (- k) * 2 = 2 ^ Z.succ (Z.log2 d)) as Heq.
      { rewrite <- Z.pow_add_r by lia. rewrite Z.mul_comm, <- Z.pow_succ_r by lia. f_equal. lia. }
      assert (0 < 2 ^ (- k)) by (apply Z.pow_pos_nonneg; lia). nia.
Qed.

Lemma ilog2_upper (n d : Z) :
  0 < n → 0 < d →
  if 0 <=? ilog2 n d + 1 then n < d * 2 ^ (ilog2 n d + 1)
  else n * 2 ^ (- (ilog2 n d + 1)) < d.
Proof.
  intros Hn Hd. unfold ilog2.
  set (k := Z.log2 n - Z.log2 d).
  pose proof (Z.log2_spec n Hn) as [Hn1 Hn2].
  pose proof (Z.log2_spec d Hd) as [Hd1 Hd2].
  pose proof (Z.log2_nonneg n) as Hln. pose proof (Z.log2_nonneg d) as Hld.
  destruct (Z.leb_spec 0 k) as [Hk|Hk].
  - destruct (Z.leb_spec (d * 2 ^ k) n) as [Ht|Ht].
    + destruct (Z.leb_spec 0 (k + 1)); [|lia].
      assert (2 ^ Z.log2 d * 2 ^ (k + 1) = 2 ^ Z.succ (Z.log2 n)) as Heq.
      { rewrite <- Z.pow_add_r by lia. f_equal. lia. }
      assert (0 < 2 ^ (k + 1)) by (apply Z.pow_pos_nonneg; lia). nia.
    + replace (k - 1 + 1) with k by lia. destruct (Z.leb_spec 0 k); [done|lia].
  - destruct (Z.leb_spec d (n * 2 ^ (- k))) as [Ht|Ht].
    + destruct (Z.leb_spec 0 (k + 1)) as [Hk1|Hk1].
      * assert (k = -1) as Hk' by lia. rewrite Hk'. change (2 ^ (-1 + 1)) with 1.
        assert (Z.succ (Z.log2 n) = Z.log2 d) as Hl by lia. rewrite Hl in Hn2. lia.
      * assert (2 ^ Z.succ (Z.log2 n) * 2 ^ (- (k + 1)) = 2 ^ Z.log2 d) as Heq.
        { rewrite <- Z.pow_add_r by lia. f_equal. lia. }
        assert (0 < 2 ^ (- (k + 1))) by (apply Z.pow_pos_nonneg; lia). nia.
    + replace (k - 1 + 1) with k by lia. destruct (Z.leb_spec 0 k); [lia|done].
Qed.

(** The rounding on some values, as Python gives them ([float("0.1")],
    [float("0.28")], a subnormal number, [float(2**53 + 1)], [0.1 * 3],
    [0.28 * 25] and [7 / 25]). *)
Example round_b64_samples :
  float_of_decimal 1 10 = 3602879701896397 # 36028797018963968 ∧
  float_of_decimal 28 100 = 1261007895663739 # 4503599627370496 ∧
  round_b64 (1 # Z.to_pos (2 ^ 1075)) = 0%Q ∧
  float_of_int (2 ^ 53 + 1) = inject_Z (2 ^ 53) ∧
  float_mul (float_of_decimal 1 10) (float_of_int 3) = 1351079888211149 # 4503599627370496 ∧
  float_mul (float_of_decimal 28 100) (float_of_int 25) = 7881299347898369 # 1125899906842624 ∧
  float_div 7 25 = float_of_decimal 28 100.
Proof. split_and!; by vm_compute. Qed.

Lemma round_b64_proper (x y : Q) : (x == y)%Q → round_b64 x = round_b64 y.
Proof. intros Heq. unfold round_b64. by rewrite (Qred_complete x y Heq). Qed.

Lemma Qred_inject_Z (n : Z) : Qred (inject_Z n) = inject_Z n.
Proof. apply Qred_identity. simpl. apply Z.gcd_1_r. Qed.

Lemma round_b64_int (n : Z) : Z.abs n ≤ 2 ^ 53 → round_b64 (inject_Z n) = inject_Z n.
Proof.
  intros Hn. unfold round_b64. rewrite Qred_inject_Z.
  rewrite <- (Qred_inject_Z n) at 2. apply Qred_complete.
  unfold round_b64_raw. cbn [Qnum Qden inject_Z].
  destruct (Z.eqb_spec n 0) as [->|Hn0]; [done|].
  assert (Hpos : 0 < Z.abs n) by lia.
  assert (Hlog : ilog2 (Z.abs n) 1 = Z.log2 (Z.abs n)).
  { unfold ilog2. change (Z.log2 1) with 0. rewrite Z.sub_0_r.
    pose proof (Z.log2_nonneg (Z.abs n)). pose proof (Z.log2_spec _ Hpos) as [H1 _].
    destruct (Z.leb_spec 0 (Z.log2 (Z.abs n))); [|lia].
    destruct (Z.leb_spec (1 * 2 ^ Z.log2 (Z.abs n)) (Z.abs n)); [done|lia]. }
  rewrite Hlog.
  pose proof (Z.log2_nonneg (Z.abs n)) as Hl0.
  assert (Hl53 : Z.log2 (Z.abs n) ≤ 53).
  { pose proof (Z.log2_le_mono _ _ Hn) as Hm. by rewrite Z.log2_pow2 in Hm by lia. }
  set (L := Z.log2 (Z.abs n)) in *.
  rewrite Z.max_l by lia.
  destruct (Z.leb_spec 0 (L - 52)) as [He|He].
  - (* e is 0 or 1 *)
    assert (L = 52 ∨ L = 53) as [HL|HL] by lia.
    + replace (L - 52) with 0 by lia. rewrite Z.pow_0_r, Z.mul_1_l, Z.mul_1_r.
      replace n with (n * 1) at 1 by lia. by rewrite rne_div_exact by lia.
    + replace (L - 52) with 1 by lia. rewrite Z.pow_1_r, Z.mul_1_l.
      assert (Habs : Z.abs n = 2 ^ 53).
      { pose proof (Z.log2_spec _ Hpos) as [H1 _]. fold L in H1. rewrite HL in H1. lia. }
      assert (n = (n / 2) * 2) as Hn2.
      { destruct (Z.abs_eq_or_opp n) as [He'|He']; rewrite He' in Habs.
        - rewrite Habs. reflexivity.
        - assert (n = - 2 ^ 53) as -> by lia. reflexivity. }
      rewrite Hn2 at 1. rewrite rne_div_exact by lia. by rewrite <- Hn2.
  - replace (n * 2 ^ (- (L - 52))) with ((n * 2 ^ (- (L - 52))) * 1) by lia.
    rewrite rne_div_exact by lia.
    assert (0 < 2 ^ (- (L - 52))) by (apply Z.pow_pos_nonneg; lia).
    unfold Qeq. cbn [Qnum Qden inject_Z]. rewrite Z2Pos.id by done. lia.
Qed.

Lemma round_b64_le_int (x : Q) (N : Z) :
  0 ≤ N ≤ 2 ^ 53 → (x <= inject_Z N)%Q → (round_b64 x <= inject_Z N)%Q.
Proof.
  intros HN Hx. unfold round_b64. rewrite Qred_correct.
  rewrite <- (Qred_correct x) in Hx. revert Hx. generalize (Qred x). clear x.
  intros [n d]. unfold Qle at 1. cbn [Qnum Qden inject_Z]. rewrite Z.mul_1_r. intros Hx.
  unfold round_b64_raw. cbn [Qnum Qden].
  destruct (Z.eqb_spec n 0) as [->|Hn0].
  { unfold Qle. simpl. lia. }
  destruct (Z.ltb_spec n 0) as [Hneg|Hpos].
  - (* a negative value rounds to a nonpositive one *)
    set (e := Z.max (ilog2 (Z.abs n) (Z.pos d) - 52) (-1074)).
    destruct (Z.leb_spec 0 e) as [He|He].
    + assert (0 < 2 ^ e) by (apply Z.pow_pos_nonneg; lia).
      assert (rne_div n (Z.pos d * 2 ^ e) ≤ 0) by (apply rne_div_le; lia).
      unfold Qle. cbn [Qnum Qden inject_Z]. nia.
    + assert (0 < 2 ^ (- e)) by (apply Z.pow_pos_nonneg; lia).
      assert (rne_div (n * 2 ^ (- e)) (Z.pos d) ≤ 0) by (apply rne_div_le; nia).
      unfold Qle. cbn [Qnum Qden inject_Z]. nia.
  - assert (Hn : 0 < n) by lia. rewrite Z.abs_eq by lia.
    pose proof (ilog2_lower n (Z.pos d) Hn ltac:(lia)) as Hlow.
    set (L := ilog2 n (Z.pos d)) in *.
    set (e := Z.max (L - 52) (-1074)).
    assert (HL : L ≤ 53).
    { destruct (Z.leb_spec 0 L) as [HL0|]; [|lia].
      destruct (Z.le_gt_cases L 53) as [|Hgt]; [done|exfalso].
      assert (2 ^ 54 ≤ 2 ^ L) by (apply Z.pow_le_mono_r; lia).
      assert (2 ^ 53 < 2 ^ 54) by done. nia. }
    destruct (Z.leb_spec 0 e) as [He|He].
    + assert (0 < 2 ^ e) by (apply Z.pow_pos_nonneg; lia).
      assert (e = 0 ∨ e = 1) as [He0|He1] by lia.
      * rewrite He0. change (2 ^ 0) with 1. rewrite !Z.mul_1_r.
        assert (rne_div n (Z.pos d) ≤ N) by (apply rne_div_le; lia).
        unfold Qle. cbn [Qnum Qden inject_Z]. lia.
      * rewrite He1. change (2 ^ 1) with 2.
        assert (L = 53) as HL53 by lia. rewrite HL53 in Hlow. simpl in Hlow.
        assert (N = 2 ^ 53) as -> by nia.
        assert (rne_div n (Z.pos d * 2) ≤ 2 ^ 52) by (apply rne_div_le; [lia|]; 
          change (2 ^ 53) with (2 ^ 52 * 2) in Hx; lia).
        unfold Qle. cbn [Qnum Qden inject_Z]. change (2 ^ 53) with (2 ^ 52 * 2). lia.
    + assert (0 < 2 ^ (- e)) by (apply Z.pow_pos_nonneg; lia).
      assert (rne_div (n * 2 ^ (- e)) (Z.pos d) ≤ N * 2 ^ (- e)) by (apply rne_div_le; nia).
      unfold Qle. cbn [Qnum Qden inject_Z]. rewrite Z2Pos.id by done. nia.
Qed.

Lemma float_of_int_exact (n : Z) : Z.abs n ≤ 2 ^ 53 → float_of_int n = inject_Z n.
Proof. apply round_b64_int. Qed.

Lemma float_mul_one_int (n : Z) :
  Z.abs n ≤ 2 ^ 53 → float_mul 1 (float_of_int n) = inject_Z n.
Proof.
  intros Hn. unfold float_mul. rewrite float_of_int_exact by done.
  rewrite (round_b64_proper (1 * inject_Z n) (inject_Z n)) by apply Qmult_1_l.
  by apply round_b64_int.
Qed.

(** The rounded product [cvg_pct * n] stays at or below [n] when
    [cvg_pct] is at most one. *)
Lemma float_mul_le_int (cvg_pct : Q) (n : Z) :
  0 ≤ n ≤ 2 ^ 53 → (cvg_pct <= 1)%Q →
  int_ge_float n (float_mul cvg_pct (float_of_int n)) = true.
Proof.
  intros Hn Hc. unfold int_ge_float, float_mul. apply Qle_bool_iff.
  rewrite float_of_int_exact by lia. apply round_b64_le_int; [done|].
  rewrite <- (Qmult_1_l (inject_Z n)) at 2.
  apply Qmult_le_compat_r; [done|]. rewrite <- (Zle_Qle 0). lia.
Qed.

(** ** Facts about the path coverer *)

Lemma dict_lookup_is_Some (x : Z) (d : path_dict) :
  x ∈ keys d → is_Some (dict_lookup x d).
Proof.
  unfold keys. induction d as [|[k v] d IH]; simpl.
  - by intros ?%elem_of_nil.
  - intros [->|Hx]%elem_of_cons; case_bool_decide; eauto; done.
Qed.

Lemma dict_lookup_elem_of (x : Z) (d : path_dict) (p : path) :
  dict_lookup x d = Some p → (x, p) ∈ d.
Proof.
  induction d as [|[k v] d IH]; simpl; [done|].
  case_bool_decide as Hk.
  - intros [= ->]. subst. by left.
  - intros ?. right. by apply IH.
Qed.

Lemma key_lt_false_trans (a b c : sort_key) :
  key_lt a b = false → key_lt b c = false → key_lt a c = false.
Proof.
  unfold key_lt. destruct a as [a1 a2], b as [b1 b2], c as [c1 c2]; simpl.
  rewrite !orb_false_iff, !andb_false_iff, !Nat.ltb_ge, !Nat.eqb_neq, !Z.ltb_ge. lia.
Qed.

Lemma key_lt_true_false (a b : sort_key) : key_lt a b = true → key_lt b a = false.
Proof.
  unfold key_lt. destruct a as [a1 a2], b as [b1 b2]; simpl.
  rewrite orb_true_iff, andb_true_iff, orb_false_iff, andb_false_iff,
    !Nat.ltb_lt, !Nat.ltb_ge, Nat.eqb_eq, Nat.eqb_neq, Z.ltb_lt, Z.ltb_ge. lia.
Qed.

Section Sorting.
Context {A : Type}.
Implicit Types (x : A * sort_key) (l : list (A * sort_key)).

Lemma insert_desc_perm x l : insert_desc x l ≡ₚ x :: l.
Proof.
  induction l as [|y l IH]; simpl; [done|].
  destruct (key_lt x.2 y.2); [|done].
  rewrite IH. apply Permutation_swap.
Qed.

Lemma sorted_desc_perm l : sorted_desc l ≡ₚ l.
Proof.
  induction l as [|x l IH]; simpl; [done|].
  unfold sorted_desc in *. simpl. by rewrite insert_desc_perm, IH.
Qed.

Lemma insert_desc_sorted x l :
  StronglySorted key_ge l → StronglySorted key_ge (insert_desc x l).
Proof.
  induction 1 as [|y l Hl IH Hy]; simpl.
  - repeat constructor.
  - destruct (key_lt x.2 y.2) eqn:Hxy.
    + constructor; [done|].
      rewrite insert_desc_perm. constructor; [|done].
      by apply key_lt_true_false.
    + constructor; [by constructor|].
      constructor; [done|].
      eapply Forall_impl; [exact Hy|].
      intros z Hz. unfold key_ge in *. by eapply key_lt_false_trans.
Qed.

Lemma sorted_desc_sorted l : StronglySorted key_ge (sorted_desc l).
Proof.
  induction l as [|x l IH]; [constructor|].
  unfold sorted_desc in *. simpl. by apply insert_desc_sorted.
Qed.
End Sorting.

Lemma nodes_of_app (l1 l2 : list path) : nodes_of (l1 ++ l2) = nodes_of l1 ∪ nodes_of l2.
Proof. unfold nodes_of. by rewrite fmap_app, union_list_app_L. Qed.

Lemma nodes_of_singleton (p : path) : nodes_of [p] = list_to_set p.
Proof. unfold nodes_of. simpl. by rewrite union_empty_r_L. Qed.

Lemma elem_of_nodes_of (x : Z) (paths : list path) :
  x ∈ nodes_of paths ↔ ∃ p, p ∈ paths ∧ x ∈ p.
Proof.
  unfold nodes_of. rewrite elem_of_union_list. split.
  - intros (X & (p & -> & Hp)%list_elem_of_fmap & Hx).
    exists p. split; [done|]. by apply elem_of_list_to_set in Hx.
  - intros (p & Hp & Hx). exists (list_to_set p). split.
    + apply list_elem_of_fmap. eauto.
    + by apply elem_of_list_to_set.
Qed.

Lemma len_targets_nonzero (targets : list Z) (t : Z) :
  t ∈ (list_to_set targets : gset Z) → len targets ≠ 0.
Proof.
  intros Ht%elem_of_list_to_set. destruct targets; [by apply elem_of_nil in Ht|].
  unfold len. simpl. lia.
Qed.

Section CoverLoop.
Variable spaths : path_dict.
Variable targets : list Z.
Variable cvg_pct : Q.

Lemma cover_loop_spec (ps : list Z) (st : cover_state) :
  (∀ p, p ∈ ps → p ∈ keys spaths) →
  cover_inv targets st →
  ∃ st' new,
    cover_loop spaths (len targets) cvg_pct ps st = Ok st' ∧
    covering_paths st' = covering_paths st ++ new ∧
    cover_inv targets st' ∧
    sublist new (paths_of spaths ps) ∧
    (∀ pre p post, new = pre ++ p :: post →
       (∃ t, t ∈ targets ∧ t ∈ p ∧ t ∉ nodes_of (covering_paths st ++ pre)) ∧
       (post ≠ [] → threshold_reached targets cvg_pct (covering_paths st ++ pre ++ [p]) = false)) ∧
    ((new ≠ [] ∧ threshold_reached targets cvg_pct (covering_paths st') = true) ∨
     (∀ p sp, p ∈ ps → dict_lookup p spaths = Some sp →
        uncovered_target_nodes st' ## list_to_set sp)).
Proof.
  revert st. induction ps as [|p ps IH]; intros st Hkeys Hinv.
  { exists st, []. simpl. rewrite app_nil_r. split_and!; try done.
    - intros [|??] ?? ?; done.
    - right. by intros ?? ?%elem_of_nil. }
  simpl. unfold dict_get, paths_of. simpl.
  destruct (dict_lookup_is_Some p spaths) as [sp Hsp]; [apply Hkeys; by left|].
  rewrite Hsp. simpl.
  assert (Hkeys' : ∀ p', p' ∈ ps → p' ∈ keys spaths) by (intros; apply Hkeys; by right).
  case_bool_decide as Hsize.
  - (* the path covers no uncovered target node: skipped *)
    destruct (IH st Hkeys' Hinv) as (st' & new & Hrun & Hpaths & Hinv' & Hsub & Hnew & Hfin).
    exists st', new. split_and!; try done.
    + by apply sublist_cons.
    + destruct Hfin as [Hfin|Hfin]; [by left|right].
      intros p' sp' [->|Hp']%elem_of_cons Hsp'; [|by eapply Hfin].
      apply size_empty_iff in Hsize.
      assert (sp' = sp) as -> by congruence.
      rewrite Hinv', Hpaths, nodes_of_app. rewrite Hinv in Hsize. set_solver.
  - (* the path is accepted *)
    set (new_cov := uncovered_target_nodes st ∩ list_to_set sp) in *.
    assert (∃ t, t ∈ new_cov) as [t Ht].
    { apply set_choose_L. intros Hempty. apply Hsize. by rewrite Hempty. }
    assert (Htargets : t ∈ (list_to_set targets : gset Z)).
    { subst new_cov. rewrite Hinv in Ht. set_solver. }
    unfold py_truediv.
    destruct (Z.eqb_spec (len targets) 0) as [Hz|_];
      [by apply len_targets_nonzero in Htargets|].
    simpl.
    set (st1 := {| all_covered_nodes := all_covered_nodes st ∪ new_cov;
                   covering_paths := covering_paths st ++ [sp];
                   uncovered_target_nodes := uncovered_target_nodes st ∖ new_cov |}).
    assert (Hinv1 : cover_inv targets st1).
    { unfold cover_inv. simpl. rewrite nodes_of_app, nodes_of_singleton.
      subst new_cov. rewrite Hinv. set_solver. }
    assert (Hnum : len targets - Z.of_nat (size (uncovered_target_nodes st ∖ new_cov))
                   = num_covered targets (covering_paths st ++ [sp])).
    { unfold num_covered. do 3 f_equal. exact Hinv1. }
    rewrite Hnum. fold (threshold_reached targets cvg_pct (covering_paths st ++ [sp])).
    assert (Hfresh : ∃ t, t ∈ targets ∧ t ∈ sp ∧ t ∉ nodes_of (covering_paths st ++ [])).
    { exists t. rewrite app_nil_r. subst new_cov. rewrite Hinv in Ht.
      apply elem_of_list_to_set in Htargets. set_solver. }
    destruct (threshold_reached targets cvg_pct (covering_paths st ++ [sp])) eqn:Hthr.
    + (* the threshold is reached: break *)
      exists st1, [sp]. split_and!; try done.
      * apply sublist_skip, sublist_nil_l.
      * intros [|? [|??]] p' post [= <- <-]; [|done..]. split; [done|]. by intros [].
      * left. split; [done|]. exact Hthr.
    + destruct (IH st1 Hkeys' Hinv1) as (st' & new & Hrun & Hpaths & Hinv' & Hsub & Hnew & Hfin).
      exists st', (sp :: new). split_and!; try done.
      * rewrite Hpaths. simpl. by rewrite <- app_assoc.
      * by apply sublist_skip.
      * intros [|q pre] p' post Heq; simplify_eq/=.
        -- split; [done|]. intros _. exact Hthr.
        -- destruct (Hnew pre p' post eq_refl) as [Hex Hpost]. simpl in *.
           rewrite <- !app_assoc in Hex, Hpost. simpl in *. done.
      * destruct Hfin as [[? Hfin]|Hfin]; [by left|right].
        intros p' sp' [->|Hp']%elem_of_cons Hsp'; [|by eapply Hfin].
        assert (sp' = sp) as -> by congruence.
        rewrite Hinv', Hpaths. simpl. rewrite !nodes_of_app, nodes_of_singleton. set_solver.
Qed.

(** The loop is the walk of the specification over the candidate paths of
    the keys it is given. *)
Lemma cover_loop_walk (ps : list Z) (st st' : cover_state) :
  (∀ p, p ∈ ps → p ∈ keys spaths) →
  cover_inv targets st →
  cover_loop spaths (len targets) cvg_pct ps st = Ok st' →
  greedy_walk targets cvg_pct (covering_paths st) (paths_of spaths ps) (covering_paths st').
Proof.
  revert st. induction ps as [|p ps IH]; intros st Hkeys Hinv Hrun.
  { simpl in Hrun. injection Hrun as <-. constructor. }
  simpl in Hrun. unfold dict_get, paths_of in *. simpl.
  destruct (dict_lookup_is_Some p spaths) as [sp Hsp]; [apply Hkeys; by left|].
  rewrite Hsp in *. simpl in Hrun |- *.
  assert (Hkeys' : ∀ p', p' ∈ ps → p' ∈ keys spaths) by (intros; apply Hkeys; by right).
  case_bool_decide as Hsize.
  - (* no uncovered target node on the path: skipped *)
    apply walk_skip; [|by apply IH].
    intros t Ht Hin. apply size_empty_iff in Hsize. rewrite Hinv in Hsize.
    destruct (decide (t ∈ nodes_of (covering_paths st))) as [|Hn]; [done|exfalso].
    assert (t ∈ (list_to_set targets ∖ nodes_of (covering_paths st)) ∩ (list_to_set sp : gset Z))
      by set_solver.
    set_solver.
  - set (new_cov := uncovered_target_nodes st ∩ list_to_set sp) in *.
    assert (∃ t, t ∈ new_cov) as [t Ht].
    { apply set_choose_L. intros Hempty. apply Hsize. by rewrite Hempty. }
    assert (Htargets : t ∈ (list_to_set targets : gset Z)).
    { subst new_cov. rewrite Hinv in Ht. set_solver. }
    assert (Hfresh : ∃ t, t ∈ targets ∧ t ∈ sp ∧ t ∉ nodes_of (covering_paths st)).
    { exists t. subst new_cov. rewrite Hinv in Ht.
      apply elem_of_list_to_set in Htargets. set_solver. }
    unfold py_truediv in Hrun.
    destruct (Z.eqb_spec (len targets) 0) as [Hz|_];
      [by apply len_targets_nonzero in Htargets|].
    simpl in Hrun.
    set (st1 := {| all_covered_nodes := all_covered_nodes st ∪ new_cov;
                   covering_paths := covering_paths st ++ [sp];
                   uncovered_target_nodes := uncovered_target_nodes st ∖ new_cov |}) in *.
    assert (Hinv1 : cover_inv targets st1).
    { unfold cover_inv. simpl. rewrite nodes_of_app, nodes_of_singleton.
      subst new_cov. rewrite Hinv. set_solver. }
    assert (Hnum : len targets - Z.of_nat (size (uncovered_target_nodes st ∖ new_cov))
                   = num_covered targets (covering_paths st ++ [sp])).
    { unfold num_covered. do 3 f_equal. exact Hinv1. }
    rewrite Hnum in Hrun.
    fold (threshold_reached targets cvg_pct (covering_paths st ++ [sp])) in Hrun.
    destruct (threshold_reached targets cvg_pct (covering_paths st ++ [sp])) eqn:Hthr.
    + injection Hrun as <-. by apply walk_stop.
    + apply walk_accept; [done|done|]. by apply (IH st1).
Qed.
End CoverLoop.

Lemma greedy_walk_extends targets cvg_pct acc cands paths :
  greedy_walk targets cvg_pct acc cands paths → acc `prefix_of` paths.
Proof.
  induction 1 as [acc|acc c cands paths _ _ IH|acc c cands _ _|acc c cands paths _ _ _ IH].
  - done.
  - done.
  - by apply prefix_app_r.
  - etrans; [|exact IH]. by apply prefix_app_r.
Qed.

(** What the walk has accepted after a head segment of the candidates is
    an initial part of what it accepts in the end. *)
Lemma greedy_walk_head targets cvg_pct before after acc paths :
  greedy_walk targets cvg_pct acc (before ++ after) paths →
  ∃ pre, greedy_walk targets cvg_pct acc before pre ∧ pre `prefix_of` paths.
Proof.
  revert acc. induction before as [|c before IH]; intros acc Hwalk.
  { exists acc. split; [constructor|]. by eapply greedy_walk_extends. }
  simpl in Hwalk. inversion Hwalk as [|? ? ? ? Hskip Hrest|? ? ? Hnew Hthr|? ? ? ? Hnew Hthr Hrest];
    subst.
  - destruct (IH acc Hrest) as (pre & Hpre & Hprefix). exists pre. split; [|done].
    by apply walk_skip.
  - exists (acc ++ [c]). split; [by apply walk_stop|done].
  - destruct (IH (acc ++ [c]) Hrest) as (pre & Hpre & Hprefix). exists pre. split; [|done].
    by apply walk_accept.
Qed.

Section PathCovererFacts.
Context `{nx : Networkx}.
Variable hash : list Z → Z.

Lemma decorated_keys_sorted (spaths : path_dict) (l : list (Z * sort_key)) :
  Forall (λ d, d = decorate hash spaths d.1 ∧ d.1 ∈ keys spaths) l →
  StronglySorted key_ge l →
  StronglySorted (λ x y, ∃ px py, dict_lookup x spaths = Some px ∧
                            dict_lookup y spaths = Some py ∧
                            considered_before hash px py) l.*1.
Proof.
  intros Hall Hsorted. induction Hsorted as [|d l Hl IH Hd]; simpl; [constructor|].
  apply Forall_cons in Hall as [[Hd1 Hd2] Hall].
  constructor; [by apply IH|].
  apply Forall_fmap, Forall_forall. intros e He.
  rewrite Forall_forall in Hall, Hd.
  destruct (Hall e He) as [He1 He2]. specialize (Hd e He).
  destruct (dict_lookup_is_Some _ _ Hd2) as [px Hpx].
  destruct (dict_lookup_is_Some _ _ He2) as [py Hpy].
  exists px, py. split_and!; try done.
  unfold key_ge in Hd. rewrite Hd1, He1 in Hd. unfold decorate in Hd.
  rewrite Hpx, Hpy in Hd. simpl in Hd.
  unfold key_lt, considered_before in *. simpl in Hd.
  rewrite orb_false_iff, andb_false_iff, Nat.ltb_ge, Nat.eqb_neq, Z.ltb_ge in Hd. lia.
Qed.

Lemma decorate_keys (spaths : path_dict) (l : list Z) :
  (decorate hash spaths <$> l).*1 = l.
Proof. induction l as [|x l IH]; [done|]. rewrite !fmap_cons. by rewrite IH. Qed.

Lemma spath_keys_sorted_spec (spaths : path_dict) :
  ∃ ks, spath_keys_sorted hash spaths = Ok ks ∧
        ks ≡ₚ keys spaths ∧
        StronglySorted (λ x y, ∃ px py, dict_lookup x spaths = Some px ∧
                                 dict_lookup y spaths = Some py ∧
                                 considered_before hash px py) ks.
Proof.
  unfold spath_keys_sorted.
  rewrite (traverse_ok _ (decorate hash spaths)).
  - simpl. eexists. split; [done|]. split.
    + rewrite sorted_desc_perm. by rewrite decorate_keys.
    + apply decorated_keys_sorted; [|apply sorted_desc_sorted].
      rewrite sorted_desc_perm. apply Forall_fmap, Forall_forall. by intros x Hx.
  - intros x Hx. unfold dict_get, decorate.
    by destruct (dict_lookup_is_Some _ _ Hx) as [p ->].
Qed.

Lemma compute_path_coverings_run G targets cvg_pct spaths ks st :
  root_paths G spaths →
  spath_keys_sorted hash spaths = Ok ks →
  cover_loop spaths (len targets) cvg_pct ks (initial_cover_state targets) = Ok st →
  compute_path_coverings hash G targets cvg_pct = Ok (covering_paths st).
Proof.
  intros (mst & root_node & Hroot & Hsp) Hks Hloop. unfold compute_path_coverings.
  rewrite Hroot. simpl. rewrite Hsp. simpl. rewrite Hks. simpl. by rewrite Hloop.
Qed.

Lemma initial_cover_inv (targets : list Z) : cover_inv targets (initial_cover_state targets).
Proof. unfold cover_inv, nodes_of. simpl. set_solver. Qed.

(** What the function returns on every graph on which the arborescence
    stage succeeds. *)
Lemma compute_path_coverings_spec G targets cvg_pct spaths :
  root_paths G spaths →
  ∃ ks st,
    spath_keys_sorted hash spaths = Ok ks ∧
    ks ≡ₚ keys spaths ∧
    compute_path_coverings hash G targets cvg_pct = Ok (covering_paths st) ∧
    cover_inv targets st ∧
    sublist (covering_paths st) (paths_of spaths ks) ∧
    (∀ pre p post, covering_paths st = pre ++ p :: post →
       (∃ t, t ∈ targets ∧ t ∈ p ∧ t ∉ nodes_of pre) ∧
       (post ≠ [] → threshold_reached targets cvg_pct (pre ++ [p]) = false)) ∧
    ((covering_paths st ≠ [] ∧ threshold_reached targets cvg_pct (covering_paths st) = true) ∨
     (∀ p sp, p ∈ ks → dict_lookup p spaths = Some sp →
        uncovered_target_nodes st ## list_to_set sp)).
Proof.
  intros Hroot.
  destruct (spath_keys_sorted_spec spaths) as (ks & Hks & Hperm & _).
  destruct (cover_loop_spec spaths targets cvg_pct ks (initial_cover_state targets))
    as (st & new & Hrun & Hpaths & Hinv & Hsub & Hnew & Hfin).
  { intros p Hp. by rewrite <- Hperm. }
  { apply initial_cover_inv. }
  simpl in Hpaths. subst new.
  exists ks, st. split_and!; try done.
  by eapply compute_path_coverings_run.
Qed.

(** The function returns what the walk of the specification accepts over
    the candidate paths in the order of line 100. *)
Lemma compute_path_coverings_walk G targets cvg_pct spaths :
  root_paths G spaths →
  ∃ ks paths,
    spath_keys_sorted hash spaths = Ok ks ∧
    compute_path_coverings hash G targets cvg_pct = Ok paths ∧
    greedy_walk targets cvg_pct [] (paths_of spaths ks) paths.
Proof.
  intros Hroot.
  destruct (spath_keys_sorted_spec spaths) as (ks & Hks & Hperm & _).
  assert (Hkeys : ∀ p, p ∈ ks → p ∈ keys spaths) by (intros p Hp; by rewrite <- Hperm).
  destruct (cover_loop_spec spaths targets cvg_pct ks (initial_cover_state targets) Hkeys
              (initial_cover_inv targets)) as (st & new & Hrun & _).
  exists ks, (covering_paths st). split_and!; [done|by eapply compute_path_coverings_run|].
  by apply (cover_loop_walk spaths targets cvg_pct ks (initial_cover_state targets) st Hkeys
              (initial_cover_inv targets)).
Qed.
End PathCovererFacts.

(** With the threshold [1.0] and a count that is an exact float, the test
    of line 128 holds only when every target node is covered. *)
Lemma threshold_reached_one (targets : list Z) (paths : list path) :
  len targets ≤ 2 ^ 53 →
  threshold_reached targets 1 paths = true →
  (list_to_set targets : gset Z) ⊆ nodes_of paths.
Proof.
  intros Hlen. unfold threshold_reached.
  rewrite float_mul_one_int by (unfold len in *; lia).
  unfold int_ge_float. rewrite Qle_bool_iff, <- Zle_Qle.
  unfold num_covered. intros Hle.
  assert (Hsize : size (list_to_set targets ∖ nodes_of paths : gset Z) = 0%nat) by lia.
  apply size_empty_iff in Hsize. set_solver.
Qed.

(** When every target node is covered the test holds for every threshold
    of at most one. *)
Lemma threshold_reached_all (targets : list Z) (cvg_pct : Q) (paths : list path) :
  len targets ≤ 2 ^ 53 →
  (cvg_pct <= 1)%Q →
  (list_to_set targets : gset Z) ⊆ nodes_of paths →
  threshold_reached targets cvg_pct paths = true.
Proof.
  intros Hlen Hc Hsub. unfold threshold_reached, num_covered.
  assert (Hempty : (list_to_set targets ∖ nodes_of paths : gset Z) = ∅) by set_solver.
  rewrite Hempty, size_empty, Z.sub_0_r.
  apply float_mul_le_int; [unfold len in *; lia|done].
Qed.

Section PathCovererClaims.
Context `{nx : Networkx}.
Variable hash : list Z → Z.

(** C1 (as amended): with [cvg_pct = 1.0], on a graph whose arborescence
    stage succeeds and whose target nodes all have a root path (each root
    path containing the node it leads to), the function returns a path list
    on which the target nodes are exactly the target set: the union of the
    nodes of the paths contains every target node.  The union may hold nodes
    that are not target nodes.  The number of target nodes is at most 2^53,
    so that the float product [1.0 * len(target_nodes_to_cover)] of line 128
    is exact. *)
Theorem full_coverage_contains_targets G targets spaths :
  root_paths G spaths →
  (∀ n p, (n, p) ∈ spaths → n ∈ p) →
  (∀ t, t ∈ targets → t ∈ keys spaths) →
  len targets ≤ 2 ^ 53 →
  ∃ paths, compute_path_coverings hash G targets 1 = Ok paths ∧
           nodes_of paths ∩ list_to_set targets = list_to_set targets.
Proof.
  intros Hroot Hends Hreach Hlen.
  destruct (compute_path_coverings_spec hash G targets 1 spaths Hroot)
    as (ks & st & Hks & Hperm & Hrun & Hinv & _ & _ & Hfin).
  exists (covering_paths st). split; [done|].
  apply set_eq. intros t. rewrite elem_of_intersection, elem_of_list_to_set.
  split; [tauto|]. intros Ht. split; [|done].
  destruct Hfin as [[_ Hthr]|Hdisj].
  - apply threshold_reached_one in Hthr; [|done]. apply Hthr. by apply elem_of_list_to_set.
  - assert (Hk : t ∈ ks) by (rewrite Hperm; by apply Hreach).
    destruct (dict_lookup_is_Some t spaths (Hreach t Ht)) as [sp Hsp].
    specialize (Hdisj t sp Hk Hsp).
    assert (t ∈ sp) by (eapply Hends, dict_lookup_elem_of; done).
    rewrite Hinv in Hdisj.
    assert (Ht' : t ∈ (list_to_set targets : gset Z)) by by apply elem_of_list_to_set.
    destruct (decide (t ∈ nodes_of (covering_paths st))) as [|Hn]; [done|].
    exfalso. apply (Hdisj t); [set_solver|]. by apply elem_of_list_to_set.
Qed.

(** C3: the candidates are the root paths of the dict, each once, ordered
    so that a path comes before every path that is shorter, and before
    every path of the same length whose hash is not larger, and the
    function considers them in that order, from the longest on: the paths
    it returns are taken from the candidates in that order, and for every
    head segment of the order, what the walk of the specification accepts
    from that segment alone is the initial part of the returned list.  A
    later (shorter) candidate is considered only after every earlier one
    has been accepted or skipped. *)
Theorem candidates_longest_first G targets cvg_pct spaths :
  root_paths G spaths →
  ∃ ks paths,
    spath_keys_sorted hash spaths = Ok ks ∧
    ks ≡ₚ keys spaths ∧
    StronglySorted (λ x y, ∃ px py, dict_lookup x spaths = Some px ∧
                             dict_lookup y spaths = Some py ∧
                             considered_before hash px py) ks ∧
    compute_path_coverings hash G targets cvg_pct = Ok paths ∧
    sublist paths (paths_of spaths ks) ∧
    ∀ before after, paths_of spaths ks = before ++ after →
      ∃ pre, greedy_walk targets cvg_pct [] before pre ∧ pre `prefix_of` paths.
Proof.
  intros Hroot.
  destruct (compute_path_coverings_spec hash G targets cvg_pct spaths Hroot)
    as (ks & st & Hks & Hperm & Hrun & _ & Hsub & _).
  destruct (spath_keys_sorted_spec hash spaths) as (ks' & Hks' & _ & Hsorted).
  assert (ks' = ks) as -> by congruence.
  destruct (compute_path_coverings_walk hash G targets cvg_pct spaths Hroot)
    as (ks' & paths & Hks'' & Hrun' & Hwalk).
  assert (ks' = ks) as -> by congruence.
  assert (paths = covering_paths st) as -> by congruence.
  exists ks, (covering_paths st). split_and!; try done.
  intros before after Hsplit. rewrite Hsplit in Hwalk.
  by apply (greedy_walk_head targets cvg_pct before after).
Qed.

(** C4 (as amended): the function returns what the walk of the
    specification accepts over the candidates in the order of line 100: a
    candidate that holds no target node outside the paths accepted so far
    is skipped, every other candidate is accepted, and the walk stops at the
    first accepted path after which the test of line 128 holds, the integer
    count of covered target nodes being at least the rounded float product
    [cvg_pct * len(target_nodes_to_cover)].  So every accepted path contains
    a target node that no earlier accepted path contains, and no path
    follows an accepted path at which that test held. *)
Theorem greedy_selection G targets cvg_pct spaths :
  root_paths G spaths →
  ∃ ks paths,
    spath_keys_sorted hash spaths = Ok ks ∧
    compute_path_coverings hash G targets cvg_pct = Ok paths ∧
    greedy_walk targets cvg_pct [] (paths_of spaths ks) paths ∧
    (∀ pre p post, paths = pre ++ p :: post →
       ∃ t, t ∈ targets ∧ t ∈ p ∧ t ∉ nodes_of pre) ∧
    (∀ pre post, paths = pre ++ post → pre ≠ [] →
       threshold_reached targets cvg_pct pre = true → post = []).
Proof.
  intros Hroot.
  destruct (compute_path_coverings_spec hash G targets cvg_pct spaths Hroot)
    as (ks & st & Hks & _ & Hrun & _ & _ & Hnew & _).
  destruct (compute_path_coverings_walk hash G targets cvg_pct spaths Hroot)
    as (ks' & paths & Hks' & Hrun' & Hwalk).
  assert (ks' = ks) as -> by congruence.
  assert (paths = covering_paths st) as -> by congruence.
  exists ks, (covering_paths st). split_and!; try done.
  - intros pre p post Heq. by destruct (Hnew pre p post Heq).
  - intros pre post Heq Hpre Hthr.
    destruct post as [|p' post]; [done|exfalso].
    destruct (exists_last Hpre) as (pre' & p & ->).
    rewrite <- app_assoc in Heq. simpl in Heq.
    destruct (Hnew pre' p (p' :: post) Heq) as [_ Hnot].
    rewrite Hthr in Hnot. by discriminate Hnot.
Qed.

(** C8 (as amended): on every graph on which the arborescence stage
    succeeds, an empty target set gives the empty path list and no
    exception. *)
Theorem empty_targets_empty_cover G cvg_pct spaths :
  root_paths G spaths →
  compute_path_coverings hash G [] cvg_pct = Ok [].
Proof.
  intros Hroot.
  destruct (compute_path_coverings_spec hash G [] cvg_pct spaths Hroot)
    as (ks & st & _ & _ & Hrun & _ & _ & Hnew & _).
  rewrite Hrun. f_equal.
  destruct (covering_paths st) as [|p post] eqn:Hpaths; [done|].
  destruct (Hnew [] p post eq_refl) as [(t & Ht & _) _]. by apply elem_of_nil in Ht.
Qed.

(** A graph without edges makes the arborescence stage raise, whatever
    networkx answers: either the library call raises, or line 90 divides by
    [len(G.edges())]. *)
Lemma no_edges_raises G targets cvg_pct :
  edges G = [] →
  ∃ e, compute_path_coverings hash G targets cvg_pct = Raise e ∧
       (e = ZeroDivisionError ∨ minimum_spanning_arborescence G = Raise e).
Proof.
  intros Hedges. unfold compute_path_coverings, arborescence_root.
  destruct (minimum_spanning_arborescence G) as [mst|e]; simpl; [|eauto].
  rewrite Hedges. simpl. eauto.
Qed.
End PathCovererClaims.

Lemma full_coverage_contains_targets_witness :
  ∃ paths, compute_path_coverings (nx:=nx_abcd) hash0 G_abcd [3; 4] 1 = Ok paths ∧
           nodes_of paths ∩ list_to_set [3; 4] = list_to_set [3; 4].
Proof.
  apply (full_coverage_contains_targets hash0 G_abcd [3; 4] spaths_abcd).
  - by exists G_abcd, 1.
  - intros n p Hin. unfold spaths_abcd in Hin.
    repeat (apply elem_of_cons in Hin as [[= -> ->]|Hin]; [set_solver|]).
    by apply elem_of_nil in Hin.
  - intros t Ht. unfold keys. simpl. set_solver.
  - by vm_compute.
Defined.

(** C1 as stated fails: on the graph 1 -> 2 with target set {2} the single
    covering path is [1; 2], and its node set {1, 2} is not the target set. *)
Lemma full_coverage_not_exact :
  (∀ t, t ∈ [2] → t ∈ keys spaths12) ∧
  compute_path_coverings (nx:=nx12) hash0 G12 [2] 1 = Ok [[1; 2]] ∧
  nodes_of [[1; 2]] ≠ list_to_set [2].
Proof.
  split_and!.
  - intros t ->%list_elem_of_singleton. unfold keys. simpl. set_solver.
  - by vm_compute.
  - intros Heq. assert (H1 : 1 ∈ nodes_of [[1; 2]]) by (apply elem_of_nodes_of; exists [1; 2]; set_solver).
    rewrite Heq in H1. set_solver.
Qed.

(** The scenario of the specification with the target set {C, D}: two
    covering paths, the one with the larger hash first. *)
Example cover_abcd :
  compute_path_coverings (nx:=nx_abcd) hash0 G_abcd [3; 4] 1 = Ok [[1; 2; 4]; [1; 2; 3]].
Proof. reflexivity. Qed.

Lemma candidates_longest_first_witness :
  ∃ ks paths,
    spath_keys_sorted hash0 spaths_abcd = Ok ks ∧
    ks ≡ₚ keys spaths_abcd ∧
    StronglySorted (λ x y, ∃ px py, dict_lookup x spaths_abcd = Some px ∧
                             dict_lookup y spaths_abcd = Some py ∧
                             considered_before hash0 px py) ks ∧
    compute_path_coverings (nx:=nx_abcd) hash0 G_abcd [3; 4] 1 = Ok paths ∧
    sublist paths (paths_of spaths_abcd ks) ∧
    ∀ before after, paths_of spaths_abcd ks = before ++ after →
      ∃ pre, greedy_walk [3; 4] 1 [] before pre ∧ pre `prefix_of` paths.
Proof. apply (candidates_longest_first hash0 G_abcd [3; 4] 1 spaths_abcd). by exists G_abcd, 1. Defined.

Lemma greedy_selection_witness :
  ∃ ks paths,
    spath_keys_sorted hash0 spaths_abcd = Ok ks ∧
    compute_path_coverings (nx:=nx_abcd) hash0 G_abcd [3; 4] (1 # 2) = Ok paths ∧
    greedy_walk [3; 4] (1 # 2) [] (paths_of spaths_abcd ks) paths ∧
    (∀ pre p post, paths = pre ++ p :: post →
       ∃ t, t ∈ [3; 4] ∧ t ∈ p ∧ t ∉ nodes_of pre) ∧
    (∀ pre post, paths = pre ++ post → pre ≠ [] →
       threshold_reached [3; 4] (1 # 2) pre = true → post = []).
Proof. apply (greedy_selection hash0 G_abcd [3; 4] (1 # 2) spaths_abcd). by exists G_abcd, 1. Defined.

(** C4 as stated fails: the test of line 128 is not the comparison of the
    covered fraction with [cvg_pct].  With [--coverage_pct 0.28] and the 25
    leaves of a star as target nodes, seven accepted paths cover the
    fraction 7/25 = 0.28, which is the threshold as it was given and is
    equal to it as line 121 computes it, yet the selection goes on and
    returns eight paths: the float product [0.28 * 25] is rounded to a
    number above 7.  With [--coverage_pct 0.2] and 5 leaves the selection
    stops after one path, the product [0.2 * 5] being rounded to 1, while
    the fraction covered, 1/5, is below the value of the float [0.2]. *)
Lemma stop_test_is_not_the_covered_fraction :
  (∃ paths,
     compute_path_coverings (nx:=nx_star 25) hash0 (G_star 25) (star_leaves 25)
       (float_of_decimal 28 100) = Ok paths ∧
     length paths = 8%nat ∧
     (covered_fraction (star_leaves 25) (take 7 paths) == 28 # 100)%Q ∧
     pct_target_covered (star_leaves 25) (take 7 paths) = float_of_decimal 28 100) ∧
  (∃ paths,
     compute_path_coverings (nx:=nx_star 5) hash0 (G_star 5) (star_leaves 5)
       (float_of_decimal 2 10) = Ok paths ∧
     length paths = 1%nat ∧
     (covered_fraction (star_leaves 5) paths < float_of_decimal 2 10)%Q).
Proof.
  split.
  - eexists. split; [by vm_compute|]. split_and!; by vm_compute.
  - eexists. split; [by vm_compute|]. split_and!; by vm_compute.
Qed.

Lemma empty_targets_empty_cover_witness :
  compute_path_coverings (nx:=nx_abcd) hash0 G_abcd [] 1 = Ok [].
Proof. apply (empty_targets_empty_cover hash0 G_abcd 1 spaths_abcd). by exists G_abcd, 1. Defined.

(** C8 as stated fails on a graph without edges.  On the graph of the single
    node 1 networkx returns the one-node arborescence and line 90 divides by
    zero; on the graph without nodes the call raises as well, whether
    networkx rejects the graph or returns an empty tree. *)
Lemma edgeless_graph_empty_targets_raises :
  compute_path_coverings (nx:=nx_single) hash0 G_single [] 1 = Raise ZeroDivisionError ∧
  compute_path_coverings (nx:=nx_pointless) hash0 empty_graph [] 1
    = Raise (NetworkX NetworkXPointlessConcept) ∧
  compute_path_coverings (nx:=nx_table (Ok empty_graph) [] []) hash0 empty_graph [] 1
    = Raise ZeroDivisionError.
Proof. split_and!; reflexivity. Qed.

Lemma py_index_head {A} (x : A) (l : list A) : py_index (x :: l) 0 = Ok x.
Proof.
  unfold py_index. simpl length.
  destruct (Z.leb_spec (Z.of_nat (S (length l))) 0); [lia|]. done.
Qed.

Lemma arborescence_one_source (T : DiGraph) :
  is_arborescence T →
  size (list_to_set (nodes T) ∖ list_to_set (edges T).*2 : gset Z) = 1%nat.
Proof.
  intros (Hnodes & Hedges & Hends & Hin & Hcount).
  assert (Hsnd : NoDup (edges T).*2).
  { apply NoDup_fmap_2_strong; [|done].
    intros [u v] [u' v'] H1 H2 Heq. simpl in Heq. subst v'.
    f_equal. by eapply Hin. }
  rewrite size_difference.
  - rewrite !size_list_to_set by done. rewrite length_fmap. lia.
  - intros v Hv%elem_of_list_to_set. apply list_elem_of_fmap in Hv as ([u v'] & -> & He).
    apply elem_of_list_to_set. by apply (Hends u v').
Qed.

Lemma source_iff (T : DiGraph) (n : Z) :
  n ∈ (list_to_set (nodes T) ∖ list_to_set (edges T).*2 : gset Z) ↔
  n ∈ nodes T ∧ ¬ has_inbound T n.
Proof.
  rewrite elem_of_difference, !elem_of_list_to_set, list_elem_of_fmap.
  unfold has_inbound. split; intros [Hn Hno]; (split; [done|]).
  - intros [u Hu]. apply Hno. by exists (u, n).
  - intros ([u v] & -> & He). apply Hno. by exists u.
Qed.

Section RootClaims.
Context `{nx : Networkx}.

(** C6 (as amended): when networkx returns an arborescence of the graph
    and a topological order of it, the root the code takes is the first
    node of that order, and it is the unique node without inbound tree
    edge.  No designated initial state takes part, and the stage never
    raises a [NoRootError]. *)
Theorem root_is_unique_source G mst order :
  minimum_spanning_arborescence G = Ok mst →
  edges G ≠ [] →
  topological_sort mst = Ok order →
  is_arborescence mst →
  is_topological_order mst order →
  ∃ root_node,
    arborescence_root G = Ok (mst, root_node) ∧
    head order = Some root_node ∧
    root_node ∈ nodes mst ∧
    ¬ has_inbound mst root_node ∧
    (∀ n, n ∈ nodes mst → ¬ has_inbound mst n → n = root_node) ∧
    ¬ raises (arborescence_root G) "NoRootError".
Proof.
  intros Hmst Hedges Htopo Harb [Hperm Hord].
  destruct order as [|root_node rest].
  { destruct Harb as (_ & _ & _ & _ & Hcount).
    apply Permutation_length in Hperm. simpl in Hperm. lia. }
  assert (Hrun : arborescence_root G = Ok (mst, root_node)).
  { unfold arborescence_root. rewrite Hmst. simpl. unfold py_truediv.
    destruct (Z.eqb_spec (len (edges G)) 0) as [Hz|_].
    { destruct (edges G); [done|]. unfold len in Hz. simpl in Hz. lia. }
    simpl. rewrite Htopo. cbn -[py_index]. by rewrite py_index_head. }
  assert (Hroot : root_node ∈ nodes mst) by (rewrite <- Hperm; by left).
  assert (Hsrc : ¬ has_inbound mst root_node).
  { intros [u Hu]. destruct Harb as (_ & _ & Hends & _).
    destruct (Hends u root_node Hu) as [Hu' _]. rewrite <- Hperm in Hu'.
    apply list_elem_of_lookup in Hu' as [i Hi].
    specialize (Hord i 0%nat u root_node Hi eq_refl Hu). lia. }
  exists root_node. split_and!; try done.
  - intros n Hn Hnsrc.
    destruct (size_1_elem_of _ (arborescence_one_source mst Harb)) as [x Hx].
    assert (H1 : n ∈ ({[x]} : gset Z)) by (rewrite <- Hx; by apply source_iff).
    assert (H2 : root_node ∈ ({[x]} : gset Z)) by (rewrite <- Hx; by apply source_iff).
    set_solver.
  - apply no_such_exception. by intros [| | | | |[]].
Qed.
End RootClaims.

Lemma root_is_unique_source_witness :
  ∃ root_node,
    arborescence_root (nx:=nx_abcd) G_abcd = Ok (G_abcd, root_node) ∧
    head [1; 2; 3; 4] = Some root_node ∧
    root_node ∈ nodes G_abcd ∧
    ¬ has_inbound G_abcd root_node ∧
    (∀ n, n ∈ nodes G_abcd → ¬ has_inbound G_abcd n → n = root_node) ∧
    ¬ raises (arborescence_root (nx:=nx_abcd) G_abcd) "NoRootError".
Proof.
  apply (root_is_unique_source (nx:=nx_abcd) G_abcd G_abcd [1; 2; 3; 4]).
  - reflexivity.
  - vm_compute. discriminate.
  - reflexivity.
  - unfold is_arborescence. vm_compute nodes. vm_compute edges. split_and!.
    + repeat constructor; set_solver.
    + repeat constructor; set_solver.
    + intros u v Hin. set_solver.
    + intros u u' v Hin Hin'. set_solver.
    + reflexivity.
  - split; [done|]. vm_compute edges.
    intros i j u v Hi Hj Hin.
    repeat (apply elem_of_cons in Hin as [[= -> ->]|Hin];
      [destruct i as [|[|[|[|[|?]]]]]; simplify_eq/=;
       destruct j as [|[|[|[|[|?]]]]]; simplify_eq/=; lia|]).
    by apply elem_of_nil in Hin.
Defined.

(** C6 as stated fails.  On the graph without nodes no root exists, and on
    the graph 1 -> 3, 2 -> 3 two nodes have no inbound edge; the stage fails
    with the exception of networkx (or with the division of line 90), not
    with a [NoRootError]. *)
Lemma root_failure_is_not_NoRootError :
  nodes empty_graph = [] ∧
  arborescence_root (nx:=nx_pointless) empty_graph
    = Raise (NetworkX NetworkXPointlessConcept) ∧
  arborescence_root (nx:=nx_table (Ok empty_graph) [] []) empty_graph
    = Raise ZeroDivisionError ∧
  ¬ has_inbound G_two_sources 1 ∧ ¬ has_inbound G_two_sources 2 ∧
  arborescence_root (nx:=nx_no_arborescence) G_two_sources
    = Raise (NetworkX NetworkXException) ∧
  ¬ raises (arborescence_root (nx:=nx_pointless) empty_graph) "NoRootError" ∧
  ¬ raises (arborescence_root (nx:=nx_no_arborescence) G_two_sources) "NoRootError".
Proof.
  split_and!; try reflexivity.
  - intros [u Hu]. vm_compute edges in Hu. set_solver.
  - intros [u Hu]. vm_compute edges in Hu. set_solver.
  - apply no_such_exception. by intros [| | | | |[]].
  - apply no_such_exception. by intros [| | | | |[]].
Qed.

(** ** Facts about the translator *)

Lemma not_action_kind (name c : string) :
  name ∉ action_kinds → c ∈ action_kinds → String.eqb name c = false.
Proof. intros Hn Hc. apply String.eqb_neq. intros ->. by apply Hn. Qed.

Lemma wt_call_text_unknown action_name action_args tid ip :
  action_name ∉ action_kinds →
  wt_call_text action_name action_args tid ip
    = Ok (replace "mdbtxn" "transaction_" (lower action_name)).
Proof.
  intros Hn. unfold wt_call_text.
  rewrite !(not_action_kind action_name) by (done || (unfold action_kinds; set_solver)).
  done.
Qed.

Lemma compact_lines_unknown action_name action_args tid ip res_expected err_code :
  action_name ∉ action_kinds →
  compact_lines action_name action_args tid ip res_expected err_code = Ok None.
Proof.
  intros Hn. unfold compact_lines.
  rewrite !(not_action_kind action_name) by (done || (unfold action_kinds; set_solver)).
  done.
Qed.

(** C2 (as amended): for an action name outside the eleven names, the
    translator does not fail on account of the name.  Whenever the steps that
    do not depend on the name succeed (transaction status, ignore-prepare
    option, timestamps), it returns the generic try/except block around the
    lower-cased name, followed by the assertion on the outcome and the
    timestamp check.  No [UnknownActionError] is raised. *)
Theorem unknown_action_generic pre action_name action_args post tid err_code ip ts :
  action_name ∉ action_kinds →
  txn_status action_args post = Ok (tid, err_code) →
  ignore_prepare_of action_args = Ok ip →
  timestamp_lines post = Ok ts →
  make_wt_action pre action_name action_args post
    = Ok (try_block (replace "mdbtxn" "transaction_" (lower action_name))
          ++ (result_assertions action_name err_code).1 ++ ts) ∧
  ¬ raises (make_wt_action pre action_name action_args post) "UnknownActionError".
Proof.
  intros Hn Hst Hip Hts.
  assert (Hrun : make_wt_action pre action_name action_args post
    = Ok (try_block (replace "mdbtxn" "transaction_" (lower action_name))
          ++ (result_assertions action_name err_code).1 ++ ts)).
  { unfold make_wt_action. rewrite Hst. cbn [mbind result_bind]. rewrite Hip.
    cbn [mbind result_bind]. rewrite wt_call_text_unknown by done.
    cbn [mbind result_bind].
    destruct (result_assertions action_name err_code) as [asserts res_expected].
    rewrite compact_lines_unknown by done. cbn [mbind result_bind].
    rewrite Hts. cbn [mbind result_bind fst]. by rewrite <- app_assoc. }
  split; [done|]. rewrite Hrun. by intros (e & ? & _).
Qed.

Lemma unknown_action_generic_witness :
  make_wt_action PNone "Checkpoint" (PDict []) (example_post (PStr "OK"))
    = Ok (try_block (replace "mdbtxn" "transaction_" (lower "Checkpoint"))
          ++ (result_assertions "Checkpoint" PNone).1 ++ []) ∧
  ¬ raises (make_wt_action PNone "Checkpoint" (PDict []) (example_post (PStr "OK")))
      "UnknownActionError".
Proof.
  apply (unknown_action_generic PNone "Checkpoint" (PDict []) (example_post (PStr "OK"))
           (PStr "") PNone "false" []).
  - unfold action_kinds. set_solver.
  - reflexivity.
  - reflexivity.
  - reflexivity.
Defined.

(** C2 as stated fails: the action name "Checkpoint" is none of the eleven,
    and the translator returns the generic block instead of failing. *)
Lemma unknown_action_is_translated :
  ("Checkpoint" ∉ action_kinds) ∧
  make_wt_action PNone "Checkpoint" (PDict []) (example_post (PStr "OK"))
    = Ok [ "res,sret = None,None";
           "try:";
           "    checkpoint";
           "except wiredtiger.WiredTigerError as e:";
           "    res = e";
           "self.assertEquals(res, None)" ].
Proof. split; [unfold action_kinds; set_solver|reflexivity]. Qed.

Lemma pretty_N_go_not_N (x : N) (s t : string) :
  (∀ t', s ≠ String "N" t') → pretty_N_go x s ≠ String "N" t.
Proof.
  revert s. induction (N.lt_wf_0 x) as [x _ IH]; intros s Hs.
  assert (x = 0 ∨ 0 < x)%N as [->|?] by lia.
  - rewrite pretty_N_go_0. apply Hs.
  - rewrite pretty_N_go_step by done. apply IH.
    { by apply N.div_lt. }
    intros t'. unfold pretty_N_char. by repeat case_match.
Qed.

(** The text of a JSON value is [NoValue] only for the string [NoValue]:
    the comparison of line 179 and a comparison of the text that line 236
    puts into the call give the same answer. *)
Lemma py_str_NoValue (v : pyval) : String.eqb (py_str v) "NoValue" = py_eq_str v "NoValue".
Proof.
  destruct v as [|[]|z|s|l|d]; try done.
  apply String.eqb_neq. unfold py_str, py_repr.
  destruct z as [|p|p]; try done.
  unfold pretty, pretty_Z, pretty, pretty_positive, pretty, pretty_N.
  case_decide; [done|]. apply pretty_N_go_not_N. done.
Qed.

(** C5: for a read, the statement block the translator returns is the call
    [self.transaction_read(tid, k, v, res_expected, err_code)] of the test
    helper, which gets the value parameter as its value, followed by the
    timestamp check; with the helper as the specification describes it, the
    block asserts a not-found result when the value parameter is [NoValue],
    and it asserts that the value read equals the value parameter
    otherwise.  The call text the translator builds on the way (lines
    177-182) holds the same assertion written out. *)
Theorem read_translation pre action_args post tid err_code ip ts k v :
  py_getkey action_args "k" = Ok k →
  py_getkey action_args "v" = Ok v →
  txn_status action_args post = Ok (tid, err_code) →
  ignore_prepare_of action_args = Ok ip →
  timestamp_lines post = Ok ts →
  make_wt_action pre "TransactionRead" action_args post
    = Ok (read_compact_line tid k v (result_assertions "TransactionRead" err_code).2 err_code
          :: ts) ∧
  transaction_read (py_str tid) (py_str k) (py_str v)
      (result_assertions "TransactionRead" err_code).2 (py_str err_code)
    = (if py_eq_str v "NoValue" then AssertNotFound else AssertValueEquals (py_str v)) ∧
  wt_call_text "TransactionRead" action_args tid ip
    = Ok (read_search_text tid k +:+
          (if py_eq_str v "NoValue"
           then ";self.assertEquals(sret, wiredtiger.WT_NOTFOUND)"
           else ";self.assertEquals(" +:+ txn_cursor_of tid +:+ ".get_value(), "
                +:+ q +:+ py_str v +:+ q +:+ ")")).
Proof.
  intros Hk Hv Hst Hip Hts.
  assert (Htext : wt_call_text "TransactionRead" action_args tid ip
    = Ok (read_search_text tid k +:+
          (if py_eq_str v "NoValue"
           then ";self.assertEquals(sret, wiredtiger.WT_NOTFOUND)"
           else ";self.assertEquals(" +:+ txn_cursor_of tid +:+ ".get_value(), "
                +:+ q +:+ py_str v +:+ q +:+ ")"))).
  { unfold wt_call_text. cbv zeta. cbn [String.eqb Ascii.eqb Bool.eqb].
    rewrite Hk. cbn [mbind result_bind]. rewrite Hv. cbn [mbind result_bind].
    by destruct (py_eq_str v "NoValue"). }
  split_and!; [|by unfold transaction_read; rewrite py_str_NoValue|done].
  unfold make_wt_action. rewrite Hst. cbn [mbind result_bind]. rewrite Hip.
  cbn [mbind result_bind]. rewrite Htext. cbn [mbind result_bind].
  destruct (result_assertions "TransactionRead" err_code) as [asserts res_expected].
  unfold compact_lines. cbv zeta. cbn [String.eqb Ascii.eqb Bool.eqb].
  rewrite Hk. cbn [mbind result_bind]. rewrite Hv. cbn [mbind result_bind].
  rewrite Hts. done.
Qed.

Lemma read_translation_witness :
  make_wt_action PNone "TransactionRead" (read_args "NoValue") (example_post (PStr "WT_NOTFOUND"))
    = Ok (read_compact_line (PStr "t1") (PStr "k1") (PStr "NoValue")
            (result_assertions "TransactionRead" (PStr "WT_NOTFOUND")).2 (PStr "WT_NOTFOUND")
          :: []) ∧
  transaction_read (py_str (PStr "t1")) (py_str (PStr "k1")) (py_str (PStr "NoValue"))
      (result_assertions "TransactionRead" (PStr "WT_NOTFOUND")).2 (py_str (PStr "WT_NOTFOUND"))
    = (if py_eq_str (PStr "NoValue") "NoValue"
       then AssertNotFound else AssertValueEquals (py_str (PStr "NoValue"))) ∧
  wt_call_text "TransactionRead" (read_args "NoValue") (PStr "t1") "false"
    = Ok (read_search_text (PStr "t1") (PStr "k1") +:+
          (if py_eq_str (PStr "NoValue") "NoValue"
           then ";self.assertEquals(sret, wiredtiger.WT_NOTFOUND)"
           else ";self.assertEquals(" +:+ txn_cursor_of (PStr "t1") +:+ ".get_value(), "
                +:+ q +:+ py_str (PStr "NoValue") +:+ q +:+ ")")).
Proof.
  apply (read_translation PNone (read_args "NoValue") (example_post (PStr "WT_NOTFOUND"))
           (PStr "t1") (PStr "WT_NOTFOUND") "false" [] (PStr "k1") (PStr "NoValue"));
    reflexivity.
Defined.

(** ** Facts about the loader *)

Lemma add_node_nodes (n m : Z) (G : DiGraph) :
  m ∈ nodes (add_node n G) ↔ m = n ∨ m ∈ nodes G.
Proof.
  unfold add_node. case_bool_decide; simpl; [set_solver|].
  rewrite elem_of_app, list_elem_of_singleton. tauto.
Qed.

Lemma add_node_edges (n : Z) (G : DiGraph) : edges (add_node n G) = edges G.
Proof. unfold add_node. by case_bool_decide. Qed.

Lemma add_edge_nodes (u v m : Z) (G : DiGraph) :
  m ∈ nodes (add_edge u v G) ↔ m = u ∨ m = v ∨ m ∈ nodes G.
Proof.
  unfold add_edge. case_bool_decide; simpl; rewrite !add_node_nodes; tauto.
Qed.

Lemma add_edge_edges (u v : Z) (x : Z * Z) (G : DiGraph) :
  x ∈ edges (add_edge u v G) ↔ x = (u, v) ∨ x ∈ edges G.
Proof.
  unfold add_edge. rewrite !add_node_edges.
  case_bool_decide as Hin; simpl; rewrite ?add_node_edges.
  - split; [tauto|]. by intros [->|?].
  - rewrite elem_of_app, list_elem_of_singleton. tauto.
Qed.

Lemma loaded_graph_edges (json_edges : list json_edge) (G0 : DiGraph) (e : json_edge) :
  e ∈ json_edges →
  let G := foldl (λ G edge, add_edge (e_from edge) (e_to edge) G) G0 json_edges in
  (e_from e, e_to e) ∈ edges G ∧ e_from e ∈ nodes G ∧ e_to e ∈ nodes G.
Proof.
  induction json_edges as [|x l IH] using rev_ind; [by intros ?%elem_of_nil|].
  intros He. simpl. rewrite foldl_app. simpl.
  rewrite add_edge_edges, !add_edge_nodes.
  apply elem_of_app in He as [He| ->%list_elem_of_singleton]; [|tauto].
  destruct (IH He) as (? & ? & ?). tauto.
Qed.

Lemma loaded_edge_actions (json_edges : list json_edge) (k : Z * Z) :
  let m := foldl (λ m edge, <[(e_from edge, e_to edge) := edge]> m)
                 (∅ : gmap (Z * Z) json_edge) json_edges in
  (∀ e, m !! k = Some e → e ∈ json_edges ∧ (e_from e, e_to e) = k) ∧
  ((∃ e, e ∈ json_edges ∧ (e_from e, e_to e) = k) → is_Some (m !! k)).
Proof.
  induction json_edges as [|x l IH] using rev_ind; simpl.
  { split; [by intros e ?|]. by intros (e & ?%elem_of_nil & _). }
  rewrite foldl_app. simpl. destruct IH as [IH1 IH2]. split.
  - intros e [[<- <-]|[Hne He]]%lookup_insert_Some.
    + split; [|done]. apply elem_of_app. right. by left.
    + destruct (IH1 e He). split; [|done]. apply elem_of_app. by left.
  - intros (e & [He| ->%list_elem_of_singleton]%elem_of_app & Hk);
      apply lookup_insert_is_Some.
    + destruct (decide ((e_from x, e_to x) = k)); [by left|right]. split; [done|]. eauto.
    + by left.
Qed.

Lemma loaded_node_map (json_states : list json_state) (fp : Z) :
  let m := foldl (λ m node, <[s_fp node := s_val node]> m) (∅ : gmap Z pyval) json_states in
  is_Some (m !! fp) ↔ ∃ s, s ∈ json_states ∧ s_fp s = fp.
Proof.
  induction json_states as [|x l IH] using rev_ind; simpl.
  { rewrite lookup_empty. split; [by intros [? ?]|]. by intros (s & ?%elem_of_nil & _). }
  rewrite foldl_app. simpl. rewrite lookup_insert_is_Some, IH. split.
  - intros [<-|[_ (s & Hs & <-)]].
    + exists x. split; [|done]. apply elem_of_app. right. by left.
    + exists s. split; [|done]. apply elem_of_app. by left.
  - intros (s & [Hs| ->%list_elem_of_singleton]%elem_of_app & <-).
    + destruct (decide (s_fp x = s_fp s)); [by left|right]. split; [done|]. eauto.
    + by left.
Qed.

(** What a dict filled by a loop of assignments holds under a key: the
    value of the last element listed with that key. *)
Lemma insert_fold_last {A} `{Countable K} {V} (key : A → K) (val : A → V)
    (l : list A) (k : K) (v : V) :
  foldl (λ m x, <[key x := val x]> m) (∅ : gmap K V) l !! k = Some v ↔
  ∃ l1 x l2, l = l1 ++ x :: l2 ∧ key x = k ∧ val x = v ∧ ∀ y, y ∈ l2 → key y ≠ k.
Proof.
  induction l as [|a l IH] using rev_ind.
  { simpl. rewrite lookup_empty. split; [done|].
    intros (l1 & x & l2 & Heq & _). by destruct l1. }
  rewrite foldl_app. simpl. rewrite lookup_insert_Some, IH. split.
  - intros [[Hk Hv]|[Hk (l1 & x & l2 & -> & Hx & Hxv & Hl2)]].
    + exists l, a, []. split_and!; try done. by intros y ?%elem_of_nil.
    + exists l1, x, (l2 ++ [a]). split_and!; try done.
      * by rewrite <- app_assoc.
      * intros y [Hy| ->%list_elem_of_singleton]%elem_of_app; [by apply Hl2|done].
  - intros (l1 & x & l2 & Heq & Hx & Hxv & Hl2).
    destruct l2 as [|b l2 _] using rev_ind.
    + apply app_inj_tail in Heq as [-> ->]. by left.
    + rewrite app_comm_cons, app_assoc in Heq. apply app_inj_tail in Heq as [-> ->].
      right. split.
      * apply Hl2. apply elem_of_app. right. by left.
      * exists l1, x, l2. split_and!; try done.
        intros y Hy. apply Hl2. apply elem_of_app. by left.
Qed.

(** C7 (as amended): the loader checks nothing and fails on no input.  It
    returns the graph of all the edges listed, endpoints included whether or
    not the states document has them; the edge-label dict holds, under each
    listed pair of endpoints, the last edge listed with them; the node dict
    holds, under each listed fingerprint, the snapshot of the last state
    listed with it, as it comes and whatever its fields; and it never
    raises a [MalformedGraphError]. *)
Theorem loader_accepts_every_input json_edges json_states :
  ∃ G node_map edge_actions,
    parse_json_state_graph json_edges json_states = Ok (G, node_map, edge_actions) ∧
    (∀ e, e ∈ json_edges →
       (e_from e, e_to e) ∈ edges G ∧ e_from e ∈ nodes G ∧ e_to e ∈ nodes G ∧
       is_Some (edge_actions !! (e_from e, e_to e))) ∧
    edge_actions_consistent edge_actions ∧
    (∀ f t e, edge_actions !! (f, t) = Some e ↔
       ∃ l1 l2, json_edges = l1 ++ e :: l2 ∧ (e_from e, e_to e) = (f, t) ∧
                ∀ e', e' ∈ l2 → (e_from e', e_to e') ≠ (f, t)) ∧
    (∀ fp, is_Some (node_map !! fp) ↔ ∃ s, s ∈ json_states ∧ s_fp s = fp) ∧
    (∀ fp snapshot, node_map !! fp = Some snapshot ↔
       ∃ k1 s k2, json_states = k1 ++ s :: k2 ∧ s_fp s = fp ∧ s_val s = snapshot ∧
                  ∀ s', s' ∈ k2 → s_fp s' ≠ fp) ∧
    ¬ raises (parse_json_state_graph json_edges json_states) "MalformedGraphError".
Proof.
  unfold parse_json_state_graph. do 3 eexists. split; [reflexivity|]. split_and!.
  - intros e He. destruct (loaded_graph_edges json_edges empty_graph e He) as (? & ? & ?).
    split_and!; try done.
    apply (loaded_edge_actions json_edges (e_from e, e_to e)). eauto.
  - intros f t e He.
    destruct (loaded_edge_actions json_edges (f, t)) as [H1 _].
    destruct (H1 e He) as [_ [= <- <-]]. done.
  - intros f t e.
    rewrite (insert_fold_last (λ e, (e_from e, e_to e)) (λ e, e) json_edges (f, t) e).
    split.
    + intros (l1 & x & l2 & Heq & Hk & -> & Hl2). by exists l1, l2.
    + intros (l1 & l2 & Heq & Hk & Hl2). by exists l1, e, l2.
  - apply loaded_node_map.
  - intros fp snapshot. apply (insert_fold_last s_fp s_val).
  - by intros (e & ? & _).
Qed.

(** The loader on the documents of the graph 1 -> 2. *)
Example loader_on_edge12 :
  parse_json_state_graph [edge12] states12 = Ok (G12, node_map12, edge_actions12).
Proof. reflexivity. Qed.

(** C7 as stated fails: the edge 1 -> 2 with an empty states document, and
    the same edge with snapshots that have no field at all, are both loaded
    without error. *)
Lemma loader_accepts_malformed_input :
  parse_json_state_graph [edge12] [] = Ok (G12, ∅, edge_actions12) ∧
  returns (parse_json_state_graph [edge12]
             [ {| s_fp := 1; s_val := PDict [] |}; {| s_fp := 2; s_val := PDict [] |} ]) ∧
  ¬ raises (parse_json_state_graph [edge12] []) "MalformedGraphError".
Proof.
  split_and!.
  - reflexivity.
  - eexists. reflexivity.
  - by intros (e & ? & _).
Qed.

(** ** Facts about traces *)


Lemma pyval_eqb_eq (a b : pyval) : pyval_eqb a b = true ↔ a = b.
Proof.
  revert b. induction a as [|x|x|x|l IH|d IH] using pyval_nested_ind; intros b.
  - destruct b; simpl; split; congruence.
  - destruct b; simpl; try (split; congruence).
    rewrite Bool.eqb_true_iff. split; congruence.
  - destruct b; simpl; try (split; congruence).
    rewrite Z.eqb_eq. split; congruence.
  - destruct b; simpl; try (split; congruence).
    rewrite String.eqb_eq. split; congruence.
  - destruct b as [| | | |l2|]; simpl; try (split; congruence).
    revert l2. induction IH as [|x l Hx _ IHl]; intros [|y l2]; try (split; congruence).
    rewrite andb_true_iff, Hx, IHl. split; [intros [-> [= ->]]|intros [= -> ->]]; done.
  - destruct b as [| | | | |d2]; simpl; try (split; congruence).
    revert d2. induction IH as [|[k x] d Hx _ IHd]; intros [|[k2 y] d2];
      try (split; congruence).
    simpl in Hx. rewrite !andb_true_iff, String.eqb_eq, Hx, IHd.
    split; [intros [[-> ->] [= ->]]|intros [= -> -> ->]]; done.
Qed.

Lemma find_unique {A} (f : A → bool) (l : list A) (x : A) :
  x ∈ l → f x = true → (∀ y, y ∈ l → f y = true → y = x) → List.find f l = Some x.
Proof.
  induction l as [|y l IH]; [by intros ?%elem_of_nil|].
  intros Hx Hfx Huniq. simpl. destruct (f y) eqn:Hfy.
  - f_equal. apply Huniq; [by left|done].
  - apply IH; [|done|].
    + apply elem_of_cons in Hx as [->|?]; [congruence|done].
    + intros z Hz. apply Huniq. by right.
Qed.

Lemma node_of_state_lookup (node_map : gmap Z pyval) (i : pyval) (n : Z) (v : pyval) :
  (∀ n1 n2 v, node_map !! n1 = Some v → node_map !! n2 = Some v → n1 = n2) →
  node_map !! n = Some v →
  node_of_state node_map (PList [i; v]) = Some n.
Proof.
  intros Hinj Hn. unfold node_of_state.
  rewrite (find_unique _ _ (n, v)); [done| | |].
  - by apply elem_of_map_to_list.
  - by apply pyval_eqb_eq.
  - intros [n' v'] Hin%elem_of_map_to_list Heq%pyval_eqb_eq. simpl in Heq. subst v'.
    f_equal. by eapply Hinj.
Qed.

Lemma path_edges_nodes (cpath : path) (e : Z * Z) :
  e ∈ path_edges cpath → e.1 ∈ cpath ∧ e.2 ∈ cpath.
Proof.
  induction cpath as [|a [|b r] IH]; simpl; try by intros ?%elem_of_nil.
  intros [->|He]%elem_of_cons; simpl.
  - split; [by left|]. right. by left.
  - destruct (IH He). split; by right.
Qed.

Lemma path_edges_snd (a : Z) (r : path) : (path_edges (a :: r)).*2 = r.
Proof.
  revert a. induction r as [|b r IH]; intros a; [done|].
  change (path_edges (a :: b :: r)) with ((a, b) :: path_edges (b :: r)).
  rewrite fmap_cons. by rewrite IH.
Qed.

Lemma traverse_Forall2 {A B C} (f : B → result C) (Q : A → B → Prop) (P : A → C → Prop)
    (l0 : list A) (l : list B) :
  Forall2 Q l0 l →
  (∀ x0 x, Q x0 x → ∃ y, f x = Ok y ∧ P x0 y) →
  ∃ r, traverse f l = Ok r ∧ Forall2 P l0 r.
Proof.
  intros HQ Hf. induction HQ as [|x0 x l0 l Hx _ IH]; simpl.
  - by exists [].
  - destruct (Hf x0 x Hx) as (y & -> & Hy). destruct IH as (r & -> & Hr).
    exists (y :: r). simpl. split; [done|]. by constructor.
Qed.

Lemma Forall2_diag_elem {A} (l l' : list A) :
  l ⊆ l' → Forall2 (λ x y, x = y ∧ x ∈ l') l l.
Proof.
  induction l as [|x l IH]; intros Hsub; constructor.
  - split; [done|]. apply Hsub. by left.
  - apply IH. intros y Hy. apply Hsub. by right.
Qed.

(** C9 (as amended): for a path of at least two nodes whose consecutive
    pairs all have an edge label stored under its own endpoints, whose nodes
    all have a snapshot, and when different nodes have different snapshots,
    the trace is built, has one step per edge, and reading the nodes back from
    its states gives the path. *)
Theorem trace_round_trip node_map edge_actions cpath :
  (2 ≤ length cpath)%nat →
  edge_actions_consistent edge_actions →
  (∀ e, e ∈ path_edges cpath → is_Some (edge_actions !! e)) →
  (∀ n, n ∈ cpath → is_Some (node_map !! n)) →
  (∀ n1 n2 v, node_map !! n1 = Some v → node_map !! n2 = Some v → n1 = n2) →
  ∃ t, build_trace node_map edge_actions cpath = Ok t ∧
       length (action t) = (length cpath - 1)%nat ∧
       trace_nodes node_map t = Some cpath.
Proof.
  intros Hlen Hcons Hedges Hnodes Hinj.
  destruct cpath as [|a [|b r]]; simpl in Hlen; try lia.
  set (cpath := a :: b :: r) in *.
  (* the labels of the edges *)
  destruct (traverse_Forall2 (map_get edge_actions)
              (λ e e', e = e' ∧ e ∈ path_edges cpath)
              (λ e act, e ∈ path_edges cpath ∧ e_from act = e.1 ∧ e_to act = e.2)
              (path_edges cpath) (path_edges cpath)) as (acts & Hacts & HF1).
  { by apply Forall2_diag_elem. }
  { intros e ? [<- He]. destruct (Hedges e He) as [act Hact].
    exists act. unfold map_get. rewrite Hact.
    destruct e as [f t]. by destruct (Hcons f t act Hact). }
  (* the steps *)
  destruct (traverse_Forall2
              (λ act,
                 pre ← map_get node_map (e_from act);
                 post ← map_get node_map (e_to act);
                 Ok {| pre_state := PList [PInt 1; pre];
                       trans := {| t_name := e_act act;
                                   t_context := Some (e_params act);
                                   t_parameters := None |};
                       post_state := PList [PInt 2; post] |})
              (λ e act, e ∈ path_edges cpath ∧ e_from act = e.1 ∧ e_to act = e.2)
              (λ e s, node_of_state node_map (pre_state s) = Some e.1 ∧
                      node_of_state node_map (post_state s) = Some e.2)
              (path_edges cpath) acts HF1) as (steps & Hsteps & HF2).
  { intros e act (He & Hf & Ht). destruct (path_edges_nodes cpath e He) as [H1 H2].
    destruct (Hnodes _ H1) as [v1 Hv1], (Hnodes _ H2) as [v2 Hv2].
    eexists. unfold map_get. rewrite Hf, Ht, Hv1, Hv2. simpl.
    split; [done|]. cbn [pre_state post_state]. split; by apply node_of_state_lookup. }
  exists {| action := steps |}. split_and!.
  - unfold build_trace. rewrite Hacts. simpl. by rewrite Hsteps.
  - simpl. apply Forall2_length in HF2. rewrite <- HF2.
    rewrite <- (length_fmap snd). subst cpath. rewrite path_edges_snd. simpl. lia.
  - unfold trace_nodes. simpl.
    assert (Hrest : mapM (λ s, node_of_state node_map (post_state s)) steps
                    = Some (path_edges cpath).*2).
    { apply mapM_Some_2, Forall2_fmap_r, Forall2_flip.
      eapply Forall2_impl; [exact HF2|]. by intros e s [_ ?]. }
    subst cpath. rewrite path_edges_snd in Hrest.
    change (path_edges (a :: b :: r)) with ((a, b) :: path_edges (b :: r)) in HF2.
    destruct steps as [|s steps]; [by inversion HF2|].
    apply Forall2_cons in HF2 as [[Hpre _] _]. cbn [pre_state] in *.
    rewrite Hpre. cbn [mbind option_bind]. by rewrite Hrest.
Qed.

Lemma trace_round_trip_witness :
  ∃ t, build_trace node_map12 edge_actions12 [1; 2] = Ok t ∧
       length (action t) = (length [1; 2] - 1)%nat ∧
       trace_nodes node_map12 t = Some [1; 2].
Proof.
  apply (trace_round_trip node_map12 edge_actions12 [1; 2]).
  - simpl. lia.
  - intros f t e. unfold edge_actions12.
    rewrite lookup_insert_Some, lookup_empty. by intros [[[= <- <-] <-]|[_ ?]].
  - intros e ->%list_elem_of_singleton. by eexists.
  - intros n Hn. assert (n = 1 ∨ n = 2) as [-> | ->] by set_solver; by eexists.
  - intros n1 n2 v. unfold node_map12.
    rewrite !lookup_insert_Some, !lookup_empty.
    intros [[<- <-]|[_ [[<- <-]|[_ ?]]]] [[<- ?]|[_ [[<- ?]|[_ ?]]]]; done.
Defined.

(** A single-node path has no edge: its trace is empty. *)
Lemma build_trace_single node_map edge_actions (n : Z) :
  build_trace node_map edge_actions [n] = Ok {| action := [] |}.
Proof. reflexivity. Qed.

(** C9 as stated fails: a path of a single node has no consecutive pair, its
    trace is empty, and the paths [1] and [2] have the same trace, so no way
    of reading the nodes back gives both. *)
Lemma single_node_paths_are_lost :
  ¬ ∃ extract : trace → path,
      ∀ cpath, (∀ e, e ∈ path_edges cpath → is_Some (edge_actions12 !! e)) →
               ∃ t, build_trace node_map12 edge_actions12 cpath = Ok t ∧ extract t = cpath.
Proof.
  intros [extract Hex].
  destruct (Hex [1]) as (t1 & Ht1 & He1); [by intros e ?%elem_of_nil|].
  destruct (Hex [2]) as (t2 & Ht2 & He2); [by intros e ?%elem_of_nil|].
  rewrite build_trace_single in Ht1, Ht2. congruence.
Qed.

(** ** Facts about the emitter *)

Lemma py_slice_to_nonneg {A} (l : list A) (n : Z) :
  0 ≤ n → py_slice_to l n = take (Z.to_nat n) l.
Proof. intros Hn. unfold py_slice_to. by destruct (Z.ltb_spec n 0); [lia|]. Qed.

Lemma py_index_nat {A} (l : list A) (i : nat) :
  py_index l (Z.of_nat i)
  = match l !! i with Some x => Ok x | None => Raise IndexError end.
Proof.
  assert (Hlt : (Z.of_nat i <? 0) = false) by (apply Z.ltb_ge; lia).
  unfold py_index. cbv zeta. rewrite Hlt. cbv iota. rewrite Hlt, Nat2Z.id, orb_false_l.
  destruct (Z.leb_spec (Z.of_nat (length l)) (Z.of_nat i)); [|done].
  rewrite lookup_ge_None_2; [done|lia].
Qed.

Lemma action_labels_of_truncate (n i : nat) (t : trace) :
  (i < n)%nat → action_labels_of (truncate_trace n t) i = action_labels_of t i.
Proof.
  intros Hi. unfold action_labels_of, truncate_trace. simpl action.
  by rewrite !py_index_nat, lookup_take_lt.
Qed.

Lemma label_loop_truncate (n : nat) (t : trace) (compact : bool)
    (wt_actions : list (list string)) (i : nat) :
  (i + length wt_actions ≤ n)%nat →
  label_loop (truncate_trace n t) compact i wt_actions = label_loop t compact i wt_actions.
Proof.
  revert i. induction wt_actions as [|a rest IH]; intros i Hi; [done|].
  simpl in *. rewrite action_labels_of_truncate by lia. rewrite IH by lia. done.
Qed.

Lemma translate_actions_take (t : trace) (max_len : Z) :
  0 ≤ max_len →
  translate_actions t max_len = traverse translate_step (take (Z.to_nat max_len) (action t)).
Proof. intros Hn. unfold translate_actions. by rewrite py_slice_to_nonneg. Qed.

Lemma gen_test_fn_truncate (i : nat) (t : trace) (max_len : Z) (compact : bool) :
  0 ≤ max_len →
  gen_test_fn i (truncate_trace (Z.to_nat max_len) t) max_len compact
  = gen_test_fn i t max_len compact.
Proof.
  intros Hn. unfold gen_test_fn.
  rewrite !translate_actions_take by done. simpl action.
  rewrite take_take, Nat.min_id.
  destruct (traverse translate_step (take (Z.to_nat max_len) (action t))) as [wt|e] eqn:Hwt;
    [|done].
  cbn [mbind result_bind]. rewrite label_loop_truncate; [done|].
  apply traverse_length in Hwt. rewrite Hwt, length_take. lia.
Qed.

Section EmitterClaims.
Variable WT_TEST_TEMPLATE : string.
Variable str_float : Q → string.

Lemma gen_test_fns_truncate (i : nat) (traces : list trace) (max_len : Z) (compact : bool) :
  0 ≤ max_len →
  gen_test_fns i (truncate_trace (Z.to_nat max_len) <$> traces) max_len compact
  = gen_test_fns i traces max_len compact.
Proof.
  intros Hn. revert i. induction traces as [|t rest IH]; intros i; [done|].
  rewrite fmap_cons. simpl. by rewrite gen_test_fn_truncate, IH.
Qed.

End EmitterClaims.

(** * Further properties of the code *)

(** ** [split] *)

Lemma py_slice_inside {A} (l : list A) (s e : Z) :
  0 ≤ s → s ≤ e → e ≤ len l →
  py_slice l s e = take (Z.to_nat (e - s)) (drop (Z.to_nat s) l).
Proof.
  intros Hs Hse He. unfold py_slice, py_norm_index.
  destruct (Z.ltb_spec s 0); [lia|]. destruct (Z.ltb_spec e 0); [lia|].
  by rewrite !Z.min_l by lia.
Qed.

Lemma chunk_start_bounds (L n i : Z) :
  0 ≤ L → 0 < n → 0 ≤ i → i < n →
  0 ≤ chunk_start (L / n) (L mod n) i ∧
  chunk_start (L / n) (L mod n) i ≤ chunk_start (L / n) (L mod n) (i + 1) ∧
  chunk_start (L / n) (L mod n) (i + 1) ≤ L ∧
  chunk_start (L / n) (L mod n) (i + 1) - chunk_start (L / n) (L mod n) i
    = L / n + (if i <? L mod n then 1 else 0).
Proof.
  intros HL Hn Hi Hin. unfold chunk_start.
  pose proof (Z.div_mod L n ltac:(lia)) as Hdm.
  pose proof (Z.mod_pos_bound L n Hn) as Hm.
  assert (Hk : 0 ≤ L / n) by (apply Z.div_pos; lia).
  destruct (Z.ltb_spec i (L mod n)); nia.
Qed.

Lemma split_chunks_take {A} (a : list A) (n : Z) (j : nat) :
  0 < n → Z.of_nat j ≤ n →
  concat ((λ i, py_slice a (chunk_start (len a / n) (len a mod n) i)
                           (chunk_start (len a / n) (len a mod n) (i + 1)))
          <$> seqZ 0 (Z.of_nat j))
  = take (Z.to_nat (chunk_start (len a / n) (len a mod n) (Z.of_nat j))) a.
Proof.
  intros Hn. induction j as [|j IH]; intros Hj.
  { simpl. unfold chunk_start. simpl. by rewrite Z.min_l by
      (pose proof (Z.mod_pos_bound (len a) n Hn); lia). }
  rewrite seqZ_S, Z.add_0_l, fmap_app, concat_app, IH by lia. simpl. rewrite app_nil_r.
  destruct (chunk_start_bounds (len a) n (Z.of_nat j)) as (H0 & H1 & H2 & _);
    [unfold len; lia|lia|lia|lia|].
  rewrite py_slice_inside by done.
  rewrite take_take_drop. f_equal.
  replace (Z.of_nat (S j)) with (Z.of_nat j + 1) by lia. lia.
Qed.

(** X1: for a positive number of chunks, [split] cuts the list into exactly
    [n] consecutive pieces: their concatenation is the list. *)
Theorem split_partition {A} (a : list A) (n : Z) :
  0 < n →
  ∃ chunks, split a n = Ok chunks ∧ length chunks = Z.to_nat n ∧ concat chunks = a.
Proof.
  intros Hn. unfold split. destruct (Z.eqb_spec n 0); [lia|].
  eexists. split; [done|]. split.
  - by rewrite length_fmap, length_seqZ.
  - replace (seqZ 0 n) with (seqZ 0 (Z.of_nat (Z.to_nat n))) by (by rewrite Z2Nat.id by lia).
    rewrite split_chunks_take by lia. rewrite Z2Nat.id by lia.
    apply take_ge. unfold chunk_start.
    pose proof (Z.div_mod (len a) n ltac:(lia)).
    pose proof (Z.mod_pos_bound (len a) n Hn). unfold len in *. lia.
Qed.

Lemma split_partition_witness :
  ∃ chunks, split [1; 2; 3; 4; 5; 6; 7] 3 = Ok chunks ∧
            length chunks = Z.to_nat 3 ∧ concat chunks = [1; 2; 3; 4; 5; 6; 7].
Proof. apply (split_partition [1; 2; 3; 4; 5; 6; 7] 3). lia. Defined.

(** X2: the chunks are nearly equal: chunk [i] has [len(a) // n] elements,
    and one more when [i < len(a) % n]. *)
Theorem split_balanced {A} (a : list A) (n : Z) (chunks : list (list A)) (i : nat)
    (c : list A) :
  0 < n →
  split a n = Ok chunks →
  chunks !! i = Some c →
  len c = len a / n + (if Z.of_nat i <? len a mod n then 1 else 0).
Proof.
  intros Hn. unfold split. destruct (Z.eqb_spec n 0); [lia|].
  intros [= <-]. rewrite list_lookup_fmap.
  destruct (seqZ 0 n !! i) as [x|] eqn:Hx; [|done].
  apply lookup_seqZ in Hx as [-> Hi]. rewrite Z.add_0_l. simpl. intros [= <-].
  destruct (chunk_start_bounds (len a) n (Z.of_nat i)) as (H0 & H1 & H2 & H3);
    [unfold len; lia|lia|lia|lia|].
  rewrite py_slice_inside by done.
  unfold len at 1. rewrite length_take, length_drop. unfold len in *.
  destruct (Z.of_nat i <? Z.of_nat (length a) `mod` n); lia.
Qed.

Lemma split_balanced_witness :
  len [4; 5] = len [1; 2; 3; 4; 5; 6; 7] / 3
               + (if Z.of_nat 1 <? len [1; 2; 3; 4; 5; 6; 7] mod 3 then 1 else 0).
Proof.
  apply (split_balanced [1; 2; 3; 4; 5; 6; 7] 3 [[1; 2; 3]; [4; 5]; [6; 7]] 1 [4; 5]).
  - lia.
  - reflexivity.
  - reflexivity.
Defined.

(** X3: with zero chunks [split] raises [ZeroDivisionError]; with a negative
    number it returns no chunk at all, whatever the list holds. *)
Theorem split_no_chunks {A} (a : list A) (n : Z) :
  n ≤ 0 →
  split a n = if n =? 0 then Raise ZeroDivisionError else Ok [].
Proof.
  intros Hn. unfold split. destruct (Z.eqb_spec n 0); [done|].
  by rewrite seqZ_nil by lia.
Qed.

Lemma split_no_chunks_witness :
  split [1; 2; 3] (-2) = if -2 =? 0 then Raise ZeroDivisionError else Ok [].
Proof. apply (split_no_chunks [1; 2; 3] (-2)). lia. Defined.

(** ** Further properties of the path coverer *)


Section PathCovererMore.
Context `{nx : Networkx}.
Variable hash : list Z → Z.


(** X5: every path of the cover is one of the root paths that networkx
    returned, stored under the node it was computed for. *)
Theorem cover_paths_are_root_paths G targets cvg_pct spaths :
  root_paths G spaths →
  ∃ paths, compute_path_coverings hash G targets cvg_pct = Ok paths ∧
           ∀ p, p ∈ paths → ∃ n, dict_lookup n spaths = Some p ∧ (n, p) ∈ spaths.
Proof.
  intros Hroot.
  destruct (compute_path_coverings_spec hash G targets cvg_pct spaths Hroot)
    as (ks & st & _ & _ & Hrun & _ & Hsub & _).
  exists (covering_paths st). split; [done|]. intros p Hp.
  apply (sublist_subseteq _ _ Hsub) in Hp.
  apply list_elem_of_omap in Hp as (n & _ & Hn).
  exists n. split; [done|]. by apply dict_lookup_elem_of.
Qed.

(** X6: when every target node has a root path, the threshold is at most
    one and there are at most 2^53 target nodes, the returned cover passes
    the test of line 128 as Python evaluates it: the number of covered
    target nodes is at least the rounded float product
    [cvg_pct * len(target_nodes_to_cover)]. *)
Theorem cover_reaches_threshold G targets cvg_pct spaths :
  root_paths G spaths →
  (∀ n p, (n, p) ∈ spaths → n ∈ p) →
  (∀ t, t ∈ targets → t ∈ keys spaths) →
  (cvg_pct <= 1)%Q →
  len targets ≤ 2 ^ 53 →
  ∃ paths, compute_path_coverings hash G targets cvg_pct = Ok paths ∧
           threshold_reached targets cvg_pct paths = true.
Proof.
  intros Hroot Hends Hreach Hcvg Hlen.
  destruct (compute_path_coverings_spec hash G targets cvg_pct spaths Hroot)
    as (ks & st & Hks & Hperm & Hrun & Hinv & _ & _ & Hfin).
  exists (covering_paths st). split; [done|].
  destruct Hfin as [[_ Hthr]|Hdisj]; [done|].
  assert (Hempty : uncovered_target_nodes st = ∅).
  { apply set_eq. intros t. split; [|set_solver]. intros Ht. exfalso.
    assert (Ht' : t ∈ targets).
    { rewrite Hinv in Ht. apply elem_of_difference in Ht as [Ht _].
      by apply elem_of_list_to_set in Ht. }
    destruct (dict_lookup_is_Some t spaths (Hreach t Ht')) as [sp Hsp].
    assert (Hk : t ∈ ks) by (rewrite Hperm; by apply Hreach).
    specialize (Hdisj t sp Hk Hsp). apply (Hdisj t); [done|].
    apply elem_of_list_to_set. eapply Hends, dict_lookup_elem_of. done. }
  apply threshold_reached_all; [done|done|].
  rewrite Hinv in Hempty. set_solver.
Qed.

(** X7: a target node that lies on no root path is not covered; the call
    returns all the same, and the test of line 128 for full coverage fails on
    the result (the number of target nodes being at most 2^53, so that the
    float product of line 128 is exact). *)
Theorem unreachable_target_not_covered G targets spaths t :
  root_paths G spaths →
  t ∈ targets →
  (∀ n p, (n, p) ∈ spaths → t ∉ p) →
  len targets ≤ 2 ^ 53 →
  ∃ paths, compute_path_coverings hash G targets 1 = Ok paths ∧
           (t ∉ nodes_of paths) ∧
           threshold_reached targets 1 paths = false.
Proof.
  intros Hroot Ht Hno Hlen.
  destruct (compute_path_coverings_spec hash G targets 1 spaths Hroot)
    as (ks & st & _ & _ & Hrun & Hinv & Hsub & _).
  exists (covering_paths st). split; [done|].
  assert (Hnot : t ∉ nodes_of (covering_paths st)).
  { intros (p & Hp & Htp)%elem_of_nodes_of.
    apply (sublist_subseteq _ _ Hsub) in Hp.
    apply list_elem_of_omap in Hp as (n & _ & Hn).
    apply (Hno n p); [by apply dict_lookup_elem_of|done]. }
  split; [done|].
  destruct (threshold_reached targets 1 (covering_paths st)) eqn:Hthr; [|done].
  apply threshold_reached_one in Hthr; [|done]. exfalso. apply Hnot, Hthr.
  by apply elem_of_list_to_set.
Qed.
End PathCovererMore.


Lemma cover_paths_are_root_paths_witness :
  ∃ paths, compute_path_coverings (nx:=nx_abcd) hash0 G_abcd [3; 4] 1 = Ok paths ∧
           ∀ p, p ∈ paths → ∃ n, dict_lookup n spaths_abcd = Some p ∧ (n, p) ∈ spaths_abcd.
Proof.
  apply (cover_paths_are_root_paths hash0 G_abcd [3; 4] 1 spaths_abcd). by exists G_abcd, 1.
Defined.

Lemma cover_reaches_threshold_witness :
  ∃ paths, compute_path_coverings (nx:=nx_abcd) hash0 G_abcd [3; 4] (1 # 2) = Ok paths ∧
           threshold_reached [3; 4] (1 # 2) paths = true.
Proof.
  apply (cover_reaches_threshold hash0 G_abcd [3; 4] (1 # 2) spaths_abcd).
  - by exists G_abcd, 1.
  - intros n p Hin. unfold spaths_abcd in Hin.
    repeat (apply elem_of_cons in Hin as [[= -> ->]|Hin]; [set_solver|]).
    by apply elem_of_nil in Hin.
  - intros t Ht. unfold keys. simpl. set_solver.
  - by vm_compute.
  - by vm_compute.
Defined.

Lemma unreachable_target_not_covered_witness :
  ∃ paths, compute_path_coverings (nx:=nx_abcd) hash0 G_abcd [3; 9] 1 = Ok paths ∧
           (9 ∉ nodes_of paths) ∧
           threshold_reached [3; 9] 1 paths = false.
Proof.
  apply (unreachable_target_not_covered hash0 G_abcd [3; 9] spaths_abcd 9).
  - by exists G_abcd, 1.
  - set_solver.
  - intros n p Hin. unfold spaths_abcd in Hin.
    repeat (apply elem_of_cons in Hin as [[= -> ->]|Hin]; [set_solver|]).
    by apply elem_of_nil in Hin.
  - by vm_compute.
Defined.

(** ** The main script *)

Lemma traverse_i_names {A B} (f : nat → A → result B) (g : nat → string)
    (h : B → string) (l : list A) (r : list B) (i : nat) :
  (∀ j x y, f j x = Ok y → h y = g j) →
  traverse_i f i l = Ok r →
  h <$> r = g <$> seq i (length l).
Proof.
  intros Hf. revert i r. induction l as [|x l IH]; intros i r; simpl.
  - by intros [= <-].
  - destruct (f i x) as [y|] eqn:Hy; simpl; [|done].
    destruct (traverse_i f (S i) l) as [ys|] eqn:Hys; simpl; [|done].
    intros [= <-]. rewrite fmap_cons. f_equal; [by eapply Hf|]. by apply IH.
Qed.

Section MainFacts.
Context `{nx : Networkx}.
Variable hash : list Z → Z.
Variable WT_TEST_TEMPLATE : string.
Variable str_float : Q → string.

Lemma no_target_on_paths_empty_cover G targets cvg_pct spaths :
  root_paths G spaths →
  (∀ t n p, t ∈ targets → (n, p) ∈ spaths → t ∉ p) →
  compute_path_coverings hash G targets cvg_pct = Ok [].
Proof.
  intros Hroot Hno.
  destruct (compute_path_coverings_spec hash G targets cvg_pct spaths Hroot)
    as (ks & st & _ & _ & Hrun & _ & Hsub & Hnew & _).
  rewrite Hrun. f_equal.
  destruct (covering_paths st) as [|p post] eqn:Hpaths; [done|exfalso].
  destruct (Hnew [] p post eq_refl) as [(t & Ht & Htp & _) _].
  assert (Hp : p ∈ paths_of spaths ks) by (apply (sublist_subseteq _ _ Hsub); by left).
  apply list_elem_of_omap in Hp as (n & _ & Hn).
  apply (Hno t n p); [done|by apply dict_lookup_elem_of|done].
Qed.

(** X8: when no target node lies on a root path (an empty target set
    included), the path coverer returns the empty cover and the main script
    then raises [ZeroDivisionError]: it takes the mean of the path lengths of
    an empty list. *)
Theorem main_empty_cover_raises G node_map edge_actions targets cvg_pct compact n spaths :
  root_paths G spaths →
  (∀ t m p, t ∈ targets → (m, p) ∈ spaths → t ∉ p) →
  compute_path_coverings hash G targets cvg_pct = Ok [] ∧
  main_generate_tests hash WT_TEST_TEMPLATE str_float G node_map edge_actions targets
    cvg_pct compact n = Raise ZeroDivisionError.
Proof.
  intros Hroot Hno.
  pose proof (no_target_on_paths_empty_cover G targets cvg_pct spaths Hroot Hno) as Hrun.
  split; [done|]. unfold main_generate_tests. by rewrite Hrun.
Qed.

(** X9: a run of the main script that succeeds has written exactly
    [parallel_test_split] files, named [model_tests/model_tests_1.py] and so
    on, however many traces there are; for a negative [parallel_test_split]
    it has written none. *)
Theorem main_writes_one_file_per_chunk G node_map edge_actions targets cvg_pct compact n files :
  main_generate_tests hash WT_TEST_TEMPLATE str_float G node_map edge_actions targets
    cvg_pct compact n = Ok files →
  n ≠ 0 ∧
  files.*1 = (λ i, "model_tests/model_tests_" +:+ pretty (Z.of_nat i + 1) +:+ ".py")
             <$> seq 0 (Z.to_nat n).
Proof.
  unfold main_generate_tests.
  destruct (compute_path_coverings hash G targets cvg_pct) as [paths|]; simpl; [|done].
  destruct (mean (len <$> paths)); simpl; [|done].
  destruct (build_traces node_map edge_actions paths) as [traces|]; simpl; [|done].
  unfold split. destruct (Z.eqb_spec n 0) as [|Hn]; simpl; [done|].
  intros Hrun. split; [done|].
  erewrite traverse_i_names; [|
    |exact Hrun].
  - by rewrite length_fmap, length_seqZ.
  - intros j chunk y. simpl.
    destruct (gen_wt_test_from_traces _ _ _ _ _ _); simpl; [|done]. by intros [= <-].
Qed.
End MainFacts.

Lemma main_empty_cover_raises_witness :
  compute_path_coverings (nx:=nx12) hash0 G12 [] 1 = Ok [] ∧
  main_generate_tests (nx:=nx12) hash0 "" (λ _, "1.0") G12 node_map12 edge_actions12 []
    1 true 1 = Raise ZeroDivisionError.
Proof.
  apply (main_empty_cover_raises (nx:=nx12) hash0 "" (λ _, "1.0") G12 node_map12
           edge_actions12 [] 1 true 1 spaths12).
  - by exists G12, 1.
  - by intros t m p ?%elem_of_nil.
Defined.

Lemma main_writes_one_file_per_chunk_witness :
  2 ≠ 0 ∧
  example_files.*1 = (λ i, "model_tests/model_tests_" +:+ pretty (Z.of_nat i + 1) +:+ ".py")
                     <$> seq 0 (Z.to_nat 2).
Proof.
  apply (main_writes_one_file_per_chunk (nx:=nx12) hash0 "" (λ _, "1.0") G12 node_map12
           edge_actions12 [2] 1 true 2 example_files).
  by vm_compute.
Defined.

(** ** Further properties of the loader *)

Lemma add_node_NoDup (n : Z) (G : DiGraph) : NoDup (nodes G) → NoDup (nodes (add_node n G)).
Proof.
  intros Hnd. unfold add_node. case_bool_decide as Hin; simpl; [done|].
  apply NoDup_app. split_and!; [done| |repeat constructor; set_solver].
  intros x Hx ->%list_elem_of_singleton. done.
Qed.

Lemma add_edge_NoDup (u v : Z) (G : DiGraph) :
  NoDup (nodes G) → NoDup (edges G) →
  NoDup (nodes (add_edge u v G)) ∧ NoDup (edges (add_edge u v G)).
Proof.
  intros Hn He. unfold add_edge.
  assert (Hn' : NoDup (nodes (add_node v (add_node u G)))) by by do 2 apply add_node_NoDup.
  case_bool_decide as Hin; simpl; rewrite ?add_node_edges in *; [done|].
  split; [done|].
  apply NoDup_app. split_and!; [done| |repeat constructor; set_solver].
  intros x Hx ->%list_elem_of_singleton. done.
Qed.

Lemma loaded_graph_invariants (json_edges : list json_edge) :
  let G := foldl (λ G edge, add_edge (e_from edge) (e_to edge) G) empty_graph json_edges in
  NoDup (nodes G) ∧ NoDup (edges G) ∧
  (∀ u v, (u, v) ∈ edges G ↔ ∃ e, e ∈ json_edges ∧ e_from e = u ∧ e_to e = v) ∧
  (∀ n, n ∈ nodes G ↔ ∃ e, e ∈ json_edges ∧ (e_from e = n ∨ e_to e = n)).
Proof.
  induction json_edges as [|x l IH] using rev_ind; simpl.
  { split_and!; try constructor.
    - intros ?%elem_of_nil. done.
    - intros (e & ?%elem_of_nil & _). done.
    - intros ?%elem_of_nil. done.
    - intros (e & ?%elem_of_nil & _). done. }
  rewrite foldl_app. simpl. destruct IH as (Hn & He & Hedges & Hnodes).
  destruct (add_edge_NoDup (e_from x) (e_to x) _ Hn He) as [Hn' He'].
  split_and!; try done.
  - intros u v. rewrite add_edge_edges, Hedges. split.
    + intros [[= -> ->]|(e & He0 & <- & <-)].
      * exists x. split; [|done]. apply elem_of_app. right. by left.
      * exists e. split; [|done]. apply elem_of_app. by left.
    + intros (e & [He0| ->%list_elem_of_singleton]%elem_of_app & <- & <-); [|by left].
      right. eauto.
  - intros n. rewrite add_edge_nodes, Hnodes. split.
    + intros [->|[->|(e & He0 & Hor)]].
      * exists x. split; [|by left]. apply elem_of_app. right. by left.
      * exists x. split; [|by right]. apply elem_of_app. right. by left.
      * exists e. split; [|done]. apply elem_of_app. by left.
    + intros (e & [He0| ->%list_elem_of_singleton]%elem_of_app & Hor).
      * right. right. eauto.
      * destruct Hor as [<-|<-]; tauto.
Qed.

(** X10: the graph the loader builds has no repeated node and no repeated
    edge; its edges are exactly the endpoint pairs listed, its nodes exactly
    the endpoints of the listed edges, whatever the states document lists;
    and the edge-label dict has an entry exactly for the edges of the
    graph. *)
Theorem loaded_graph_shape json_edges json_states :
  ∃ G node_map edge_actions,
    parse_json_state_graph json_edges json_states = Ok (G, node_map, edge_actions) ∧
    NoDup (nodes G) ∧ NoDup (edges G) ∧
    (∀ u v, (u, v) ∈ edges G ↔ ∃ e, e ∈ json_edges ∧ e_from e = u ∧ e_to e = v) ∧
    (∀ n, n ∈ nodes G ↔ ∃ e, e ∈ json_edges ∧ (e_from e = n ∨ e_to e = n)) ∧
    (∀ k, is_Some (edge_actions !! k) ↔ k ∈ edges G).
Proof.
  unfold parse_json_state_graph. do 3 eexists. split; [reflexivity|].
  destruct (loaded_graph_invariants json_edges) as (Hn & He & Hedges & Hnodes).
  split_and!; try done.
  intros [u v]. rewrite Hedges.
  destruct (loaded_edge_actions json_edges (u, v)) as [H1 H2]. split.
  - intros [e Hk]. destruct (H1 e Hk) as [Hin [= <- <-]]. eauto.
  - intros (e & Hin & <- & <-). apply H2. eauto.
Qed.

Lemma insert_fold_keeps {A} `{Countable K} {V} (key : A → K) (val : A → V)
    (l : list A) (m : gmap K V) (k : K) :
  (∀ x, x ∈ l → key x ≠ k) →
  foldl (λ m x, <[key x := val x]> m) m l !! k = m !! k.
Proof.
  revert m. induction l as [|x l IH]; intros m Hl; simpl; [done|].
  rewrite IH by (intros y Hy; apply Hl; by right).
  apply lookup_insert_ne, Hl. by left.
Qed.

(** X11: in both dicts of the loader the last entry listed under a key is
    the one kept: an edge listed again with the same endpoints replaces the
    earlier label, and a state listed again replaces the earlier snapshot. *)
Theorem loader_last_entry_wins l1 e l2 k1 s k2 :
  (∀ e', e' ∈ l2 → (e_from e', e_to e') ≠ (e_from e, e_to e)) →
  (∀ s', s' ∈ k2 → s_fp s' ≠ s_fp s) →
  ∃ G node_map edge_actions,
    parse_json_state_graph (l1 ++ e :: l2) (k1 ++ s :: k2) = Ok (G, node_map, edge_actions) ∧
    edge_actions !! (e_from e, e_to e) = Some e ∧
    node_map !! s_fp s = Some (s_val s).
Proof.
  intros Hl2 Hk2. unfold parse_json_state_graph. do 3 eexists. split; [reflexivity|].
  rewrite !foldl_app. simpl. split.
  - rewrite (insert_fold_keeps (λ x, (e_from x, e_to x)) id) by done.
    apply lookup_insert_eq.
  - rewrite (insert_fold_keeps s_fp s_val) by done. apply lookup_insert_eq.
Qed.

Lemma loader_last_entry_wins_witness :
  ∃ G node_map edge_actions,
    parse_json_state_graph
      ([edge12] ++ {| e_from := 1; e_to := 2; e_act := "CommitTransaction"; e_params := [] |}
                :: [edge23])
      ([ {| s_fp := 1; s_val := PInt 0 |} ] ++ {| s_fp := 1; s_val := PNone |} :: [])
      = Ok (G, node_map, edge_actions) ∧
    edge_actions !! (1, 2)
      = Some {| e_from := 1; e_to := 2; e_act := "CommitTransaction"; e_params := [] |} ∧
    node_map !! 1 = Some PNone.
Proof.
  apply (loader_last_entry_wins [edge12]
           {| e_from := 1; e_to := 2; e_act := "CommitTransaction"; e_params := [] |}
           [edge23] [ {| s_fp := 1; s_val := PInt 0 |} ] {| s_fp := 1; s_val := PNone |} []).
  - intros e' ->%list_elem_of_singleton. simpl. congruence.
  - by intros s' ?%elem_of_nil.
Defined.

(** ** Further properties of the trace construction *)

Lemma traverse_returns_iff {A B} (f : A → result B) (l : list A) :
  returns (traverse f l) ↔ ∀ x, x ∈ l → returns (f x).
Proof.
  induction l as [|x l IH]; simpl.
  - split; [by intros _ x ?%elem_of_nil|]. intros _. by eexists.
  - split.
    + intros [r Hr]. destruct (f x) as [y|] eqn:Hy; simpl in Hr; [|done].
      destruct (traverse f l) as [ys|] eqn:Hys; simpl in Hr; [|done].
      intros z [->|Hz]%elem_of_cons; [by eexists|].
      apply IH; [by eexists|done].
    + intros Hall. destruct (Hall x) as [y ->]; [by left|]. simpl.
      destruct IH as [_ [ys ->]]; [intros z Hz; apply Hall; by right|].
      by eexists.
Qed.

Lemma traverse_raises_only {A B} (f : A → result B) (l : list A) (e0 e : exn) :
  (∀ x e', f x = Raise e' → e' = e0) → traverse f l = Raise e → e = e0.
Proof.
  intros Hf. induction l as [|x l IH]; simpl; [done|].
  destruct (f x) as [y|e'] eqn:Hy; simpl.
  - destruct (traverse f l) as [ys|e'']; simpl; [done|]. intros [= <-]. by apply IH.
  - intros [= <-]. by eapply Hf.
Qed.

Lemma traverse_Ok_Forall2 {A B} (f : A → result B) (l : list A) (r : list B) :
  traverse f l = Ok r ↔ Forall2 (λ x y, f x = Ok y) l r.
Proof.
  revert r. induction l as [|x l IH]; intros r; simpl.
  - split; [intros [= <-]; constructor|]. by intros ->%Forall2_nil_inv_l.
  - split.
    + destruct (f x) as [y|] eqn:Hy; simpl; [|done].
      destruct (traverse f l) as [ys|] eqn:Hys; simpl; [|done].
      intros [= <-]. constructor; [done|]. by apply IH.
    + intros (y & ys & Hy & Hys & ->)%Forall2_cons_inv_l.
      rewrite Hy. simpl. apply IH in Hys. by rewrite Hys.
Qed.

Lemma bind_Ok {A B} (m : result A) (k : A → result B) (r : B) :
  m ≫= k = Ok r ↔ ∃ a, m = Ok a ∧ k a = Ok r.
Proof.
  destruct m as [a|e]; simpl; split; try done.
  - eauto.
  - by intros (a' & [= <-] & ?).
  - by intros (a' & ? & _).
Qed.

Lemma map_get_raises `{Countable K} {V} (m : gmap K V) (k : K) (e : exn) :
  map_get m k = Raise e → e = KeyError.
Proof. unfold map_get. destruct (m !! k); congruence. Qed.

Lemma step_of_label_raises node_map act (e : exn) :
  step_of_label node_map act = Raise e → e = KeyError.
Proof.
  unfold step_of_label.
  destruct (map_get node_map (e_from act)) eqn:H1; simpl;
    [|intros [= <-]; by eapply map_get_raises].
  destruct (map_get node_map (e_to act)) eqn:H2; simpl; [done|].
  intros [= <-]. by eapply map_get_raises.
Qed.

Lemma edge_step_returns node_map edge_actions (e : Z * Z) :
  returns (edge_step node_map edge_actions e) ↔
  ∃ act, edge_actions !! e = Some act ∧
         is_Some (node_map !! e_from act) ∧ is_Some (node_map !! e_to act).
Proof.
  unfold edge_step, step_of_label, map_get, returns. split.
  - intros [s Hs]. destruct (edge_actions !! e) as [act|]; simpl in Hs; [|done].
    exists act. split; [done|].
    destruct (node_map !! e_from act); simpl in Hs; [|done].
    destruct (node_map !! e_to act); simpl in Hs; [|done]. by split; eexists.
  - intros (act & Hact & [v1 H1] & [v2 H2]). rewrite Hact. simpl.
    rewrite H1. simpl. rewrite H2. simpl. by eexists.
Qed.

(** What a trace that was built holds: one step per edge of the path, the
    step of edge number [i] being [edge_step] of that edge. *)
Lemma build_trace_steps node_map edge_actions cpath (t : trace) :
  build_trace node_map edge_actions cpath = Ok t →
  Forall2 (λ e s, edge_step node_map edge_actions e = Ok s) (path_edges cpath) (action t).
Proof.
  unfold build_trace.
  intros (acts & Hacts & (steps & Hsteps & [= <-])%bind_Ok)%bind_Ok. simpl.
  apply traverse_Ok_Forall2 in Hacts, Hsteps.
  revert steps Hsteps. induction Hacts as [|e act l acts He _ IH]; intros steps Hsteps.
  - apply Forall2_nil_inv_l in Hsteps as ->. constructor.
  - apply Forall2_cons_inv_l in Hsteps as (s & ss & Hs & Hss & ->).
    constructor; [|by apply IH].
    unfold edge_step. rewrite He. simpl. exact Hs.
Qed.

Lemma build_trace_raises node_map edge_actions cpath (e : exn) :
  build_trace node_map edge_actions cpath = Raise e → e = KeyError.
Proof.
  unfold build_trace.
  destruct (traverse (map_get edge_actions) (path_edges cpath)) as [acts|e'] eqn:Hacts; simpl.
  - destruct (traverse _ acts) as [steps|e'] eqn:Hsteps; simpl; [done|].
    intros [= <-]. eapply traverse_raises_only; [|exact Hsteps].
    intros act e''. apply step_of_label_raises.
  - intros [= <-]. eapply traverse_raises_only; [|exact Hacts].
    intros k e''. apply map_get_raises.
Qed.

(** X12: the trace of a path is built exactly when every consecutive pair of
    the path has an edge label and both endpoints of that label have a
    snapshot; in every other case the construction raises [KeyError]. *)
Theorem build_trace_returns_iff node_map edge_actions cpath :
  (returns (build_trace node_map edge_actions cpath) ↔
   ∀ e, e ∈ path_edges cpath →
        ∃ act, edge_actions !! e = Some act ∧
               is_Some (node_map !! e_from act) ∧ is_Some (node_map !! e_to act)) ∧
  (¬ returns (build_trace node_map edge_actions cpath) →
   build_trace node_map edge_actions cpath = Raise KeyError).
Proof.
  split; [split|].
  - intros [t Ht] e He. apply edge_step_returns.
    apply build_trace_steps in Ht.
    apply list_elem_of_lookup in He as [i Hi].
    destruct (Forall2_lookup_l _ _ _ _ _ Ht Hi) as (s & _ & Hs). by eexists.
  - intros Hall.
    destruct (traverse_Forall2 (map_get edge_actions)
                (λ e e', e = e' ∧ e ∈ path_edges cpath)
                (λ e act, returns (step_of_label node_map act))
                (path_edges cpath) (path_edges cpath)) as (acts & Hacts & HF1).
    { by apply Forall2_diag_elem. }
    { intros e ? [<- He]. destruct (Hall e He) as (act & Hact & [v1 H1] & [v2 H2]).
      exists act. unfold map_get. rewrite Hact. split; [done|].
      unfold step_of_label, map_get. rewrite H1, H2. by eexists. }
    destruct (traverse_Forall2 (step_of_label node_map)
                (λ e act, returns (step_of_label node_map act)) (λ _ _, True)
                (path_edges cpath) acts HF1) as (steps & Hsteps & _).
    { intros e act [s Hs]. by exists s. }
    exists {| action := steps |}. unfold build_trace. rewrite Hacts. simpl.
    change (λ act : json_edge, _) with (step_of_label node_map). by rewrite Hsteps.
  - intros Hno. destruct (build_trace node_map edge_actions cpath) as [t|e] eqn:Hrun.
    + exfalso. apply Hno. by eexists.
    + f_equal. by eapply build_trace_raises.
Qed.

Lemma path_edges_chain (cpath : path) (i : nat) (e e' : Z * Z) :
  path_edges cpath !! i = Some e → path_edges cpath !! S i = Some e' → e.2 = e'.1.
Proof.
  revert i. induction cpath as [|a [|b r] IH]; intros i; simpl; try done.
  destruct i as [|i].
  - intros [= <-]. destruct r as [|c r]; simpl; [done|]. by intros [= <-].
  - intros Hi Hi'. by eapply IH.
Qed.

(** X13: in a trace that was built from a path, with the edge labels stored
    under their own endpoints, the steps follow the path: there is one step
    per consecutive pair, each step is named after the label of its pair, and
    the snapshot in the post-state of a step is the snapshot in the pre-state
    of the next step. *)
Theorem built_trace_is_chained node_map edge_actions cpath (t : trace) :
  edge_actions_consistent edge_actions →
  build_trace node_map edge_actions cpath = Ok t →
  length (action t) = length (path_edges cpath) ∧
  (∀ i e s, path_edges cpath !! i = Some e → action t !! i = Some s →
     ∃ act, edge_actions !! e = Some act ∧ t_name (trans s) = e_act act ∧
            t_context (trans s) = Some (e_params act)) ∧
  (∀ i s s', action t !! i = Some s → action t !! S i = Some s' →
     ∃ v, post_state s = PList [PInt 2; v] ∧ pre_state s' = PList [PInt 1; v]).
Proof.
  intros Hcons Hrun. apply build_trace_steps in Hrun.
  assert (Hstep : ∀ i e s, path_edges cpath !! i = Some e → action t !! i = Some s →
            ∃ act v1 v2, edge_actions !! e = Some act ∧
              node_map !! e.1 = Some v1 ∧ node_map !! e.2 = Some v2 ∧
              t_name (trans s) = e_act act ∧ t_context (trans s) = Some (e_params act) ∧
              pre_state s = PList [PInt 1; v1] ∧ post_state s = PList [PInt 2; v2]).
  { intros i e s Hi Hs.
    destruct (Forall2_lookup_l _ _ _ _ _ Hrun Hi) as (s' & Hs' & Hes).
    assert (s' = s) as -> by congruence.
    unfold edge_step, step_of_label, map_get in Hes.
    destruct (edge_actions !! e) as [act|] eqn:Hact; simpl in Hes; [|done].
    destruct e as [f t']. destruct (Hcons f t' act Hact) as [Hf Ht]. simpl.
    rewrite Hf, Ht in Hes.
    destruct (node_map !! f) as [v1|]; simpl in Hes; [|done].
    destruct (node_map !! t') as [v2|]; simpl in Hes; [|done].
    injection Hes as <-. exists act, v1, v2. by split_and!. }
  split_and!.
  - symmetry. by eapply Forall2_length.
  - intros i e s Hi Hs.
    destruct (Hstep i e s Hi Hs) as (act & v1 & v2 & ? & _ & _ & ? & ? & _). eauto.
  - intros i s s' Hs Hs'.
    destruct (Forall2_lookup_r _ _ _ _ _ Hrun Hs) as (e & He & _).
    destruct (Forall2_lookup_r _ _ _ _ _ Hrun Hs') as (e' & He' & _).
    destruct (Hstep i e s He Hs) as (_ & _ & v2 & _ & _ & Hv2 & _ & _ & _ & Hpost).
    destruct (Hstep (S i) e' s' He' Hs') as (_ & v1 & _ & _ & Hv1 & _ & _ & _ & Hpre & _).
    rewrite (path_edges_chain cpath i e e' He He') in Hv2.
    exists v2. split; [done|]. congruence.
Qed.

Lemma built_trace_is_chained_witness :
  length (action example_trace123) = length (path_edges [1; 2; 3]) ∧
  (∀ i e s, path_edges [1; 2; 3] !! i = Some e → action example_trace123 !! i = Some s →
     ∃ act, edge_actions123 !! e = Some act ∧ t_name (trans s) = e_act act ∧
            t_context (trans s) = Some (e_params act)) ∧
  (∀ i s s', action example_trace123 !! i = Some s → action example_trace123 !! S i = Some s' →
     ∃ v, post_state s = PList [PInt 2; v] ∧ pre_state s' = PList [PInt 1; v]).
Proof.
  apply (built_trace_is_chained node_map123 edge_actions123 [1; 2; 3] example_trace123).
  - intros f t e He. unfold edge_actions123, parse_json_state_graph in He.
    cbv beta iota zeta in He.
    destruct (loaded_edge_actions [edge12; edge23] (f, t)) as [H1 _].
    by destruct (H1 e He) as [_ [= <- <-]].
  - by vm_compute.
Defined.

(** ** Further properties of the translator *)

Lemma timestamp_lines_None : timestamp_lines PNone = Raise TypeError.
Proof. reflexivity. Qed.

(** X14: without a post-state the translator never returns: the guard of line
    162 lets [post_state = None] through, but line 252 subscripts it. *)
Theorem no_post_state_never_translates pre action_name action_args :
  ∃ e, make_wt_action pre action_name action_args PNone = Raise e ∧
       (txn_status action_args PNone = Raise e ∨
        ignore_prepare_of action_args = Raise e ∨
        (∃ tid ip, wt_call_text action_name action_args tid ip = Raise e) ∨
        e = TypeError).
Proof.
  unfold make_wt_action.
  destruct (txn_status action_args PNone) as [[tid err_code]|e]; simpl; [|eauto].
  destruct (ignore_prepare_of action_args) as [ip|e]; simpl; [|eauto].
  destruct (wt_call_text action_name action_args tid ip) as [text|e] eqn:Htext; simpl;
    [|eauto 10].
  destruct (result_assertions action_name err_code) as [asserts res_expected].
  destruct (compact_lines _ _ _ _ _ _) as [c|e] eqn:Hc; simpl.
  - eauto 10.
  - (* the compact form reads only parameters that the call text has read *)
    exfalso. revert Hc Htext. unfold compact_lines, wt_call_text. cbv zeta.
    repeat (match goal with
            | |- context [String.eqb action_name ?c] =>
                destruct (String.eqb_spec action_name c) as [->|?]
            end; [
      cbn [String.eqb Ascii.eqb Bool.eqb];
      repeat (match goal with
              | |- context [py_getkey action_args ?k] =>
                  destruct (py_getkey action_args k); cbn [mbind result_bind]
              end); try destruct (py_eq_str _ _); congruence|]).
    congruence.
Qed.


Lemma py_getkey_found (d : list (string * pyval)) (k : string) (v : pyval) :
  assoc k d = Some v → py_getkey (PDict d) k = Ok v.
Proof. intros Hk. unfold py_getkey. simpl. by rewrite Hk. Qed.




Lemma snapshot_field_Ok (snapshot : pyval) (field : string) (v : pyval) :
  snapshot_field snapshot field = Ok v →
  ∃ d, py_getkey snapshot field = Ok d ∧ py_getkey d "n" = Ok v.
Proof. unfold snapshot_field. by intros ?%bind_Ok. Qed.

Lemma post_state_snapshot (i snapshot : pyval) :
  py_getitem (PList [i; snapshot]) (PInt 1) = Ok snapshot.
Proof. reflexivity. Qed.

(** X16: the timestamp check is left out exactly when the stable and the
    oldest timestamp of the post-state are negative and the all-durable
    timestamp is zero; otherwise one [check_timestamps] statement is appended,
    in which a negative stable or oldest timestamp reads [None]. *)
Theorem timestamp_check_when_set i snapshot a s o :
  snapshot_field snapshot "allDurableTs" = Ok (PInt a) →
  snapshot_field snapshot "stableTs" = Ok (PInt s) →
  snapshot_field snapshot "oldestTs" = Ok (PInt o) →
  timestamp_lines (PList [i; snapshot])
  = Ok (if (s <? 0) && (a =? 0) && (o <? 0) then []
        else [ "self.check_timestamps(all_durable=" +:+ py_str (PInt a) +:+ ", stable_ts="
               +:+ py_str (ts_or_none s) +:+ ", oldest_ts=" +:+ py_str (ts_or_none o)
               +:+ ")" ]).
Proof.
  intros (ad & Had & Ha)%snapshot_field_Ok (sd & Hsd & Hs)%snapshot_field_Ok
         (od & Hod & Ho)%snapshot_field_Ok.
  unfold timestamp_lines. rewrite !post_state_snapshot. cbn [mbind result_bind].
  rewrite Had. cbn [mbind result_bind]. rewrite Ha. cbn [mbind result_bind].
  rewrite Hsd. cbn [mbind result_bind]. rewrite Hs. cbn [mbind result_bind].
  rewrite Hod. cbn [mbind result_bind]. rewrite Ho. cbn [mbind result_bind py_lt0].
  unfold ts_or_none.
  destruct (s <? 0), (o <? 0); cbn [is_none negb orb andb py_eq_int];
    destruct (a =? 0); reflexivity.
Qed.

Lemma timestamp_check_when_set_witness :
  timestamp_lines (PList [PInt 2; example_snapshot (PStr "OK") 0 2 (-1)])
  = Ok (if (2 <? 0) && (0 =? 0) && (-1 <? 0) then []
        else [ "self.check_timestamps(all_durable=" +:+ py_str (PInt 0) +:+ ", stable_ts="
               +:+ py_str (ts_or_none 2) +:+ ", oldest_ts=" +:+ py_str (ts_or_none (-1))
               +:+ ")" ]).
Proof.
  apply (timestamp_check_when_set (PInt 2) (example_snapshot (PStr "OK") 0 2 (-1)) 0 2 (-1));
    reflexivity.
Defined.

(** X17: when the parameter dict names a transaction that the status table
    of the post-state does not list, the translator raises [KeyError],
    whatever the action name. *)
Theorem unknown_transaction_raises pre action_name d i snapshot t tbl :
  assoc "tid" d = Some (PStr t) →
  snapshot_field snapshot "txnStatus" = Ok (PDict tbl) →
  assoc t tbl = None →
  make_wt_action pre action_name (PDict d) (PList [i; snapshot]) = Raise KeyError.
Proof.
  intros Htid (ts & Hts & Hn)%snapshot_field_Ok Ht.
  assert (Hst : txn_status (PDict d) (PList [i; snapshot]) = Raise KeyError).
  { unfold txn_status. cbn [py_in mbind result_bind].
    rewrite bool_decide_eq_true_2 by (rewrite Htid; by eexists).
    rewrite (py_getkey_found d "tid" (PStr t)) by done. cbn [mbind result_bind is_none].
    rewrite post_state_snapshot. cbn [mbind result_bind].
    rewrite Hts. cbn [mbind result_bind]. rewrite Hn. cbn [mbind result_bind py_getitem].
    by rewrite Ht. }
  unfold make_wt_action. by rewrite Hst.
Qed.

Lemma unknown_transaction_raises_witness :
  make_wt_action PNone "AbortTransaction" (PDict [ ("tid", PStr "t9") ])
    (PList [PInt 2; example_snapshot (PStr "OK") 0 (-1) (-1)]) = Raise KeyError.
Proof.
  apply (unknown_transaction_raises PNone "AbortTransaction" [ ("tid", PStr "t9") ] (PInt 2)
           (example_snapshot (PStr "OK") 0 (-1) (-1)) "t9"
           [ ("t1", PStr "OK"); ("t2", PInt 0) ]); reflexivity.
Defined.

Lemma timestamp_lines_length (post : pyval) (ts : list string) :
  timestamp_lines post = Ok ts → (length ts ≤ 1)%nat.
Proof.
  unfold timestamp_lines. intros Hts.
  repeat (apply bind_Ok in Hts as (? & _ & Hts)).
  destruct (_ || _) in Hts; injection Hts as <-; simpl; lia.
Qed.

Lemma compact_lines_shape action_name action_args tid ip res_expected err_code c :
  compact_lines action_name action_args tid ip res_expected err_code = Ok c →
  if bool_decide (action_name ∈ compact_kinds) then ∃ call, c = Some [call] else c = None.
Proof.
  unfold compact_lines. cbv zeta.
  repeat (match goal with
          | |- context [String.eqb action_name ?k] =>
              destruct (String.eqb_spec action_name k) as [->|?]
          end; [
    rewrite bool_decide_eq_true_2 by (unfold compact_kinds; set_solver);
    intros Hc; repeat (apply bind_Ok in Hc as (? & _ & Hc)); injection Hc as <-; eauto|]).
  rewrite bool_decide_eq_false_2 by (unfold compact_kinds; set_solver). congruence.
Qed.

Lemma result_assertions_length action_name err_code :
  (1 ≤ length (result_assertions action_name err_code).1 ≤ 2)%nat.
Proof.
  unfold result_assertions.
  repeat (destruct (py_eq_str err_code _); [simpl; lia|]).
  destruct (String.eqb action_name _); simpl; lia.
Qed.

(** X18: for the eight action names with a compact form the translator
    returns one call statement and at most one timestamp check; for every
    other name it returns the five lines of the try/except block, one or two
    assertions on the outcome, and at most one timestamp check. *)
Theorem translated_block_shape pre action_name action_args post lines :
  make_wt_action pre action_name action_args post = Ok lines →
  (action_name ∈ compact_kinds → (1 ≤ length lines ≤ 2)%nat) ∧
  (action_name ∉ compact_kinds →
   ∃ text rest, lines = try_block text ++ rest ∧ (1 ≤ length rest ≤ 3)%nat).
Proof.
  unfold make_wt_action.
  intros ([tid err_code] & _ & (ip & _ & (text & _ & Hrun)%bind_Ok)%bind_Ok)%bind_Ok.
  pose proof (result_assertions_length action_name err_code) as Hlen.
  destruct (result_assertions action_name err_code) as [asserts res_expected].
  apply bind_Ok in Hrun as (c & Hc%compact_lines_shape & (ts & Hts%timestamp_lines_length & [= <-])%bind_Ok).
  simpl in Hlen. split; intros Hk.
  - rewrite bool_decide_eq_true_2 in Hc by done. destruct Hc as [call ->].
    rewrite length_app. simpl. lia.
  - rewrite bool_decide_eq_false_2 in Hc by done. subst c.
    exists text, (asserts ++ ts). split; [by rewrite app_assoc|].
    rewrite length_app. lia.
Qed.

Lemma translated_block_shape_witness :
  ("AbortTransaction" ∈ compact_kinds →
   (1 ≤ length [ "self.abort_transaction(sess_t1, " +:+ qtd "t1" +:+ ", None, "
                 +:+ qtd "OK" +:+ ")" ] ≤ 2)%nat) ∧
  ("AbortTransaction" ∉ compact_kinds →
   ∃ text rest, [ "self.abort_transaction(sess_t1, " +:+ qtd "t1" +:+ ", None, "
                  +:+ qtd "OK" +:+ ")" ] = try_block text ++ rest ∧
                (1 ≤ length rest ≤ 3)%nat).
Proof.
  apply (translated_block_shape PNone "AbortTransaction" (PDict [ ("tid", PStr "t1") ])
           (example_post (PStr "OK"))).
  reflexivity.
Defined.

(** ** Further properties of the emitter *)

Lemma assoc_keys {V} (d : list (string * V)) (k : string) :
  k ∈ d.*1 → is_Some (assoc k d).
Proof.
  induction d as [|[k' v] d IH]; simpl; [by intros ?%elem_of_nil|].
  intros Hk. destruct (String.eqb_spec k k') as [->|Hne]; [by eexists|].
  apply IH. apply elem_of_cons in Hk as [?|?]; [done|done].
Qed.

Lemma py_getkey_string_dict (v : pyval) (k : string) (x : pyval) :
  py_getkey v k = Ok x → ∃ d, v = PDict d.
Proof.
  unfold py_getkey. destruct v as [| | | |l|d]; simpl; try done. by eexists.
Qed.

Lemma traverse_dict_keys (d : list (string * pyval)) (g : string → pyval → string) :
  returns (traverse (λ k, v ← py_getkey (PDict d) k; Ok (g k v)) d.*1).
Proof.
  apply traverse_returns_iff. intros k Hk.
  destruct (assoc_keys d k Hk) as [v Hv].
  rewrite (py_getkey_found d k v Hv). simpl. by eexists.
Qed.

(** Once a step has been translated, its comment labels cannot raise. *)
Lemma labels_after_translation (t : trace) (i : nat) (a : step) :
  action t !! i = Some a →
  returns (translate_step a) →
  returns (action_labels_of t i).
Proof.
  intros Hi [lines Hrun]. unfold translate_step, make_wt_action in Hrun.
  apply bind_Ok in Hrun as ([tid err_code] & Hst & Hrun).
  apply bind_Ok in Hrun as (ip & _ & Hrun).
  apply bind_Ok in Hrun as (text & _ & Hrun).
  destruct (result_assertions _ _) as [asserts res_expected].
  apply bind_Ok in Hrun as (c & _ & Hrun).
  apply bind_Ok in Hrun as (ts & Hts & _).
  (* the post-state holds a dict at index 1 *)
  unfold timestamp_lines in Hts.
  apply bind_Ok in Hts as (post & Hpost & Hts).
  apply bind_Ok in Hts as (ad & Had & _).
  destruct (py_getkey_string_dict _ _ _ Had) as [d ->].
  unfold action_labels_of. rewrite py_index_nat, Hi. cbn [mbind result_bind].
  rewrite Hpost. cbn [mbind result_bind].
  destruct (traverse_dict_keys
              match t_context (trans a) with Some ctx => ctx | None => [] end
              (λ p v, p +:+ "=" +:+ py_str v)) as [params ->].
  cbn [mbind result_bind py_in].
  destruct (traverse_dict_keys d (λ k v, tab 3 +:+ "# " +:+ k +:+ " = " +:+ py_str v))
    as [fields Hfields].
  assert (Hstatus : returns
            (if bool_decide (is_Some (assoc "tid"
                   match t_context (trans a) with Some ctx => ctx | None => [] end))
             then tid ← py_getkey (PDict match t_context (trans a) with
                                         | Some ctx => ctx | None => [] end) "tid";
                  ts ← py_getkey (PDict d) "txnStatus";
                  n ← py_getkey ts "n";
                  py_getitem n tid
             else Ok PNone)).
  { unfold txn_status, step_args in Hst.
    destruct (t_context (trans a)) as [ctx|]; [|by eexists].
    cbn [py_in mbind result_bind] in Hst.
    destruct (bool_decide (is_Some (assoc "tid" ctx))); [|by eexists].
    apply bind_Ok in Hst as (tid' & -> & Hst). cbn [mbind result_bind].
    assert (Hnn : is_none (post_state a) = false)
      by (destruct (post_state a); [by simpl in Hpost|done..]).
    rewrite Hnn, Hpost in Hst. cbn [mbind result_bind] in Hst.
    apply bind_Ok in Hst as (ts' & -> & Hst). cbn [mbind result_bind].
    apply bind_Ok in Hst as (n & -> & Hst). cbn [mbind result_bind].
    apply bind_Ok in Hst as (e & -> & _). by eexists. }
  destruct Hstatus as [status ->]. cbn [mbind result_bind].
  rewrite Hfields. cbn [mbind result_bind]. by eexists.
Qed.

Lemma label_loop_statements (t : trace) (i : nat) (wt_actions : list (list string)) :
  (∀ j, (j < length wt_actions)%nat → returns (action_labels_of t (i + j))) →
  label_loop t true i wt_actions = Ok ([], [], indented_statements wt_actions) ∧
  returns (label_loop t false i wt_actions).
Proof.
  revert i. induction wt_actions as [|a rest IH]; intros i Hall.
  { split; [done|by eexists]. }
  destruct (Hall 0%nat) as [[l1 l2] Hl]; [simpl; lia|]. rewrite Nat.add_0_r in Hl.
  destruct (IH (S i)) as [IH1 [[[r1 r2] r3] IH2]].
  { intros j Hj. replace (S i + j)%nat with (i + S j)%nat by lia. apply Hall. simpl. lia. }
  simpl. rewrite Hl. cbn [mbind result_bind]. rewrite IH1, IH2. cbn [mbind result_bind].
  split; [|by eexists].
  unfold indented_statements. simpl. by rewrite fmap_app.
Qed.

Lemma py_slice_to_take {A} (l : list A) (n : Z) : ∃ k, py_slice_to l n = take k l.
Proof. unfold py_slice_to. destruct (n <? 0); eauto. Qed.

Lemma translated_labels_return (t : trace) (max_len : Z) (wt_actions : list (list string)) :
  translate_actions t max_len = Ok wt_actions →
  ∀ j, (j < length wt_actions)%nat → returns (action_labels_of t (0 + j)).
Proof.
  unfold translate_actions. destruct (py_slice_to_take (action t) max_len) as [k ->].
  intros Hwt%traverse_Ok_Forall2 j Hj. simpl.
  destruct (lookup_lt_is_Some_2 wt_actions j Hj) as [lines Hlines].
  destruct (Forall2_lookup_r _ _ _ _ _ Hwt Hlines) as (a & Ha & Hrun).
  apply (labels_after_translation t j a); [|by eexists].
  apply lookup_take_Some in Ha as [Ha _]. done.
Qed.

(** X19: with [compact] set, the text of a test function is its opening, the
    statements of the translated steps in order, each on its own line behind
    eight spaces, and its closing: no label and nothing else is written, and
    the function fails only if a step fails to translate. *)
Theorem compact_test_fn_text (i : nat) (t : trace) (max_len : Z) :
  gen_test_fn i t max_len true
  = (wt_actions ← translate_actions t max_len;
     Ok (test_fn_head i +:+ nl +:+ concat_str (indented_statements wt_actions)
         +:+ test_fn_foot)).
Proof.
  unfold gen_test_fn.
  destruct (translate_actions t max_len) as [wt|e] eqn:Hwt; [|done].
  cbn [mbind result_bind].
  destruct (label_loop_statements t 0 wt (translated_labels_return t max_len wt Hwt))
    as [-> _].
  reflexivity.
Qed.

Lemma gen_test_fn_returns (i : nat) (t : trace) (max_len : Z) (compact : bool) :
  returns (gen_test_fn i t max_len compact) ↔ returns (translate_actions t max_len).
Proof.
  unfold gen_test_fn.
  destruct (translate_actions t max_len) as [wt|e] eqn:Hwt; cbn [mbind result_bind].
  - split; [by eexists|]. intros _.
    destruct (label_loop_statements t 0 wt (translated_labels_return t max_len wt Hwt))
      as [H1 [[[r1 r2] r3] H2]].
    destruct compact; [rewrite H1|rewrite H2]; by eexists.
  - split; by intros [? ?].
Qed.

Lemma append_nil_r (s : string) : s +:+ "" = s.
Proof.
  induction s as [|c s IH]; [done|].
  change (String c (s +:+ "") = String c s). by f_equal.
Qed.

Lemma concat_str_cons (s : string) (l : list string) :
  concat_str (s :: l) = s +:+ concat_str l.
Proof. destruct l; simpl; [by rewrite append_nil_r|done]. Qed.

Lemma label_loop_lines (t : trace) (compact : bool) (i : nat) (wt_actions : list (list string))
    (labels_only labels test_lines : list string) :
  label_loop t compact i wt_actions = Ok (labels_only, labels, test_lines) →
  test_lines = indented_statements wt_actions.
Proof.
  revert i labels_only labels test_lines.
  induction wt_actions as [|a rest IH]; intros i lo ls tl; simpl.
  { by intros [= <- <- <-]. }
  intros Hrun. apply bind_Ok in Hrun as ([l1 l2] & _ & Hrun).
  apply bind_Ok in Hrun as ([[r1 r2] r3] & Hrest & Hrun).
  apply IH in Hrest as ->.
  unfold indented_statements. simpl. rewrite fmap_app.
  destruct compact; by injection Hrun as <- <- <-.
Qed.

(** The text of one test function: its opening, the labels, the statements
    of the first [max_len] steps and its closing. *)
Lemma gen_test_fn_steps (i : nat) (t : trace) (max_len : Z) (compact : bool) (fn : string) :
  0 ≤ max_len →
  gen_test_fn i t max_len compact = Ok fn →
  test_fn_of_steps i compact (take (Z.to_nat max_len) (action t)) fn.
Proof.
  intros Hn Hrun. unfold gen_test_fn in Hrun.
  apply bind_Ok in Hrun as (wt & Hwt & Hrun).
  rewrite translate_actions_take in Hwt by done.
  apply traverse_Ok_Forall2 in Hwt.
  apply bind_Ok in Hrun as ([[lo ls] tl] & Hloop & Hrun).
  apply label_loop_lines in Hloop as ->.
  injection Hrun as <-.
  exists wt, (if compact then ""
              else join nl lo +:+ nl +:+ nl +:+ join nl ls +:+ nl +:+ nl +:+ nl).
  split_and!; [done|by intros ->|done].
Qed.

Section EmitterMore.
Variable WT_TEST_TEMPLATE : string.
Variable str_float : Q → string.

Lemma gen_test_fns_returns (i : nat) (traces : list trace) (max_len : Z) (compact : bool) :
  returns (gen_test_fns i traces max_len compact) ↔
  ∀ t, t ∈ traces → returns (translate_actions t max_len).
Proof.
  revert i. induction traces as [|t rest IH]; intros i; simpl.
  - split; [by intros _ t ?%elem_of_nil|]. intros _. by eexists.
  - split.
    + intros [r Hr]. apply bind_Ok in Hr as (s & Hs & Hr).
      apply bind_Ok in Hr as (ss & Hss & _).
      intros t' [->|Ht']%elem_of_cons.
      * apply (gen_test_fn_returns i t max_len compact). by eexists.
      * apply (IH (S i)); [by eexists|done].
    + intros Hall.
      destruct (proj2 (gen_test_fn_returns i t max_len compact)) as [s ->];
        [apply Hall; by left|].
      destruct (proj2 (IH (S i))) as [ss ->]; [intros t' Ht'; apply Hall; by right|].
      by eexists.
Qed.

(** X20: the emitter returns exactly when every step among those kept by
    [max_len], of every trace, translates: once the steps of a trace are
    translated, neither its comment labels nor anything else the emitter
    computes can raise. *)
Theorem emitter_returns_iff traces max_len compact cvg_pct :
  returns (gen_wt_test_from_traces WT_TEST_TEMPLATE str_float traces max_len compact cvg_pct) ↔
  ∀ t a, t ∈ traces → a ∈ py_slice_to (action t) max_len → returns (translate_step a).
Proof.
  unfold gen_wt_test_from_traces. split.
  - intros [r Hr]. apply bind_Ok in Hr as (body & Hbody & _).
    intros t a Ht Ha.
    assert (Hall : returns (gen_test_fns 0 traces max_len compact)) by by eexists.
    apply gen_test_fns_returns with (t := t) in Hall; [|done].
    unfold translate_actions in Hall. by apply traverse_returns_iff with (x := a) in Hall.
  - intros Hall.
    destruct (proj2 (gen_test_fns_returns 0 traces max_len compact)) as [body ->].
    { intros t Ht. unfold translate_actions. apply traverse_returns_iff. eauto. }
    by eexists.
Qed.

Lemma gen_test_fns_parts (i : nat) (traces : list trace) (max_len : Z) (compact : bool)
    (body : string) :
  gen_test_fns i traces max_len compact = Ok body →
  ∃ fns, body = concat_str fns ∧
         length fns = length traces ∧
         ∀ j t fn, traces !! j = Some t → fns !! j = Some fn →
                   gen_test_fn (i + j) t max_len compact = Ok fn.
Proof.
  revert i body. induction traces as [|t rest IH]; intros i body; simpl.
  { intros [= <-]. exists []. split_and!; try done. }
  intros Hrun. apply bind_Ok in Hrun as (s & Hs & Hrun).
  apply bind_Ok in Hrun as (ss & Hss & [= <-]).
  destruct (IH (S i) ss Hss) as (fns & -> & Hlen & Hfns).
  exists (s :: fns). split_and!.
  - by rewrite concat_str_cons.
  - simpl. by rewrite Hlen.
  - intros [|j] t' fn; simpl.
    + intros [= <-] [= <-]. by rewrite Nat.add_0_r.
    + intros Ht' Hfn. replace (i + S j)%nat with (S i + j)%nat by lia. by eapply Hfns.
Qed.

(** C10: with a limit [max_len] of at least zero, the file the emitter
    writes is its header followed by one test function per trace, and the
    function of a trace holds the statements of the first [max_len] steps of
    the trace, as [make_wt_action] translates them, in order, and of no other
    step: the steps beyond the limit are dropped, and a trace list that has
    the same first [max_len] steps in every trace gives the same file. *)
Theorem only_first_max_len_actions traces max_len compact cvg_pct out :
  0 ≤ max_len →
  gen_wt_test_from_traces WT_TEST_TEMPLATE str_float traces max_len compact cvg_pct = Ok out →
  (∃ fns,
     out = file_header WT_TEST_TEMPLATE (str_float cvg_pct) (len traces) +:+ concat_str fns ∧
     length fns = length traces ∧
     ∀ i t fn, traces !! i = Some t → fns !! i = Some fn →
               test_fn_of_steps i compact (take (Z.to_nat max_len) (action t)) fn) ∧
  (∀ traces',
     Forall2 (λ t t', take (Z.to_nat max_len) (action t')
                      = take (Z.to_nat max_len) (action t)) traces traces' →
     gen_wt_test_from_traces WT_TEST_TEMPLATE str_float traces' max_len compact cvg_pct
     = Ok out).
Proof.
  intros Hn Hrun. split.
  - unfold gen_wt_test_from_traces in Hrun.
    apply bind_Ok in Hrun as (body & Hbody & [= <-]).
    destruct (gen_test_fns_parts 0 traces max_len compact body Hbody)
      as (fns & -> & Hlen & Hfns).
    exists fns. split_and!; [done|done|].
    intros i t fn Ht Hfn. apply (gen_test_fn_steps i t max_len compact fn Hn).
    by apply (Hfns i t fn).
  - intros traces' Hsame. rewrite <- Hrun. unfold gen_wt_test_from_traces.
    assert (Hcut : truncate_trace (Z.to_nat max_len) <$> traces'
                   = truncate_trace (Z.to_nat max_len) <$> traces).
    { clear Hrun. induction Hsame as [|t t' l l' Ht _ IH]; [done|].
      rewrite !fmap_cons, IH. unfold truncate_trace. by rewrite Ht. }
    rewrite <- (gen_test_fns_truncate 0 traces' max_len compact Hn), Hcut.
    rewrite (gen_test_fns_truncate 0 traces max_len compact Hn).
    unfold len. by rewrite (Forall2_length _ _ _ Hsame).
Qed.
End EmitterMore.

Lemma only_first_max_len_actions_witness :
  (∃ fns,
     example_out = file_header "" "1.0" (len [example_trace]) +:+ concat_str fns ∧
     length fns = length [example_trace] ∧
     ∀ i t fn, [example_trace] !! i = Some t → fns !! i = Some fn →
               test_fn_of_steps i true (take (Z.to_nat 1) (action t)) fn) ∧
  (∀ traces',
     Forall2 (λ t t', take (Z.to_nat 1) (action t') = take (Z.to_nat 1) (action t))
             [example_trace] traces' →
     gen_wt_test_from_traces "" (λ _, "1.0") traces' 1 true 1 = Ok example_out).
Proof.
  apply (only_first_max_len_actions "" (λ _, "1.0") [example_trace] 1 true 1 example_out).
  - lia.
  - reflexivity.
Defined.

(** ** The configuration files and the schedules *)

Lemma sdict_set_keys (k v : string) (d : sdict) :
  (sdict_set k v d).*1 = if bool_decide (k ∈ d.*1) then d.*1 else d.*1 ++ [k].
Proof.
  induction d as [|[k' v'] d IH]; [done|]. cbn [sdict_set].
  destruct (String.eqb_spec k k') as [->|Hne].
  - rewrite bool_decide_eq_true_2 by (rewrite fmap_cons; left). done.
  - rewrite !fmap_cons, IH. cbn [fst]. destruct (bool_decide (k ∈ d.*1)) eqn:Hk.
    + apply bool_decide_eq_true_1 in Hk. rewrite bool_decide_eq_true_2 by by right. done.
    + apply bool_decide_eq_false_1 in Hk.
      rewrite bool_decide_eq_false_2; [done|]. by intros [?|?]%elem_of_cons.
Qed.

Lemma sdict_set_assoc (k v k' : string) (d : sdict) :
  assoc k' (sdict_set k v d) = if String.eqb k' k then Some v else assoc k' d.
Proof.
  induction d as [|[k0 v0] d IH]; simpl; [done|].
  destruct (String.eqb_spec k k0) as [->|Hne]; simpl.
  - by destruct (String.eqb_spec k' k0).
  - rewrite IH. destruct (String.eqb_spec k' k0) as [->|?]; [|done].
    destruct (String.eqb_spec k0 k); [congruence|done].
Qed.

Lemma sdict_set_NoDup (k v : string) (d : sdict) : NoDup d.*1 → NoDup (sdict_set k v d).*1.
Proof.
  intros Hd. rewrite sdict_set_keys. destruct (bool_decide (k ∈ d.*1)) eqn:Hk; [done|].
  apply bool_decide_eq_false_1 in Hk. apply NoDup_app. split_and!; [done| |apply NoDup_singleton].
  intros x Hx ->%list_elem_of_singleton. done.
Qed.

Lemma assoc_None {V} (k : string) (d : list (string * V)) : k ∉ d.*1 → assoc k d = None.
Proof.
  intros Hk. destruct (assoc k d) as [v|] eqn:Hv; [|done].
  exfalso. apply Hk. clear Hk. induction d as [|[k' v'] d IH]; simpl in *; [done|].
  destruct (String.eqb_spec k k') as [->|?]; [by left|right; by apply IH].
Qed.

Lemma filter_iff_elem {A} (P1 P2 : A → Prop) `{!∀ x, Decision (P1 x), !∀ x, Decision (P2 x)}
    (l : list A) :
  (∀ x, x ∈ l → P1 x ↔ P2 x) → filter P1 l = filter P2 l.
Proof.
  induction l as [|x l IH]; intros Hl; [done|].
  rewrite !filter_cons, IH by (intros y Hy; apply Hl; by right).
  pose proof (Hl x (list_elem_of_here _ _)) as Hx.
  destruct (decide (P1 x)), (decide (P2 x)); tauto || done.
Qed.

Lemma sdict_update_keys (d constants : sdict) :
  NoDup constants.*1 →
  (sdict_update d constants).*1 = d.*1 ++ filter (λ k, k ∉ d.*1) constants.*1.
Proof.
  unfold sdict_update. revert d.
  induction constants as [|[k v] upd IH]; intros d Hnd; simpl.
  { by rewrite filter_nil, app_nil_r. }
  apply NoDup_cons in Hnd as [Hk Hnd]. rewrite IH by done. rewrite sdict_set_keys.
  rewrite filter_cons. destruct (bool_decide (k ∈ d.*1)) eqn:Hin.
  - apply bool_decide_eq_true_1 in Hin. rewrite decide_False by (by intros ?). done.
  - apply bool_decide_eq_false_1 in Hin. rewrite decide_True by done.
    rewrite <- app_assoc. simpl. do 2 f_equal.
    apply filter_iff_elem. intros x Hx. rewrite not_elem_of_app.
    split; [by intros [? _]|]. intros ?. split; [done|].
    intros ->%list_elem_of_singleton. done.
Qed.

Lemma sdict_update_assoc (d constants : sdict) (k : string) :
  NoDup constants.*1 →
  assoc k (sdict_update d constants)
  = match assoc k constants with Some v => Some v | None => assoc k d end.
Proof.
  unfold sdict_update. revert d.
  induction constants as [|[k0 v0] upd IH]; intros d Hnd; simpl; [done|].
  apply NoDup_cons in Hnd as [Hk Hnd]. rewrite IH by done. rewrite sdict_set_assoc.
  destruct (String.eqb_spec k k0) as [->|?]; [|done].
  by rewrite (assoc_None k0 upd Hk).
Qed.

Lemma sdict_by_keys (d : sdict) (f : string → string) :
  NoDup d.*1 →
  (∀ k, k ∈ d.*1 → assoc k d = Some (f k)) →
  d = (λ k, (k, f k)) <$> d.*1.
Proof.
  induction d as [|[k v] d IH]; intros Hnd Hf; simpl in *; [done|].
  apply NoDup_cons in Hnd as [Hk Hnd].
  pose proof (Hf k (list_elem_of_here _ _)) as Hv. rewrite String.eqb_refl in Hv.
  injection Hv as ->. f_equal. apply IH; [done|].
  intros k' Hk'. specialize (Hf k' (list_elem_of_further _ _ _ Hk')).
  destruct (String.eqb_spec k' k) as [Heq|?]; [subst k'; by destruct Hk|done].
Qed.

Lemma sdict_update_closed (d constants : sdict) :
  NoDup d.*1 → NoDup constants.*1 →
  sdict_update d constants
  = (λ k, (k, match assoc k constants with
              | Some v => v
              | None => default "" (assoc k d)
              end)) <$> (d.*1 ++ filter (λ k, k ∉ d.*1) constants.*1).
Proof.
  intros Hd Hc. rewrite <- sdict_update_keys by done. apply sdict_by_keys.
  - rewrite sdict_update_keys by done. apply NoDup_app. split_and!; [done| |].
    + intros x Hx [Hx' _]%list_elem_of_filter. done.
    + by apply NoDup_filter.
  - intros k Hk. rewrite sdict_update_assoc by done.
    destruct (assoc k constants) as [v|] eqn:Hv; [done|].
    rewrite sdict_update_keys in Hk by done. apply elem_of_app in Hk as [Hk|Hk].
    + destruct (assoc_keys d k Hk) as [v' ->]. done.
    + apply list_elem_of_filter in Hk as [_ Hk]. apply assoc_keys in Hk as [? Hk]. congruence.
Qed.

(** X21: the configuration file of [gen_tla_json_graph] in closed form.  The
    ten constants of the model come first, in their fixed order, each on
    one line with the value passed for it if there is one and its default
    otherwise; the constants passed that the model does not have follow, in
    the order passed.  The three actions are disabled whatever is passed,
    no CONSTRAINT line is written, and the SYMMETRY line is written exactly
    when [symmetry] is set. *)
Theorem config_file_lines (constants : sdict) (symmetry : bool) :
  NoDup constants.*1 →
  gen_tla_json_graph_writes constants symmetry
  = [ "INIT Init" +:+ nl; "NEXT Next" +:+ nl ]
    ++ ((λ k, "CONSTANT " +:+ k +:+ " = " +:+ constant_value constants k +:+ nl)
          <$> (default_constants.*1
               ++ filter (λ k, k ∉ default_constants.*1) constants.*1))
    ++ ((λ a, a +:+ " <- FALSE" +:+ nl)
          <$> [ "SetStableTimestamp"; "RollbackToStable"; "SetOldestTimestamp" ])
    ++ (if symmetry then [ "SYMMETRY Symmetry" +:+ nl ] else []).
Proof.
  intros Hc. unfold gen_tla_json_graph_writes, config_writes, gen_tla_json_graph_config.
  cbn [cfg_init cfg_next cfg_symmetry cfg_constants cfg_overrides].
  rewrite sdict_update_closed; [|by vm_compute; repeat constructor; set_solver|done].
  rewrite <- list_fmap_compose.
  apply (f_equal2 app); [reflexivity|]. apply (f_equal2 app); [reflexivity|].
  apply (f_equal2 app); [reflexivity|by destruct symmetry].
Qed.

Lemma config_file_lines_witness :
  gen_tla_json_graph_writes [ ("Keys", "{k1}"); ("Extra", "1") ] true
  = [ "INIT Init" +:+ nl; "NEXT Next" +:+ nl ]
    ++ ((λ k, "CONSTANT " +:+ k +:+ " = "
              +:+ constant_value [ ("Keys", "{k1}"); ("Extra", "1") ] k +:+ nl)
          <$> (default_constants.*1
               ++ filter (λ k, k ∉ default_constants.*1)
                         [ ("Keys", "{k1}"); ("Extra", "1") ].*1))
    ++ ((λ a, a +:+ " <- FALSE" +:+ nl)
          <$> [ "SetStableTimestamp"; "RollbackToStable"; "SetOldestTimestamp" ])
    ++ [ "SYMMETRY Symmetry" +:+ nl ].
Proof.
  apply (config_file_lines [ ("Keys", "{k1}"); ("Extra", "1") ] true).
  vm_compute. repeat constructor; set_solver.
Defined.

Lemma assoc_app {V} (k : string) (a b : list (string * V)) :
  assoc k (a ++ b) = match assoc k a with Some v => Some v | None => assoc k b end.
Proof.
  induction a as [|[k' v'] a IH]; simpl; [done|]. by destruct (String.eqb k k').
Qed.

Lemma sdict_update_NoDup (d constants : sdict) :
  NoDup d.*1 → NoDup (sdict_update d constants).*1.
Proof.
  unfold sdict_update. revert d. induction constants as [|[k v] upd IH]; intros d Hd; [done|].
  simpl. apply IH. by apply sdict_set_NoDup.
Qed.

Lemma sdict_update_last (d constants : sdict) (k : string) :
  assoc k (sdict_update d constants)
  = match assoc k (reverse constants) with Some v => Some v | None => assoc k d end.
Proof.
  unfold sdict_update. revert d. induction constants as [|[k0 v0] upd IH]; intros d; [done|].
  simpl. rewrite IH, reverse_cons, assoc_app, sdict_set_assoc. simpl.
  destruct (assoc k (reverse upd)); [done|]. by destruct (String.eqb k k0).
Qed.

Lemma sdict_update_elem (d constants : sdict) (k : string) :
  k ∈ (sdict_update d constants).*1 ↔ k ∈ d.*1 ∨ k ∈ constants.*1.
Proof.
  unfold sdict_update. revert d. induction constants as [|[k0 v0] upd IH]; intros d.
  { simpl. rewrite elem_of_nil. tauto. }
  cbn [foldl]. rewrite IH, sdict_set_keys, fmap_cons, elem_of_cons. cbn [fst].
  destruct (bool_decide (k0 ∈ d.*1)) eqn:Hk0.
  - apply bool_decide_eq_true_1 in Hk0. split; [tauto|]. intros [?|[->|?]]; tauto.
  - rewrite elem_of_app, list_elem_of_singleton. tauto.
Qed.

Lemma parse_constants_run (args : list string) :
  ∀ constants,
    parse_constants args constants
    = if Nat.even (length args) then Ok (sdict_update constants (pairs_of args))
      else Raise IndexError.
Proof.
  assert (H : ∀ args : list string,
             (∀ constants, parse_constants args constants
                = if Nat.even (length args) then Ok (sdict_update constants (pairs_of args))
                  else Raise IndexError) ∧
             (∀ a constants, parse_constants (a :: args) constants
                = if Nat.even (length (a :: args))
                  then Ok (sdict_update constants (pairs_of (a :: args)))
                  else Raise IndexError)).
  { clear args. induction args as [|b args [IH1 IH2]].
    - split; [done|]. intros a constants. done.
    - split; [exact (IH2 b)|]. intros a constants.
      change (parse_constants (a :: b :: args) constants)
        with (parse_constants args (sdict_set a b constants)).
      rewrite IH1. done. }
  apply H.
Qed.

(** X22: the constant overrides of the command line.  An odd number of
    words makes the script fail with IndexError; an even number gives a dict
    with one entry per name, holding the value of the last pair that names
    it. *)
Theorem parse_constants_pairs (args : list string) :
  if Nat.even (length args)
  then ∃ constants, parse_constants args [] = Ok constants
                    ∧ NoDup constants.*1
                    ∧ (∀ k, k ∈ constants.*1 ↔ k ∈ (pairs_of args).*1)
                    ∧ ∀ k, assoc k constants = assoc k (reverse (pairs_of args))
  else parse_constants args [] = Raise IndexError.
Proof.
  rewrite parse_constants_run. destruct (Nat.even (length args)); [|done].
  eexists. split_and!; [done| | |].
  - apply sdict_update_NoDup. constructor.
  - intros k. rewrite sdict_update_elem. simpl. rewrite elem_of_nil. tauto.
  - intros k. rewrite sdict_update_last. by destruct (assoc k (reverse (pairs_of args))).
Qed.

(** X23: the configuration file of [compute_permissiveness] depends on the
    overrides only through the ten constants of [base_config_params]: it
    has fifteen lines whatever is passed, and an override for any other
    name is dropped. *)
Theorem permissiveness_config_ignores_unknown (o1 o2 : sdict) :
  (∀ c, c ∈ base_constants.*1 → assoc c o1 = assoc c o2) →
  compute_permissiveness_writes o1 = compute_permissiveness_writes o2
  ∧ length (compute_permissiveness_writes o1) = 15%nat.
Proof.
  intros Hsame. split; [|done]. unfold compute_permissiveness_writes. f_equal.
  apply Forall_fmap_ext_1, Forall_forall. intros [c v] Hc.
  rewrite (Hsame c); [done|]. apply list_elem_of_fmap. by exists (c, v).
Qed.

Lemma permissiveness_config_ignores_unknown_witness :
  compute_permissiveness_writes [ ("RC", qtd "local"); ("WC", qtd "majority") ]
  = compute_permissiveness_writes [ ("RC", qtd "local") ]
  ∧ length (compute_permissiveness_writes [ ("RC", qtd "local"); ("WC", qtd "majority") ])
    = 15%nat.
Proof.
  apply (permissiveness_config_ignores_unknown
           [ ("RC", qtd "local"); ("WC", qtd "majority") ] [ ("RC", qtd "local") ]).
  intros c Hc. vm_compute in Hc.
  repeat (apply elem_of_cons in Hc as [->|Hc]; [reflexivity|]).
  by apply elem_of_nil in Hc.
Defined.

Lemma str_split_length (sep : ascii) (s : string) :
  length (str_split sep s) = S (count_char sep s).
Proof.
  induction s as [|c s IH]; simpl; [done|].
  destruct (Ascii.eqb c sep); simpl; [by rewrite IH|].
  destruct (str_split sep s) as [|f fs]; simpl in *; [done|done].
Qed.

Lemma read_fingerprints_run (lines : list string) :
  ∀ uniq_fps,
    read_fingerprints lines uniq_fps
    = if bool_decide (Forall (λ line, (2 ≤ count_char dollar line)%nat) lines)
      then Ok (sdict_update uniq_fps (entries_of lines))
      else Raise IndexError.
Proof.
  induction lines as [|line rest IH]; intros uniq_fps; [done|].
  cbn [read_fingerprints]. cbv zeta.
  pose proof (str_split_length dollar line) as Hlen.
  change 1 with (Z.of_nat 1). change 2 with (Z.of_nat 2). rewrite !py_index_nat.
  unfold entries_of. cbn [omap list_omap].
  destruct (str_split dollar line) as [|f0 [|fp [|v fs]]] eqn:Hs; simpl in Hlen.
  - done.
  - rewrite bool_decide_eq_false_2; [done|]. intros [? _]%Forall_cons. lia.
  - rewrite bool_decide_eq_false_2; [done|]. intros [? _]%Forall_cons. lia.
  - cbn [lookup list_lookup mbind result_bind option_bind]. rewrite IH.
    destruct (bool_decide (Forall _ rest)) eqn:Hrest.
    + apply bool_decide_eq_true_1 in Hrest.
      rewrite bool_decide_eq_true_2 by (apply Forall_cons; split; [lia|done]). done.
    + apply bool_decide_eq_false_1 in Hrest.
      rewrite bool_decide_eq_false_2; [done|]. by intros [_ ?]%Forall_cons.
Qed.

(** X24: reading the schedules returns exactly when every line of the log
    has at least two dollar signs, and fails with IndexError otherwise. *)
Theorem read_fingerprints_returns_iff (lines : list string) :
  (returns (read_fingerprints lines [])
   ↔ Forall (λ line, (2 ≤ count_char dollar line)%nat) lines)
  ∧ (¬ returns (read_fingerprints lines [])
     ↔ read_fingerprints lines [] = Raise IndexError).
Proof.
  rewrite read_fingerprints_run.
  destruct (bool_decide _) eqn:Hall.
  - apply bool_decide_eq_true_1 in Hall. split; split; try done.
    + intros _. by eexists.
    + intros Hn. destruct Hn. by eexists.
  - apply bool_decide_eq_false_1 in Hall. split; split; try done.
    + by intros [? ?].
    + by intros _ [? ?].
Qed.

(** X25: the schedules read from the log are keyed by the distinct
    fingerprints: their number is the number of different second fields,
    and each fingerprint holds the third field of the last line that
    carries it. *)
Theorem schedules_are_distinct_fingerprints (lines : list string) (uniq_fps : sdict) :
  read_fingerprints lines [] = Ok uniq_fps →
  NoDup uniq_fps.*1
  ∧ dict_keys uniq_fps = list_to_set (fingerprints_of lines)
  ∧ length uniq_fps = size (list_to_set (fingerprints_of lines) : gset string)
  ∧ ∀ fp, assoc fp uniq_fps = assoc fp (reverse (entries_of lines)).
Proof.
  rewrite read_fingerprints_run. destruct (bool_decide _); [|done]. intros [= <-].
  assert (Hnd : NoDup (sdict_update [] (entries_of lines)).*1)
    by (apply sdict_update_NoDup; constructor).
  assert (Hkeys : dict_keys (sdict_update [] (entries_of lines))
                  = list_to_set (fingerprints_of lines)).
  { unfold dict_keys, fingerprints_of. apply set_eq. intros k.
    rewrite !elem_of_list_to_set, sdict_update_elem. simpl. rewrite elem_of_nil. tauto. }
  split_and!; [done|done| |].
  - rewrite <- Hkeys. unfold dict_keys. rewrite size_list_to_set by done.
    by rewrite length_fmap.
  - intros fp. rewrite sdict_update_last.
    by destruct (assoc fp (reverse (entries_of lines))).
Qed.

Lemma schedules_are_distinct_fingerprints_witness :
  NoDup [ ("7", "s1"); ("9", "s2") ].*1
  ∧ dict_keys [ ("7", "s1"); ("9", "s2") ]
    = list_to_set (fingerprints_of [ "fpl$7$s0"; "fpl$9$s2"; "fpl$7$s1" ])
  ∧ length [ ("7", "s1"); ("9", "s2") ]
    = size (list_to_set (fingerprints_of [ "fpl$7$s0"; "fpl$9$s2"; "fpl$7$s1" ])
              : gset string)
  ∧ ∀ fp, assoc fp [ ("7", "s1"); ("9", "s2") ]
          = assoc fp (reverse (entries_of [ "fpl$7$s0"; "fpl$9$s2"; "fpl$7$s1" ])).
Proof.
  apply (schedules_are_distinct_fingerprints [ "fpl$7$s0"; "fpl$9$s2"; "fpl$7$s1" ]).
  reflexivity.
Defined.

Lemma dict_keys_size (d : sdict) : NoDup d.*1 → size (dict_keys d) = length d.
Proof. intros Hd. unfold dict_keys. by rewrite size_list_to_set, length_fmap. Qed.

(** X26: [strict_subset_ordered a b] holds only if [a] has strictly fewer
    entries than [b], and then it does not hold the other way round. *)
Theorem strict_subset_ordered_fewer (a b : sdict) :
  NoDup a.*1 → NoDup b.*1 →
  strict_subset_ordered a b = true →
  (length a < length b)%nat ∧ strict_subset_ordered b a = false.
Proof.
  intros Ha Hb. unfold strict_subset_ordered.
  intros [Hab Hba]%andb_true_iff. apply bool_decide_eq_true_1 in Hab.
  apply negb_true_iff, bool_decide_eq_false_1 in Hba. split.
  - rewrite <- (dict_keys_size a), <- (dict_keys_size b) by done.
    apply subset_size. by split.
  - rewrite (bool_decide_eq_false_2 (dict_keys b ⊆ dict_keys a)) by done. done.
Qed.

Lemma strict_subset_ordered_fewer_witness :
  (length [ ("7", "s1") ] < length [ ("7", "s1"); ("9", "s2") ])%nat
  ∧ strict_subset_ordered [ ("7", "s1"); ("9", "s2") ] [ ("7", "s1") ] = false.
Proof.
  apply (strict_subset_ordered_fewer [ ("7", "s1") ] [ ("7", "s1"); ("9", "s2") ]).
  - vm_compute. repeat constructor; set_solver.
  - vm_compute. repeat constructor; set_solver.
  - vm_compute. reflexivity.
Defined.
